(** * dscore: frame-level labelling and contingency-based diarization metrics

    A shallow embedding of [tools/dscore/scorelib/score.py],
    [tools/dscore/scorelib/metrics.py], of the aligner of
    [tools/dscore/confusion_matrix.py] and of the rows and the data frame of
    [tools/dscore/score_batch.py], with the properties of the RTTM reader,
    the frame labeler, the multi-recording aligner, the contingency builder,
    the metric engine, the scorer and the batch scorer.

    Conventions.
    - Times (onset, offset, duration, step) are float64 in the source.  The
      frame labeler only multiplies, divides once and compares them; they are
      rationals ([Q]) here, with exact arithmetic.  [Score64] has the one
      division in binary64, to show where its rounding matters.
    - Integer labels are int64 in the source ([2**np.arange(...)] and the
      sums and offsets made of it): they are integers ([Z]) here, and every
      operation that numpy performs on them is followed by the reduction
      [Np.wrap64] to the int64 range.  Counts of frames are natural numbers.
    - The metrics are float64 computations with logarithms and a square
      root.  [Metrics] models them in exact real arithmetic ([R]), with a
      [NaN] for the result of 0/0 (see [float] below); this is the reading
      in which their identities and bounds are stated.  [Metrics64] models
      B-cubed and Goodman-Kruskal tau, which need neither logarithm nor
      square root, operation by operation in binary64; it shows where the
      rounding of the source departs from the real-number reading.
    - A dictionary from recording ids to turns is the list of its items.
    - A Python exception is the [Raise] branch of [result]. *)

From Stdlib Require Import Floats.
From Stdlib Require Import List ZArith QArith String Ascii Bool Arith Sorted.
From Stdlib Require Import Permutation Reals Lia Lra.
Import ListNotations.

Close Scope Q_scope.
Close Scope R_scope.

Set Implicit Arguments.

(** ** Exceptions *)

Inductive error : Type :=
| ValueError
| ZeroDivisionError
| KeyError
| IndexError
| OverflowError.

Inductive result (A : Type) : Type :=
| Ok (a : A)
| Raise (e : error).

Arguments Ok {A} a.
Arguments Raise {A} e.

Definition bind {A B : Type} (r : result A) (k : A -> result B) : result B :=
  match r with
  | Ok a => k a
  | Raise e => Raise e
  end.

Notation "x <- r ;; k" := (bind r (fun x => k))
  (at level 61, r at next level, right associativity).

(** ** The numpy primitives the source calls *)

Module Np.

Section Unique.
Variable A : Type.
Variable cmp : A -> A -> comparison.

(** Insertion of [x] into an ascending duplicate-free list. *)
Fixpoint insert_sorted (x : A) (l : list A) : list A :=
  match l with
  | [] => [x]
  | y :: t =>
      match cmp x y with
      | Lt => x :: l
      | Eq => l
      | Gt => y :: insert_sorted x t
      end
  end.

(** [np.unique(a)]: the sorted distinct values of [a]. *)
Definition unique (a : list A) : list A :=
  fold_right insert_sorted [] a.

(** Position of [x] in the array of classes [u]. *)
Fixpoint index_of (x : A) (u : list A) : nat :=
  match u with
  | [] => 0
  | y :: t =>
      match cmp x y with
      | Eq => 0
      | _ => S (index_of x t)
      end
  end.

(** [np.unique(a, return_inverse=True)]. *)
Definition unique_inverse (a : list A) : list A * list nat :=
  (unique a, map (fun x => index_of x (unique a)) a).
End Unique.

(** [np.searchsorted(a, v)] with the default [side='left'] on an ascending
    array: the first index [i] with [v <= a[i]], [len(a)] when there is
    none. *)
Fixpoint searchsorted (a : list Q) (v : Q) : nat :=
  match a with
  | [] => 0
  | x :: t => if Qle_bool v x then 0 else S (searchsorted t v)
  end.

(** [step * np.arange(n)]. *)
Definition arange_times (step : Q) (n : nat) : list Q :=
  map (fun i => step * inject_Z (Z.of_nat i))%Q (seq 0 n).

(** The value that an int64 holds after an operation whose exact result is
    [z]: numpy's integer arithmetic wraps around silently. *)
Definition wrap64 (z : Z) : Z :=
  ((z + 2 ^ 63) mod 2 ^ 64 - 2 ^ 63)%Z.

(** [2 ** np.arange(w)], an int64 array: [2 ** 63] is [-2 ** 63] and the
    higher powers are 0. *)
Definition pows (w : nat) : list Z :=
  map (fun j => wrap64 (2 ^ Z.of_nat j)) (seq 0 w).

(** [a.max()], which raises on an empty array. *)
Definition amax (a : list Z) : result Z :=
  match a with
  | [] => Raise ValueError
  | x :: t => Ok (fold_left Z.max t x)
  end.

End Np.

(** ** scorelib/score.py *)

Module Score.

Record Turn : Type := mkTurn {
  speaker_id : string;
  onset : Q;
  offset : Q
}.

(** Python's [max] over a list of floats. *)
Definition max_offset (offsets : list Q) : result Q :=
  match offsets with
  | [] => Raise ValueError
  | x :: t => Ok (fold_left (fun m y => if Qle_bool y m then m else y) t x)
  end.

(** Python's [min] of two floats. *)
Definition qmin (a b : Q) : Q := if Qle_bool a b then a else b.

(** [int(dur/step)]: the quotient truncated towards zero.  The quotient is
    the exact one here; the source rounds it to binary64 before it truncates
    ([Score64.int_div]), which gives one frame more when the rounding
    carries the quotient up to an integer. *)
Definition int_div (dur step : Q) : result Z :=
  if Qeq_bool step 0%Q then Raise ZeroDivisionError
  else let q := (dur / step)%Q in
       Ok (Z.quot (Qnum q) (Zpos (Qden q))).

(** [np.zeros((n, w), dtype='bool')]. *)
Definition zeros (n w : nat) : list (list bool) :=
  repeat (repeat false w) n.

(** Assignment [row[k] = True]. *)
Fixpoint set_true (k : nat) (row : list bool) {struct row} : list bool :=
  match row, k with
  | [], _ => []
  | _ :: t, O => true :: t
  | b :: t, S k' => b :: set_true k' t
  end.

(** Rows [bi..ei-1] of [X] from row number [i] on, column [k] set. *)
Fixpoint mark_from (i bi ei k : nat) (X : list (list bool))
  : list (list bool) :=
  match X with
  | [] => []
  | row :: rest =>
      (if (bi <=? i)%nat && (i <? ei)%nat then set_true k row else row)
        :: mark_from (S i) bi ei k rest
  end.

(** The slice assignment [X[bi:ei, k] = True]. *)
Definition mark (bi ei k : nat) (X : list (list bool)) : list (list bool) :=
  mark_from 0 bi ei k X.

(** The loop over [zip(bis, eis, speaker_class_inds)]. *)
Fixpoint mark_turns (bis eis inds : list nat) (X : list (list bool))
  : list (list bool) :=
  match bis, eis, inds with
  | bi :: bis', ei :: eis', k :: inds' =>
      mark_turns bis' eis' inds' (mark bi ei k X)
  | _, _, _ => X
  end.

(** A row with no entry set gets its last entry set. *)
Definition fill_row (row : list bool) : list bool :=
  if existsb (fun b => b) row then row
  else set_true (pred (List.length row)) row.

(** [is_nil = ~(X.any(axis=1)); X[is_nil, -1] = True]. *)
Definition fill_nil (X : list (list bool)) : list (list bool) :=
  map fill_row X.

(** [np.sum(pows * X, axis=1)] for one row: the products [p * True = p] and
    [p * False = 0] are added up in int64.  Addition modulo [2 ** 64] is
    associative and commutative, so the order in which numpy adds them does
    not matter. *)
Fixpoint row_label (ps : list Z) (row : list bool) : Z :=
  match ps, row with
  | p :: ps', b :: row' =>
      Np.wrap64 ((if b then p else 0) + row_label ps' row')
  | _, _ => 0%Z
  end.

(** The matrix [X] of [turns_to_frames] just before the labels are read off:
    entry [i, j] tells whether class [j] is present at frame [i]. *)
Definition presence (turns : list Turn) (n_frames : nat) (step : Q)
  : list (list bool) :=
  let onsets := map onset turns in
  let offsets := map offset turns in
  let speaker_ids := map speaker_id turns in
  let '(speaker_classes, speaker_class_inds) :=
    Np.unique_inverse String.compare speaker_ids in
  let speaker_classes := speaker_classes ++ ["non-speech"%string] in
  let X := zeros n_frames (List.length speaker_classes) in
  let times := Np.arange_times step n_frames in
  let bis := map (Np.searchsorted times) onsets in
  let eis := map (Np.searchsorted times) offsets in
  fill_nil (mark_turns bis eis speaker_class_inds X).

(** The classes of the labelling: the sorted speakers and ['non-speech']. *)
Definition classes_of (turns : list Turn) : list string :=
  Np.unique String.compare (map speaker_id turns) ++ ["non-speech"%string].

(** [to_binary(n)]: the bits of [n], least significant first. *)
Definition to_binary (w : nat) (n : nat) : list bool :=
  map (fun j => Z.testbit (Z.of_nat n) (Z.of_nat j)) (seq 0 w).

(** [speaker_classes[mask]] for a boolean mask. *)
Fixpoint select (classes : list string) (mask : list bool) : list string :=
  match classes, mask with
  | c :: cs, b :: bs => if b then c :: select cs bs else select cs bs
  | _, _ => []
  end.

(** ['_'.join(names)]. *)
Definition join (names : list string) : string :=
  String.concat "_" names.

(** The array [label_classes]: one name per subset of the classes. *)
Definition label_classes (classes : list string) : list string :=
  map (fun n => join (select classes (to_binary (List.length classes) n)))
      (seq 0 (2 ^ List.length classes)).

(** [label_classes[l]] for one int64 index [l]: a negative index counts
    from the end of the array. *)
Definition getitem (table : list string) (l : Z) : string :=
  nth (Z.to_nat (if (l <? 0)%Z then Z.of_nat (List.length table) + l else l))
      table ""%string.

Inductive labels : Type :=
| IntLabels (l : list Z)
| StrLabels (l : list string).

(** [if dur is None: dur = max(offsets)]. *)
Definition resolve_dur (turns : list Turn) (dur : option Q) : result Q :=
  match dur with
  | Some d => Ok d
  | None => max_offset (map offset turns)
  end.

(** [turns_to_frames(turns, dur, step, as_string)]. *)
Definition turns_to_frames (turns : list Turn) (dur : option Q) (step : Q)
           (as_string : bool) : result labels :=
  dur <- resolve_dur turns dur ;;
  n <- int_div dur step ;;
  if (n <? 0)%Z then Raise ValueError
  else
    let n_frames := Z.to_nat n in
    let X := presence turns n_frames step in
    let classes := classes_of turns in
    let ls := map (row_label (Np.pows (List.length classes))) X in
    if as_string
    then Ok (StrLabels (map (getitem (label_classes classes)) ls))
    else Ok (IntLabels ls).

(** The integer labelling, as the aligner uses it. *)
Definition int_frames (turns : list Turn) (dur : Q) (step : Q)
  : result (list Z) :=
  r <- turns_to_frames turns (Some dur) step false ;;
  match r with
  | IntLabels l => Ok l
  | StrLabels _ => Raise ValueError
  end.

(** *** The multi-recording aligner *)

(** The dictionary [rec_id_to_turns] that [rttm_to_turns] returns, as the
    list of its items in iteration order; recording ids are its keys and
    occur once. *)
Definition rttm : Type := list (string * list Turn).

Definition keys (d : rttm) : list string := map fst d.

(** [d[rec_id]]. *)
Fixpoint lookup (rec_id : string) (d : rttm) : result (list Turn) :=
  match d with
  | [] => Raise KeyError
  | (k, v) :: t => if String.eqb rec_id k then Ok v else lookup rec_id t
  end.

(** [sorted(set(ref.keys()) & set(sys.keys()))]. *)
Definition common_rec_ids (ref sys : rttm) : list string :=
  Np.unique String.compare
    (filter (fun k => existsb (String.eqb k) (keys sys)) (keys ref)).

(** The variables the loop of [rttms_to_frames] updates. *)
Record acc : Type := mkAcc {
  ref_labels : list (list Z);
  sys_labels : list (list Z);
  max_ref_label : Z;
  max_sys_label : Z
}.

Definition acc0 : acc := mkAcc [] [] 0 0.

(** One iteration of [for rec_id in rec_ids]; the sums
    [turns_to_frames(...) + max_ref_label] are int64 sums. *)
Definition align_rec (ref sys : rttm) (step : Q) (st : acc)
           (rec_id : string) : result acc :=
  ref_turns <- lookup rec_id ref ;;
  sys_turns <- lookup rec_id sys ;;
  ref_dur <- max_offset (map offset ref_turns) ;;
  sys_dur <- max_offset (map offset sys_turns) ;;
  let dur := qmin ref_dur sys_dur in
  rl <- int_frames ref_turns dur step ;;
  let ref_labels_ := map (fun l => Np.wrap64 (l + max_ref_label st)) rl in
  max_ref <- Np.amax ref_labels_ ;;
  sl <- int_frames sys_turns dur step ;;
  let sys_labels_ := map (fun l => Np.wrap64 (l + max_sys_label st)) sl in
  max_sys <- Np.amax sys_labels_ ;;
  Ok (mkAcc (ref_labels st ++ [ref_labels_]) (sys_labels st ++ [sys_labels_])
            max_ref max_sys).

Fixpoint align_loop (ref sys : rttm) (step : Q) (rec_ids : list string)
         (st : acc) : result acc :=
  match rec_ids with
  | [] => Ok st
  | rec_id :: rest =>
      st' <- align_rec ref sys step st rec_id ;;
      align_loop ref sys step rest st'
  end.

(** The per-recording label arrays, as they stand when the loop ends. *)
Definition rttms_to_chunks (ref sys : rttm) (step : Q) : result acc :=
  align_loop ref sys step (common_rec_ids ref sys) acc0.

(** [np.concatenate(arrays)], which raises on an empty list. *)
Definition concatenate (arrays : list (list Z)) : result (list Z) :=
  match arrays with
  | [] => Raise ValueError
  | _ => Ok (List.concat arrays)
  end.

(** [rttms_to_frames], from the two parsed RTTM files. *)
Definition rttms_to_frames (ref sys : rttm) (step : Q)
  : result (list Z * list Z) :=
  st <- rttms_to_chunks ref sys step ;;
  r <- concatenate (ref_labels st) ;;
  s <- concatenate (sys_labels st) ;;
  Ok (r, s).

End Score.

(** ** The number of frames in binary64 *)

(** [n_frames = int(dur/step)] with the arithmetic of the source: the
    quotient is rounded to the nearest binary64 number and then truncated.
    [Score.int_div] truncates the exact quotient; the two agree unless the
    rounding carries the quotient across an integer. *)

Module Score64.

(** Python's [int(x)] on a float: truncation towards zero. *)
Definition int_of_float (x : PrimFloat.float) : result Z :=
  match Prim2SF x with
  | S754_zero _ => Ok 0%Z
  | S754_finite s m e =>
      let a := if (0 <=? e)%Z then (Zpos m * 2 ^ e)%Z
               else (Zpos m / 2 ^ (- e))%Z in
      Ok (if s then (- a)%Z else a)
  | S754_infinity _ => Raise OverflowError
  | S754_nan => Raise ValueError
  end.

(** [int(dur/step)]. *)
Definition int_div (dur step : PrimFloat.float) : result Z :=
  if PrimFloat.eqb step 0%float then Raise ZeroDivisionError
  else int_of_float (PrimFloat.div dur step).

End Score64.

(** ** confusion_matrix.py *)

Module ConfusionMatrix.

Import Score.

(** [list(d.values())[0]]. *)
Definition first_value (d : rttm) : result (list Turn) :=
  match d with
  | [] => Raise IndexError
  | (_, v) :: _ => Ok v
  end.

Definition str_frames (turns : list Turn) (dur : Q) (step : Q)
  : result (list string) :=
  r <- turns_to_frames turns (Some dur) step true ;;
  match r with
  | StrLabels l => Ok l
  | IntLabels _ => Raise ValueError
  end.

(** [rttms_to_frames] of the single-file tool. *)
Definition rttms_to_frames (ref sys : rttm) (step : Q)
  : result (list string * list string) :=
  let rec_ids := common_rec_ids ref sys in
  if negb (List.length rec_ids =? 1) then Raise ValueError
  else
    ref_turns <- first_value ref ;;
    sys_turns <- first_value sys ;;
    ref_dur <- max_offset (map offset ref_turns) ;;
    sys_dur <- max_offset (map offset sys_turns) ;;
    let dur := qmin ref_dur sys_dur in
    rl <- str_frames ref_turns dur step ;;
    sl <- str_frames sys_turns dur step ;;
    Ok (rl, sl).

End ConfusionMatrix.


(** ** scorelib/metrics.py *)

(** Floats.  The metrics are float64 computations; [Metrics] is their
    real-number reading: exact real arithmetic, with [NaN] for the
    not-a-number that numpy returns for 0/0.  Contingency cells are counts
    (natural numbers); on such matrices a zero divisor only ever meets a zero
    dividend, so no infinity arises and every division by zero is a [NaN].
    Rounding is left out here and is the subject of [Metrics64] below. *)

Inductive float : Type :=
| Fin (r : R)
| NaN.

Module Metrics.

Definition lift2 (op : R -> R -> R) (x y : float) : float :=
  match x, y with
  | Fin a, Fin b => Fin (op a b)
  | _, _ => NaN
  end.

Definition fadd : float -> float -> float := lift2 Rplus.
Definition fsub : float -> float -> float := lift2 Rminus.
Definition fmul : float -> float -> float := lift2 Rmult.

Definition fneg (x : float) : float :=
  match x with
  | Fin a => Fin (- a)
  | NaN => NaN
  end.

Definition fdiv (x y : float) : float :=
  match x, y with
  | Fin a, Fin b => if Req_dec_T b 0 then NaN else Fin (a / b)
  | _, _ => NaN
  end.

Definition fsqrt (x : float) : float :=
  match x with
  | Fin a => if Rlt_dec a 0 then NaN else Fin (sqrt a)
  | NaN => NaN
  end.

(** [x > 0], which is false for a nan. *)
Definition fpos (x : float) : bool :=
  match x with
  | Fin a => if Rlt_dec 0 a then true else false
  | NaN => false
  end.

(** [np.finfo(float).eps]. *)
Definition EPS : R := / 2 ^ 52.

(** [np.log] when [nats], [np.log2] otherwise, on a positive argument. *)
Definition log (nats : bool) (x : R) : R :=
  if nats then ln x else (ln x / ln 2)%R.

Definition flog (nats : bool) (x : float) : float :=
  match x with
  | Fin a => if Rlt_dec 0 a then Fin (log nats a) else NaN
  | NaN => NaN
  end.

(** [np.sum] of a one-dimensional array. *)
Definition fsum (a : list float) : float := fold_right fadd (Fin 0) a.

Definition matrix : Type := list (list nat).
Definition fmatrix : Type := list (list float).

(** *** The contingency builder *)

Fixpoint incr_nth (j : nat) (row : list nat) {struct row} : list nat :=
  match row, j with
  | [], _ => []
  | x :: t, O => S x :: t
  | x :: t, S j' => x :: incr_nth j' t
  end.

Fixpoint incr_cell (i j : nat) (m : matrix) {struct m} : matrix :=
  match m, i with
  | [], _ => []
  | row :: t, O => incr_nth j row :: t
  | row :: t, S i' => row :: incr_cell i' j t
  end.

(** [coo_matrix((np.ones(n), (rows, cols)), shape=(nr, nc)).toarray()]:
    every entry adds one to its cell, so duplicate entries are summed. *)
Definition coo_toarray (nr nc : nat) (rows cols : list nat) : matrix :=
  fold_left (fun m ij => incr_cell (fst ij) (snd ij) m)
            (combine rows cols)
            (repeat (repeat 0 nc) nr).

(** [contingency_matrix(ref_labels, sys_labels)]; the constructor of
    [coo_matrix] rejects index arrays of different lengths. *)
Definition contingency_matrix (ref_labels sys_labels : list Z)
  : result (matrix * list Z * list Z) :=
  let '(ref_classes, ref_class_inds) :=
    Np.unique_inverse Z.compare ref_labels in
  let '(sys_classes, sys_class_inds) :=
    Np.unique_inverse Z.compare sys_labels in
  if negb (List.length ref_labels =? List.length sys_labels)
  then Raise ValueError
  else Ok (coo_toarray (List.length ref_classes) (List.length sys_classes)
                       ref_class_inds sys_class_inds,
           ref_classes, sys_classes).

(** The first lines of every metric: [if cm is None: cm, _, _ = ...]. *)
Definition get_cm (ref_labels sys_labels : list Z) (cm : option matrix)
  : result matrix :=
  match cm with
  | Some m => Ok m
  | None =>
      r <- contingency_matrix ref_labels sys_labels ;;
      Ok (fst (fst r))
  end.

(** *** Array operations *)

Definition ncols (A : Type) (m : list (list A)) : nat :=
  match m with
  | [] => 0
  | row :: _ => List.length row
  end.

(** [cm.astype('float64')]. *)
Definition astype_float (cm : matrix) : fmatrix :=
  map (map (fun c => Fin (INR c))) cm.

(** [m.sum()]. *)
Definition msum (m : fmatrix) : float := fsum (map fsum m).

(** [m.sum(axis=1)]. *)
Definition sum_axis1 (m : fmatrix) : list float := map fsum m.

(** [m.sum(axis=0)]. *)
Definition sum_axis0 (m : fmatrix) : list float :=
  map (fun j => fsum (map (fun row => nth j row (Fin 0)) m))
      (seq 0 (ncols m)).

Fixpoint zip_with (A B C : Type) (f : A -> B -> C) (a : list A) (b : list B)
  : list C :=
  match a, b with
  | x :: a', y :: b' => f x y :: zip_with f a' b'
  | _, _ => []
  end.

(** [m / s] for a scalar [s]. *)
Definition div_scalar (m : fmatrix) (s : float) : fmatrix :=
  map (map (fun x => fdiv x s)) m.

(** [m / v] for a row vector [v], broadcast over the rows. *)
Definition div_cols (m : fmatrix) (v : list float) : fmatrix :=
  map (fun row => zip_with fdiv row v) m.

(** [m / np.expand_dims(v, 1)], broadcast over the columns. *)
Definition div_rows (m : fmatrix) (v : list float) : fmatrix :=
  zip_with (fun row r => map (fun x => fdiv x r) row) m v.

(** [a * b], elementwise. *)
Definition mul_elem (a b : fmatrix) : fmatrix :=
  zip_with (zip_with fmul) a b.

(** [m ** 2]. *)
Definition square (m : fmatrix) : fmatrix :=
  map (map (fun x => fmul x x)) m.

(** *** B-cubed *)

Definition bcubed (ref_labels sys_labels : list Z) (cm : option matrix)
  : result (float * float * float) :=
  cm <- get_cm ref_labels sys_labels cm ;;
  let cm := astype_float cm in
  let cm_norm := div_scalar cm (msum cm) in
  let precision := msum (mul_elem cm_norm (div_cols cm (sum_axis0 cm))) in
  let recall := msum (mul_elem cm_norm (div_rows cm (sum_axis1 cm))) in
  let f1 := fdiv (fmul (Fin 2) (fmul precision recall))
                 (fadd precision recall) in
  Ok (precision, recall, f1).

(** *** Goodman-Kruskal tau *)

Definition goodman_kruskal_tau (ref_labels sys_labels : list Z)
           (cm : option matrix) : result (float * float) :=
  cm <- get_cm ref_labels sys_labels cm ;;
  let cm := astype_float cm in
  let cm := div_scalar cm (msum cm) in
  let ref_marginals := sum_axis1 cm in
  let sys_marginals := sum_axis0 cm in
  (* Tau(ref, sys). *)
  let vy := fadd (fsub (Fin 1) (fsum (map (fun x => fmul x x) sys_marginals)))
                 (Fin EPS) in
  let xy_term := sum_axis1 (square cm) in
  let vy_bar_x := fsub (Fin 1) (fsum (zip_with fdiv xy_term ref_marginals)) in
  let tau_ref_sys := fdiv (fsub vy vy_bar_x) vy in
  (* Tau(sys, ref). *)
  let vx := fadd (fsub (Fin 1) (fsum (map (fun x => fmul x x) ref_marginals)))
                 (Fin EPS) in
  let yx_term := sum_axis0 (square cm) in
  let vx_bar_y := fsub (Fin 1) (fsum (zip_with fdiv yx_term sys_marginals)) in
  let tau_sys_ref := fdiv (fsub vx vx_bar_y) vx in
  Ok (tau_ref_sys, tau_sys_ref).

(** *** Entropies *)

Definition sum_nat (l : list nat) : nat := fold_right Nat.add 0 l.

(** The integer [cm.sum()], [cm.sum(axis=1)] and [cm.sum(axis=0)]. *)
Definition isum (cm : matrix) : nat := sum_nat (map sum_nat cm).
Definition isum_axis1 (cm : matrix) : list nat := map sum_nat cm.
Definition isum_axis0 (cm : matrix) : list nat :=
  map (fun j => sum_nat (map (fun row => nth j row 0) cm)) (seq 0 (ncols cm)).

(** The cells of one row that [np.nonzero] reports, from column [j] on. *)
Fixpoint nonzero_row (i j : nat) (row : list nat) : list (nat * nat * nat) :=
  match row with
  | [] => []
  | c :: t =>
      if c =? 0 then nonzero_row i (S j) t
      else (i, j, c) :: nonzero_row i (S j) t
  end.

Fixpoint nonzero_from (i : nat) (cm : matrix) : list (nat * nat * nat) :=
  match cm with
  | [] => []
  | row :: t => nonzero_row i 0 row ++ nonzero_from (S i) t
  end.

(** [ref_inds, sys_inds = np.nonzero(cm)] with [vals = cm[ref_inds,
    sys_inds]]: the non-zero cells in row-major order. *)
Definition nonzero (cm : matrix) : list (nat * nat * nat) :=
  nonzero_from 0 cm.

Definition fint (n : nat) : float := Fin (INR n).

Definition conditional_entropy (ref_labels sys_labels : list Z)
           (cm : option matrix) (nats : bool) : result float :=
  cm <- get_cm ref_labels sys_labels cm ;;
  let sys_marginals := isum_axis0 cm in
  let N := isum cm in
  let n_sys := sum_nat sys_marginals in
  let sigma :=
    map (fun cell =>
           let '(_, j, v) := cell in
           fmul (fdiv (fint v) (fint N))
                (fsub (fadd (fsub (flog nats (fint (nth j sys_marginals 0)))
                                  (flog nats (fint v)))
                            (flog nats (fint N)))
                      (flog nats (fint n_sys))))
        (nonzero cm) in
  Ok (fsum sigma).

(** The local function [h] of [mutual_information]. *)
Definition h (nats : bool) (p : list float) : float :=
  let p := filter fpos p in
  fneg (fsum (map (fun x => fmul x (flog nats x)) p)).

Definition mutual_information (ref_labels sys_labels : list Z)
           (cm : option matrix) (nats : bool) : result (float * float) :=
  cm <- get_cm ref_labels sys_labels cm ;;
  (* Mutual information. *)
  let N := isum cm in
  let ref_marginals := isum_axis1 cm in
  let sys_marginals := isum_axis0 cm in
  let sigma :=
    map (fun cell =>
           let '(i, j, v) := cell in
           let outer := nth i ref_marginals 0 * nth j sys_marginals 0 in
           fmul (fdiv (fint v) (fint N))
                (fadd (fsub (flog nats (fint v)) (flog nats (fint outer)))
                      (flog nats (fint N))))
        (nonzero cm) in
  let mi := fsum sigma in
  (* Normalized mutual information. *)
  let ref_marginals := map (fun m => fdiv (fint m) (fint N)) ref_marginals in
  let sys_marginals := map (fun m => fdiv (fint m) (fint N)) sys_marginals in
  let nmi := fdiv mi (fsqrt (fadd (fmul (h nats ref_marginals)
                                        (h nats sys_marginals))
                                  (Fin EPS))) in
  Ok (mi, nmi).

End Metrics.

(** ** scorelib/metrics.py in binary64 *)

(** B-cubed and Goodman-Kruskal tau once more, with the arithmetic of the
    source: the arrays hold binary64 numbers (the IEEE 754 doubles of the
    kernel, [PrimFloat.float]) and every operation rounds to nearest.  The
    functions follow the source line by line, as those of [Metrics] do.
    numpy adds the numbers of a reduction of fewer than eight entries from
    left to right, starting from the first one, and so does [fsum]; on
    longer arrays numpy adds in blocks, so that the model is that of the
    source on matrices of fewer than eight cells, which is what the
    statements about it use. *)

Module Metrics64.

Definition float64 : Type := PrimFloat.float.
Definition fmatrix : Type := list (list float64).

(** [np.finfo(float).eps], which is [2 ** -52]. *)
Definition EPS : float64 := 0x1p-52%float.

(** The float64 of a count. *)
Definition fint (n : nat) : float64 :=
  PrimFloat.of_uint63 (Uint63.of_Z (Z.of_nat n)).

(** [np.sum] of a one-dimensional array. *)
Definition fsum (a : list float64) : float64 :=
  match a with
  | [] => 0%float
  | x :: t => fold_left PrimFloat.add t x
  end.

(** [cm.astype('float64')]. *)
Definition astype_float (cm : Metrics.matrix) : fmatrix :=
  map (map fint) cm.

(** [m.sum()], over the cells in row-major order. *)
Definition msum (m : fmatrix) : float64 := fsum (List.concat m).

(** [m.sum(axis=1)]. *)
Definition sum_axis1 (m : fmatrix) : list float64 := map fsum m.

(** [m.sum(axis=0)]. *)
Definition sum_axis0 (m : fmatrix) : list float64 :=
  map (fun j => fsum (map (fun row => nth j row 0%float) m))
      (seq 0 (Metrics.ncols m)).

(** [m / s] for a scalar [s]. *)
Definition div_scalar (m : fmatrix) (s : float64) : fmatrix :=
  map (map (fun x => PrimFloat.div x s)) m.

(** [m / v] for a row vector [v], broadcast over the rows. *)
Definition div_cols (m : fmatrix) (v : list float64) : fmatrix :=
  map (fun row => Metrics.zip_with PrimFloat.div row v) m.

(** [m / np.expand_dims(v, 1)], broadcast over the columns. *)
Definition div_rows (m : fmatrix) (v : list float64) : fmatrix :=
  Metrics.zip_with (fun row r => map (fun x => PrimFloat.div x r) row) m v.

(** [a * b], elementwise. *)
Definition mul_elem (a b : fmatrix) : fmatrix :=
  Metrics.zip_with (Metrics.zip_with PrimFloat.mul) a b.

(** [m ** 2]. *)
Definition square (m : fmatrix) : fmatrix :=
  map (map (fun x => PrimFloat.mul x x)) m.

Definition bcubed (ref_labels sys_labels : list Z)
           (cm : option Metrics.matrix)
  : result (float64 * float64 * float64) :=
  cm <- Metrics.get_cm ref_labels sys_labels cm ;;
  let cm := astype_float cm in
  let cm_norm := div_scalar cm (msum cm) in
  let precision := msum (mul_elem cm_norm (div_cols cm (sum_axis0 cm))) in
  let recall := msum (mul_elem cm_norm (div_rows cm (sum_axis1 cm))) in
  let f1 := PrimFloat.div
              (PrimFloat.mul 2%float (PrimFloat.mul precision recall))
              (PrimFloat.add precision recall) in
  Ok (precision, recall, f1).

Definition goodman_kruskal_tau (ref_labels sys_labels : list Z)
           (cm : option Metrics.matrix) : result (float64 * float64) :=
  cm <- Metrics.get_cm ref_labels sys_labels cm ;;
  let cm := astype_float cm in
  let cm := div_scalar cm (msum cm) in
  let ref_marginals := sum_axis1 cm in
  let sys_marginals := sum_axis0 cm in
  (* Tau(ref, sys). *)
  let vy := PrimFloat.add
              (PrimFloat.sub
                 1%float
                 (fsum (map (fun x => PrimFloat.mul x x) sys_marginals)))
              EPS in
  let xy_term := sum_axis1 (square cm) in
  let vy_bar_x :=
    PrimFloat.sub 1%float
                  (fsum (Metrics.zip_with PrimFloat.div xy_term
                                          ref_marginals)) in
  let tau_ref_sys := PrimFloat.div (PrimFloat.sub vy vy_bar_x) vy in
  (* Tau(sys, ref). *)
  let vx := PrimFloat.add
              (PrimFloat.sub
                 1%float
                 (fsum (map (fun x => PrimFloat.mul x x) ref_marginals)))
              EPS in
  let yx_term := sum_axis0 (square cm) in
  let vx_bar_y :=
    PrimFloat.sub 1%float
                  (fsum (Metrics.zip_with PrimFloat.div yx_term
                                          sys_marginals)) in
  let tau_sys_ref := PrimFloat.div (PrimFloat.sub vx vx_bar_y) vx in
  Ok (tau_ref_sys, tau_sys_ref).

End Metrics64.

(** ** scorelib/score.py: reading the files and scoring *)

Module ScoreLib.

Import Score Metrics.

Section RttmToTurns.

(** Python's [float] on a field of the file: the number that the field
    denotes, or a ValueError. *)
Variable float_of : string -> result Q.

(** [fields[k]]. *)
Definition field (fields : list string) (k : nat) : result string :=
  match nth_error fields k with
  | Some s => Ok s
  | None => Raise IndexError
  end.

(** The body of the loop of [rttm_to_turns] on the fields of one line, up
    to the turn that the line gives to its recording. *)
Definition parse_line (fields : list string) : result (string * Turn) :=
  rec_id <- field fields 1 ;;
  onset <- (s <- field fields 3 ;; float_of s) ;;
  dur <- (s <- field fields 4 ;; float_of s) ;;
  let offset := (onset + dur)%Q in
  speaker_id <- field fields 7 ;;
  Ok (rec_id, mkTurn speaker_id onset offset).

(** [rec_id_to_turns[rec_id].append(turn)] on a [defaultdict(list)]: a key
    that is new comes last, with the turn as its only one. *)
Fixpoint append_turn (rec_id : string) (turn : Turn) (d : rttm) : rttm :=
  match d with
  | [] => [(rec_id, [turn])]
  | (k, v) :: t =>
      if String.eqb rec_id k then (k, v ++ [turn]) :: t
      else (k, v) :: append_turn rec_id turn t
  end.

(** The loop [for line in f], from the dictionary [d] on. *)
Fixpoint read_lines (lines : list (list string)) (d : rttm) : result rttm :=
  match lines with
  | [] => Ok d
  | fields :: rest =>
      p <- parse_line fields ;;
      read_lines rest (append_turn (fst p) (snd p) d)
  end.

(** [rttm_to_turns], from the lines of the file, each one given by its
    fields [line.strip().decode(enc).split()]. *)
Definition rttm_to_turns (lines : list (list string)) : result rttm :=
  read_lines lines [].

End RttmToTurns.

Section Scoring.

(** The run of the NIST tool [md-eval] on the two files, for a collar and
    for the flag that leaves overlapped speech out. *)
Variable md_eval : Q -> bool -> result float.

(** [metrics.der(ref_rttm_fn, sys_rttm_fn, collar, ignore_overlaps)]. *)
Definition der (collar : Q) (ignore_overlaps : bool) : result float :=
  md_eval collar ignore_overlaps.

(** [score(ref_rttm_fn, sys_rttm_fn, collar, ignore_overlaps, step, nats)],
    from the two parsed files.  The source calls [metrics.der] with the two
    file names only, that is, with the defaults [collar=0.250] and
    [ignore_overlaps=True] of [der]. *)
Definition score (ref sys : rttm) (collar : Q) (ignore_overlaps : bool)
           (step : Q) (nats : bool)
  : result (float * float * float * float * float * float * float * float
            * float) :=
  der_ <- der (1 # 4)%Q true ;;
  ls <- rttms_to_frames ref sys step ;;
  r <- contingency_matrix (fst ls) (snd ls) ;;
  let cm := fst (fst r) in
  b <- bcubed [] [] (Some cm) ;;
  t <- goodman_kruskal_tau [] [] (Some cm) ;;
  ce <- conditional_entropy [] [] (Some cm) nats ;;
  m <- mutual_information [] [] (Some cm) nats ;;
  Ok (der_, fst (fst b), snd (fst b), snd b, fst t, snd t, ce, fst m, snd m).

End Scoring.

End ScoreLib.

(** ** score_batch.py *)

Module ScoreBatch.

(** [s.split(sep)] for a separator of one character. *)
Fixpoint split (sep : ascii) (s : string) : list string :=
  match s with
  | EmptyString => [EmptyString]
  | String c s' =>
      if Ascii.eqb c sep then EmptyString :: split sep s'
      else match split sep s' with
           | [] => [String c EmptyString]
           | p :: ps => String c p :: ps
           end
  end.

(** The row that [_score_recordings] builds for a recording: [[fid]]
    extended by the nine values that [score] returns, each one as [str]
    prints it. *)
Definition row_of (fid : string)
           (scores : string * string * string * string * string * string
                     * string * string * string) : list string :=
  let '(der, bp, br, bf, t1, t2, ce, mi, nmi) := scores in
  fid :: [der; bp; br; bf; t1; t2; ce; mi; nmi].

(** [parse_additional_columns(spec_str)]. *)
Definition parse_additional_columns (spec_str : string)
  : list (list string) :=
  if String.eqb spec_str "" then []
  else map (split "="%char) (split ";"%char spec_str).

(** The unpacking [col_name, val] of one element of
    [additional_columns]. *)
Definition unpack (item : list string) : result (string * string) :=
  match item with
  | [col_name; val] => Ok (col_name, val)
  | _ => Raise ValueError
  end.

(** [[f(col_name, val) for col_name, val in additional_columns]]. *)
Fixpoint unpack_all (additional_columns : list (list string))
  : result (list (string * string)) :=
  match additional_columns with
  | [] => Ok []
  | item :: rest =>
      p <- unpack item ;;
      ps <- unpack_all rest ;;
      Ok (p :: ps)
  end.

(** The names of the score columns. *)
Definition col_names : list string :=
  ["DER"; "B3Precision"; "B3Recall"; "B3F1"; "TauRefSys"; "TauSysRef";
   "CE"; "MI"; "NMI"]%string.

(** The lists of values that [write_dataframe] hands to [write_line], the
    header first; the values of the rows are given as [str] prints them. *)
Definition dataframe_lines (rows : list (list string))
           (additional_columns : list (list string))
  : result (list (list string)) :=
  cols <- unpack_all additional_columns ;;
  Ok ((col_names ++ map fst cols)
        :: map (fun row => row ++ map snd cols) rows).

(** [write_line(vals)]: the values joined by tabs and ended by a newline. *)
Definition write_line (vals : list string) : string :=
  (String.concat (String (ascii_of_nat 9) "") vals
   ++ String (ascii_of_nat 10) "")%string.

(** [write_dataframe(fn, rows, additional_columns)]: the lines written to
    the file. *)
Definition write_dataframe (rows : list (list string))
           (additional_columns : list (list string))
  : result (list string) :=
  ls <- dataframe_lines rows additional_columns ;;
  Ok (map write_line ls).

Section ScoreRecordings.

(** [os.path.exists] and [os.path.join] on the file system of the run, and
    [scorelib.score.score] on two file names with its collar, overlap flag,
    step and unit, the nine scores as [str] prints them. *)
Variable path_exists : string -> bool.
Variable path_join : string -> string -> string.
Variable score :
  string -> string -> Q -> bool -> Q -> bool ->
  result (string * string * string * string * string * string * string
          * string * string).

(** [_score_recordings(args)]: the row of a recording, [None] when it is
    skipped.  The source tests the reference file twice and calls [score]
    with the two file names only. *)
Definition _score_recordings (args : string * string * string * Q * bool * Q)
  : result (option (list string)) :=
  let '(fid, ref_rttm_dir, sys_rttm_dir, collar, ignore_overlaps, step) :=
    args in
  let ref_rttm_fn := path_join ref_rttm_dir (fid ++ ".rttm")%string in
  let sys_rttm_fn := path_join sys_rttm_dir (fid ++ ".rttm")%string in
  let fail := false in
  let fail := if negb (path_exists ref_rttm_fn) then true else fail in
  let fail := if negb (path_exists ref_rttm_fn) then true else fail in
  if fail then Ok None
  else
    s <- score ref_rttm_fn sys_rttm_fn (1 # 4)%Q true (1 # 100)%Q false ;;
    Ok (Some (row_of fid s)).

(** [[_score_recordings(args) for args in args_gen()]]; [Pool.map] gives
    the same list. *)
Fixpoint score_each (args : list (string * string * string * Q * bool * Q))
  : result (list (option (list string))) :=
  match args with
  | [] => Ok []
  | a :: rest =>
      r <- _score_recordings a ;;
      rs <- score_each rest ;;
      Ok (r :: rs)
  end.

(** [score_recordings(fids, ref_rttm_dir, sys_rttm_dir, collar,
    ignore_overlaps, step, n_jobs)]. *)
Definition score_recordings (fids : list string)
           (ref_rttm_dir sys_rttm_dir : string) (collar : Q)
           (ignore_overlaps : bool) (step : Q)
  : result (list (list string)) :=
  rows <- score_each
            (map (fun fid => (fid, ref_rttm_dir, sys_rttm_dir, collar,
                              ignore_overlaps, step)) fids) ;;
  Ok (flat_map (fun row => match row with
                           | Some (x :: r) => [x :: r]
                           | _ => []
                           end) rows).

End ScoreRecordings.

End ScoreBatch.

(** * Auxiliary definitions of the statements *)

Module FrameSpec.

Import Score.

(** Row [i] of the matrix once every turn has been marked: the loop over the
    turns, seen from one frame. *)
Fixpoint marked_row (bis eis inds : list nat) (i : nat) (row : list bool)
  : list bool :=
  match bis, eis, inds with
  | bi :: bis', ei :: eis', k :: inds' =>
      marked_row bis' eis' inds' i
        (if (bi <=? i) && (i <? ei) then set_true k row else row)
  | _, _, _ => row
  end.

(** The row of [presence] for frame [i]. *)
Definition frame_row (turns : list Turn) (n_frames : nat) (step : Q)
           (i : nat) : list bool :=
  let times := Np.arange_times step n_frames in
  fill_row
    (marked_row (map (Np.searchsorted times) (map onset turns))
                (map (Np.searchsorted times) (map offset turns))
                (snd (Np.unique_inverse String.compare
                        (map speaker_id turns)))
                i (repeat false (List.length (classes_of turns)))).

(** The number of frame-boundary times strictly below [v]. *)
Definition count_lt (times : list Q) (v : Q) : nat :=
  List.length (filter (fun t => negb (Qle_bool v t)) times).

(** The index the specification words give: the number of frame-boundary
    times that are at most [v]. *)
Definition count_le (times : list Q) (v : Q) : nat :=
  List.length (filter (fun t => Qle_bool t v) times).

(** Frame [i] starts inside the turn: [onset <= step * i < offset]. *)
Definition covered (t : Turn) (step : Q) (i : nat) : bool :=
  Qle_bool (onset t) (step * inject_Z (Z.of_nat i))
  && negb (Qle_bool (offset t) (step * inject_Z (Z.of_nat i))).

(** The class number of a speaker in the labelling of [turns]. *)
Definition class_index (turns : list Turn) (s : string) : nat :=
  Np.index_of String.compare s
    (Np.unique String.compare (map speaker_id turns)).


(** The powers of two as numbers: [2 ^ j] for [j < w]. *)
Definition pow2s (w : nat) : list Z :=
  map (fun j => 2 ^ Z.of_nat j)%Z (seq 0 w).

(** The code of a row: the sum of the entries of [ps] that the row selects,
    as a number. *)
Fixpoint code (ps : list Z) (row : list bool) : Z :=
  match ps, row with
  | p :: ps', b :: row' => ((if b then p else 0) + code ps' row')%Z
  | _, _ => 0%Z
  end.

(** The time of frame [i] in the array [times] of the labeler lies inside
    the turn: [onset <= times[i] < offset]. *)
Definition covered_at (times : list Q) (t : Turn) (i : nat) : bool :=
  Qle_bool (onset t) (nth i times 0%Q)
  && negb (Qle_bool (offset t) (nth i times 0%Q)).

(** [n] turns of [n] different speakers, each of length zero at time [v]:
    speakers that are listed and never heard. *)
Definition silent_turns (n : nat) (v : Q) : list Turn :=
  map (fun i => mkTurn (String (ascii_of_nat (48 + i)) EmptyString) v v)
      (seq 0 n).

(** The rational number that a finite binary64 number is. *)
Definition float_value (x : PrimFloat.float) : Q :=
  match Prim2SF x with
  | S754_finite s m e =>
      let a := if (0 <=? e)%Z then inject_Z (Zpos m * 2 ^ e)
               else (Zpos m # Z.to_pos (2 ^ (- e)))%Q in
      if s then (- a)%Q else a
  | _ => 0%Q
  end.

(** The strict order that [np.unique] sorts the speaker ids by. *)
Definition string_lt (a b : string) : Prop := String.compare a b = Lt.

(** The speakers of a recording: the sorted distinct speaker ids. *)
Definition speakers (turns : list Turn) : list string :=
  Np.unique String.compare (map speaker_id turns).

(** Speaker [s] has a turn that covers frame [i]. *)
Definition speaks (turns : list Turn) (step : Q) (i : nat) (s : string)
  : bool :=
  existsb (fun t => String.eqb (speaker_id t) s && covered t step i) turns.

(** The speakers heard at frame [i], in sorted order. *)
Definition active (turns : list Turn) (step : Q) (i : nat) : list string :=
  filter (speaks turns step i) (speakers turns).

(** The name of a set of speakers: the names joined by an underscore, and
    ['non-speech'] for the empty set. *)
Definition label_name (names : list string) : string :=
  match names with
  | [] => "non-speech"%string
  | _ => join names
  end.

End FrameSpec.

Module AlignSpec.

Import Score.

(** The evaluation window of a recording: [min(ref_dur, sys_dur)]. *)
Definition rec_dur (ref sys : rttm) (rec_id : string) : result Q :=
  ref_turns <- lookup rec_id ref ;;
  sys_turns <- lookup rec_id sys ;;
  ref_dur <- max_offset (map offset ref_turns) ;;
  sys_dur <- max_offset (map offset sys_turns) ;;
  Ok (qmin ref_dur sys_dur).

(** The labels of one recording in the stream [d], before any offset. *)
Definition frames_of (d ref sys : rttm) (step : Q) (rec_id : string)
  : result (list Z) :=
  turns <- lookup rec_id d ;;
  dur <- rec_dur ref sys rec_id ;;
  int_frames turns dur step.

(** The largest label among the first [k] arrays, 0 when there is none. *)
Definition running_max (chunks : list (list Z)) (k : nat) : Z :=
  fold_right Z.max 0%Z (List.concat (firstn k chunks)).

(** What the loop of [rttms_to_frames] maintains, [done] being the
    recordings already visited. *)
Definition aligned (ref sys : rttm) (step : Q) (done : list string)
           (st : acc) : Prop :=
  List.length (ref_labels st) = List.length done /\
  List.length (sys_labels st) = List.length done /\
  max_ref_label st = running_max (ref_labels st) (List.length done) /\
  max_sys_label st = running_max (sys_labels st) (List.length done) /\
  forall k rec_id,
    nth_error done k = Some rec_id ->
    exists rl sl,
      frames_of ref ref sys step rec_id = Ok rl /\
      frames_of sys ref sys step rec_id = Ok sl /\
      Forall (fun l => 1 <= l)%Z rl /\
      Forall (fun l => 1 <= l)%Z sl /\
      nth k (ref_labels st) [] =
        map (fun l => l + running_max (ref_labels st) k)%Z rl /\
      nth k (sys_labels st) [] =
        map (fun l => l + running_max (sys_labels st) k)%Z sl.

(** The dictionary [d] without the recordings whose id is not in [ids]. *)
Definition restrict (d : rttm) (ids : list string) : rttm :=
  filter (fun kv => existsb (String.eqb (fst kv)) ids) d.

(** [label_classes[l]] for the classes of [turns]: the name of an integer
    label. *)
Definition class_name (turns : list Turn) (l : Z) : string :=
  getitem (label_classes (classes_of turns)) l.

(** The turns of a recording of [d], none when [d] does not have it. *)
Definition turns_of (d : rttm) (rec_id : string) : list Turn :=
  match lookup rec_id d with
  | Ok turns => turns
  | Raise _ => []
  end.

(** The room that the labels of the recordings [ids] of [d] take: a
    recording with [k] speakers has the [k + 1] classes of its speakers and
    of non-speech, and its labels lie below [2 ^ (k + 1)]. *)
Definition label_room (d : rttm) (ids : list string) : Z :=
  fold_right
    (fun rec_id a =>
       (2 ^ Z.of_nat (List.length (classes_of (turns_of d rec_id))) + a)%Z)
    0%Z ids.

End AlignSpec.

Module MatrixSpec.

Import Metrics.

(** The entry [cm[i, j]]. *)
Definition cell (cm : matrix) (i j : nat) : nat := nth j (nth i cm []) 0.

(** [cm] has the shape [(nr, nc)]. *)
Definition rect (nr nc : nat) (cm : matrix) : Prop :=
  List.length cm = nr /\ Forall (fun row => List.length row = nc) cm.

(** The number of elements of [l] that pass the test [p]. *)
Definition count_if (A : Type) (p : A -> bool) (l : list A) : nat :=
  List.length (filter p l).

(** The number of frames labelled [a] in the reference and [b] in the
    system. *)
Definition co_occurrences (ref_labels sys_labels : list Z) (a b : Z) : nat :=
  count_if (fun p => Z.eqb (fst p) a && Z.eqb (snd p) b)
           (combine ref_labels sys_labels).

(** The matrix with the entries [f i j]. *)
Definition tabulate (A : Type) (nr nc : nat) (f : nat -> nat -> A)
  : list (list A) :=
  map (fun i => map (f i) (seq 0 nc)) (seq 0 nr).

(** The sum of [f 0 .. f (n-1)]. *)
Definition nsum (n : nat) (f : nat -> nat) : nat :=
  sum_nat (map f (seq 0 n)).

(** Every system class lies within one reference class: no column has two
    cells that are not zero. *)
Definition pure_columns (nr nc : nat) (cm : matrix) : Prop :=
  forall i i' j,
    i < nr -> i' < nr -> j < nc ->
    cell cm i j <> 0 -> cell cm i' j <> 0 -> i = i'.

(** Every reference class lies within one system class: no row has two
    cells that are not zero. *)
Definition pure_rows (nr nc : nat) (cm : matrix) : Prop :=
  forall i j j',
    i < nr -> j < nc -> j' < nc ->
    cell cm i j <> 0 -> cell cm i j' <> 0 -> j = j'.

End MatrixSpec.

Module BatchSpec.

(** The number of occurrences of the character [c] in [s]. *)
Fixpoint count_char (c : ascii) (s : string) : nat :=
  match s with
  | EmptyString => 0
  | String x s' => (if Ascii.eqb x c then 1 else 0) + count_char c s'
  end.

End BatchSpec.

Module RttmSpec.

Import Score ScoreLib.

(** The turns that the lines of a file give to the recording [rec_id], in
    the order of the lines. *)
Definition line_turns (float_of : string -> result Q) (rec_id : string)
           (lines : list (list string)) : list Turn :=
  flat_map (fun fields =>
              match parse_line float_of fields with
              | Ok p => if String.eqb (fst p) rec_id then [snd p] else []
              | Raise _ => []
              end) lines.

(** The turns of [rec_id] in the dictionary, none when the key is absent. *)
Definition entry (rec_id : string) (d : rttm) : list Turn :=
  match lookup rec_id d with
  | Ok v => v
  | Raise _ => []
  end.

End RttmSpec.

Module RealSpec.

(** The sum of [f 0 .. f (n-1)]. *)
Definition rsum (n : nat) (f : nat -> R) : R :=
  fold_right Rplus 0%R (map f (seq 0 n)).

(** The values of the metrics as real expressions over the cells
    [c i j] of a matrix of shape [(nr, nc)]. *)
Section Values.

Variable c : nat -> nat -> nat.
Variables nr nc : nat.

Definition cnt (i j : nat) : R := INR (c i j).
Definition total : R := rsum nr (fun i => rsum nc (cnt i)).
Definition rowsum (i : nat) : R := rsum nc (cnt i).
Definition colsum (j : nat) : R := rsum nr (fun i => cnt i j).

(** The normalized matrix and its marginals. *)
Definition prob (i j : nat) : R := (cnt i j / total)%R.
Definition rmarg (i : nat) : R := rsum nc (prob i).
Definition smarg (j : nat) : R := rsum nr (fun i => prob i j).

Definition precision_val : R :=
  rsum nr (fun i => rsum nc (fun j => prob i j * (cnt i j / colsum j)))%R.
Definition recall_val : R :=
  rsum nr (fun i => rsum nc (fun j => prob i j * (cnt i j / rowsum i)))%R.
Definition f1_val : R :=
  (2 * (precision_val * recall_val) / (precision_val + recall_val))%R.

Definition vy : R :=
  (1 - rsum nc (fun j => smarg j * smarg j) + Metrics.EPS)%R.
Definition vy_bar_x : R :=
  (1 - rsum nr (fun i => rsum nc (fun j => prob i j * prob i j) / rmarg i))%R.
Definition tau_ref_sys_val : R := ((vy - vy_bar_x) / vy)%R.

Definition vx : R :=
  (1 - rsum nr (fun i => rmarg i * rmarg i) + Metrics.EPS)%R.
Definition vx_bar_y : R :=
  (1 - rsum nc (fun j => rsum nr (fun i => prob i j * prob i j) / smarg j))%R.
Definition tau_sys_ref_val : R := ((vx - vx_bar_y) / vx)%R.

(** Conditional entropy, mutual information and the entropies of the
    marginals; a cell that is zero contributes nothing. *)
Definition ce_val (nats : bool) : R :=
  rsum nr (fun i => rsum nc (fun j =>
    if c i j =? 0 then 0
    else cnt i j / total
         * (Metrics.log nats (colsum j) - Metrics.log nats (cnt i j)
            + Metrics.log nats total - Metrics.log nats total)))%R.

Definition mi_term (nats : bool) (i j : nat) : R :=
  if c i j =? 0 then 0%R
  else (cnt i j / total
        * (Metrics.log nats (cnt i j)
           - Metrics.log nats (rowsum i * colsum j)
           + Metrics.log nats total))%R.

Definition mi_val (nats : bool) : R :=
  rsum nr (fun i => rsum nc (mi_term nats i)).

Definition h_ref_val (nats : bool) : R :=
  (- rsum nr (fun i => rowsum i / total
                       * Metrics.log nats (rowsum i / total)))%R.

Definition h_sys_val (nats : bool) : R :=
  (- rsum nc (fun j => colsum j / total
                       * Metrics.log nats (colsum j / total)))%R.

Definition nmi_val (nats : bool) : R :=
  (mi_val nats / sqrt (h_ref_val nats * h_sys_val nats + Metrics.EPS))%R.

End Values.

(** A square table that is zero off its diagonal. *)
Definition diagonal (c : nat -> nat -> nat) (n : nat) : Prop :=
  forall i j, i < n -> j < n -> i <> j -> c i j = 0.

(** The entropy of the class frequencies of a label sequence. *)
Definition label_entropy (nats : bool) (l : list Z) : R :=
  let u := Np.unique Z.compare l in
  (- rsum (List.length u)
       (fun i =>
          INR (MatrixSpec.count_if (Z.eqb (nth i u 0%Z)) l)
          / INR (List.length l)
          * Metrics.log nats
              (INR (MatrixSpec.count_if (Z.eqb (nth i u 0%Z)) l)
               / INR (List.length l))))%R.

(** The factor between [log] and the natural logarithm. *)
Definition log_k (nats : bool) : R := if nats then 1%R else (/ ln 2)%R.

(** The cells [c] of a table with at least one row, in which every row
    and every column has a positive sum. *)
Definition pos_marg (c : nat -> nat -> nat) (nr nc : nat) : Prop :=
  0 < nr /\
  (forall i, i < nr -> (0 < rowsum c nc i)%R) /\
  (forall j, j < nc -> (0 < colsum c nr j)%R).

(** The transposed table. *)
Definition transpose (c : nat -> nat -> nat) : nat -> nat -> nat :=
  fun j i => c i j.

(** A matrix of shape [(nr, nc)] with at least one row, in which every row
    and every column holds a frame. *)
Definition positive_marginals (nr nc : nat) (cm : Metrics.matrix) : Prop :=
  MatrixSpec.rect nr nc cm /\
  0 < nr /\
  Forall (fun s => 0 < s) (Metrics.isum_axis1 cm) /\
  Forall (fun s => 0 < s) (Metrics.isum_axis0 cm).

End RealSpec.

(** * Properties *)

(** ** The frame labeler *)

Section FrameLabeler.

Import Score FrameSpec.

Lemma length_set_true (k : nat) (row : list bool) :
  List.length (set_true k row) = List.length row.
Proof.
  revert k; induction row as [|b t IH]; intros [|k]; simpl; auto.
Qed.

Lemma existsb_set_true (k : nat) (row : list bool) :
  k < List.length row -> existsb (fun b => b) (set_true k row) = true.
Proof.
  revert k; induction row as [|b t IH]; intros [|k] Hk; simpl in *;
    try lia; auto.
  rewrite IH by lia. apply orb_true_r.
Qed.

Lemma nth_set_true (k j : nat) (row : list bool) :
  nth j (set_true k row) false =
  if (j =? k) && (k <? List.length row) then true else nth j row false.
Proof.
  revert k j; induction row as [|b t IH]; intros [|k] [|j]; simpl; auto.
  now rewrite andb_false_r.
Qed.

Lemma mark_from_map (f : nat -> list bool) (bi ei k n s : nat) :
  mark_from s bi ei k (map f (seq s n)) =
  map (fun i => if (bi <=? i) && (i <? ei) then set_true k (f i) else f i)
      (seq s n).
Proof.
  revert s; induction n as [|n IH]; intros s; simpl; [reflexivity|].
  now rewrite IH.
Qed.

Lemma mark_turns_map (bis eis inds : list nat) (f : nat -> list bool)
      (n : nat) :
  mark_turns bis eis inds (map f (seq 0 n)) =
  map (fun i => marked_row bis eis inds i (f i)) (seq 0 n).
Proof.
  revert eis inds f; induction bis as [|bi bis IH];
    intros [|ei eis] [|k inds] f; simpl; try reflexivity.
  unfold mark. rewrite mark_from_map. now rewrite IH.
Qed.

Lemma zeros_map (n w : nat) :
  zeros n w = map (fun _ => repeat false w) (seq 0 n).
Proof.
  unfold zeros. generalize 0 as s.
  induction n as [|n IH]; intros s; simpl; [reflexivity|].
  now rewrite <- IH.
Qed.

Lemma length_marked_row (bis eis inds : list nat) (i : nat)
      (row : list bool) :
  List.length (marked_row bis eis inds i row) = List.length row.
Proof.
  revert eis inds row; induction bis as [|bi bis IH];
    intros [|ei eis] [|k inds] row; simpl; try reflexivity.
  rewrite IH. destruct (_ && _); [apply length_set_true | reflexivity].
Qed.

Lemma length_fill_row (row : list bool) :
  List.length (fill_row row) = List.length row.
Proof.
  unfold fill_row. destruct (existsb _ row); [reflexivity|].
  apply length_set_true.
Qed.

Lemma fill_row_any (row : list bool) :
  1 <= List.length row -> existsb (fun b => b) (fill_row row) = true.
Proof.
  intros H. unfold fill_row. destruct (existsb _ row) eqn:E; [exact E|].
  apply existsb_set_true. lia.
Qed.

Lemma presence_rows (turns : list Turn) (n_frames : nat) (step : Q) :
  presence turns n_frames step =
  map (frame_row turns n_frames step) (seq 0 n_frames).
Proof.
  unfold presence, frame_row, classes_of, Np.unique_inverse, fill_nil.
  rewrite zeros_map, mark_turns_map, map_map. reflexivity.
Qed.

Lemma length_classes_of (turns : list Turn) :
  1 <= List.length (classes_of turns).
Proof.
  unfold classes_of. rewrite length_app. simpl. lia.
Qed.

Lemma length_frame_row (turns : list Turn) (n : nat) (step : Q) (i : nat) :
  List.length (frame_row turns n step i) = List.length (classes_of turns).
Proof.
  unfold frame_row. cbv zeta.
  rewrite length_fill_row, length_marked_row. apply repeat_length.
Qed.

Lemma frame_row_any (turns : list Turn) (n : nat) (step : Q) (i : nat) :
  existsb (fun b => b) (frame_row turns n step i) = true.
Proof.
  unfold frame_row. cbv zeta. apply fill_row_any.
  rewrite length_marked_row, repeat_length. apply length_classes_of.
Qed.

Lemma code_nonneg (ps : list Z) (row : list bool) :
  Forall (fun p => 0 <= p)%Z ps -> (0 <= code ps row)%Z.
Proof.
  intros H; revert row; induction H as [|p ps Hp _ IH];
    intros [|b row]; simpl; try lia.
  specialize (IH row). destruct b; lia.
Qed.

Lemma code_pos (ps : list Z) (row : list bool) :
  Forall (fun p => 1 <= p)%Z ps ->
  List.length ps = List.length row ->
  existsb (fun b => b) row = true ->
  (1 <= code ps row)%Z.
Proof.
  intros H; revert row; induction H as [|p ps Hp Hps IH];
    intros [|b row] Hlen Hex; simpl in *; try discriminate.
  assert (Hnn : (0 <= code ps row)%Z).
  { apply code_nonneg. eapply Forall_impl; [|exact Hps].
    simpl; intros; lia. }
  destruct b; simpl in Hex; [lia|].
  specialize (IH row ltac:(lia) Hex). lia.
Qed.

Lemma pow2s_pos (w : nat) : Forall (fun p => 1 <= p)%Z (pow2s w).
Proof.
  unfold pow2s. apply Forall_forall. intros p Hp.
  apply in_map_iff in Hp as (j & <- & _).
  pose proof (Z.pow_pos_nonneg 2 (Z.of_nat j)). lia.
Qed.

Lemma length_pow2s (w : nat) : List.length (pow2s w) = w.
Proof. unfold pow2s. now rewrite length_map, length_seq. Qed.

Lemma length_pows (w : nat) : List.length (Np.pows w) = w.
Proof. unfold Np.pows. now rewrite length_map, length_seq. Qed.

Lemma int_div_nonneg (dur step : Q) :
  (0 < step)%Q -> (0 <= dur)%Q ->
  exists n, int_div dur step = Ok n /\ (0 <= n)%Z.
Proof.
  intros Hs Hd. unfold int_div.
  destruct (Qeq_bool step 0) eqn:E.
  - apply Qeq_bool_iff in E. rewrite E in Hs. now apply Qlt_irrefl in Hs.
  - eexists; split; [reflexivity|].
    assert (Hq : (0 <= dur / step)%Q).
    { apply Qle_shift_div_l; [exact Hs|]. now rewrite Qmult_0_l. }
    destruct (dur / step)%Q as [a b]. unfold Qle in Hq. simpl in *.
    apply Z.quot_pos; lia.
Qed.

(** *** [searchsorted] on the frame-boundary times *)

Lemma filter_none (A : Type) (p : A -> bool) (l : list A) :
  (forall x, In x l -> p x = false) -> filter p l = [].
Proof.
  induction l as [|x l IH]; intros H; simpl; [reflexivity|].
  rewrite (H x) by now left. apply IH. intros y Hy. apply H. now right.
Qed.

Section Searchsorted.

Variable f : nat -> Q.
Hypothesis f_mono : forall i j, i <= j -> (f i <= f j)%Q.

Lemma searchsorted_le_iff (v : Q) (n s i : nat) :
  i < n ->
  (Np.searchsorted (map f (seq s n)) v <= i <-> (v <= f (s + i))%Q).
Proof.
  revert s i; induction n as [|n IH]; intros s i Hi; [lia|].
  simpl. destruct (Qle_bool v (f s)) eqn:E.
  - apply Qle_bool_iff in E. split; [intros _|lia].
    eapply Qle_trans; [exact E|]. apply f_mono. lia.
  - assert (Hn : ~ (v <= f s)%Q).
    { intros H. apply Qle_bool_iff in H. congruence. }
    destruct i as [|i].
    + rewrite Nat.add_0_r. split; [lia|tauto].
    + rewrite <- Nat.add_succ_comm, <- (IH (S s) i) by lia. lia.
Qed.

Lemma searchsorted_count_lt (v : Q) (n s : nat) :
  Np.searchsorted (map f (seq s n)) v = count_lt (map f (seq s n)) v.
Proof.
  unfold count_lt. revert s; induction n as [|n IH]; intros s;
    [reflexivity|].
  simpl. destruct (Qle_bool v (f s)) eqn:E; simpl.
  - rewrite filter_none; [reflexivity|].
    intros x Hx. apply in_map_iff in Hx as (j & <- & Hj).
    apply in_seq in Hj. apply negb_false_iff, Qle_bool_iff.
    apply Qle_bool_iff in E. eapply Qle_trans; [exact E|].
    apply f_mono. lia.
  - now rewrite IH.
Qed.

End Searchsorted.

Lemma arange_mono (step : Q) :
  (0 < step)%Q ->
  forall i j, i <= j ->
    (step * inject_Z (Z.of_nat i) <= step * inject_Z (Z.of_nat j))%Q.
Proof.
  intros Hs i j Hij. apply Qmult_le_l; [exact Hs|].
  rewrite <- Zle_Qle. lia.
Qed.

Lemma searchsorted_arange (step v : Q) (n : nat) :
  (0 < step)%Q ->
  Np.searchsorted (Np.arange_times step n) v =
  count_lt (Np.arange_times step n) v.
Proof.
  intros Hs. unfold Np.arange_times.
  apply (searchsorted_count_lt _ (arange_mono Hs)).
Qed.

(** For a frame [i], being inside the index range of a turn is being
    covered by it. *)
Lemma in_range_covered (t : Turn) (step : Q) (n i : nat) :
  (0 < step)%Q -> i < n ->
  (Np.searchsorted (Np.arange_times step n) (onset t) <=? i)
  && (i <? Np.searchsorted (Np.arange_times step n) (offset t))
  = covered t step i.
Proof.
  intros Hs Hi. unfold covered, Np.arange_times.
  pose proof (searchsorted_le_iff _ (arange_mono Hs) (onset t) 0 Hi) as H1.
  pose proof (searchsorted_le_iff _ (arange_mono Hs) (offset t) 0 Hi) as H2.
  simpl in H1, H2. f_equal.
  - destruct (Nat.leb_spec (Np.searchsorted
        (map (fun i0 => (step * inject_Z (Z.of_nat i0))%Q) (seq 0 n))
        (onset t)) i) as [L|L];
      destruct (Qle_bool (onset t) (step * inject_Z (Z.of_nat i))) eqn:E;
      try reflexivity.
    + apply H1 in L. apply Qle_bool_iff in L. congruence.
    + apply Qle_bool_iff, H1 in E. lia.
  - destruct (Nat.ltb_spec i (Np.searchsorted
        (map (fun i0 => (step * inject_Z (Z.of_nat i0))%Q) (seq 0 n))
        (offset t))) as [L|L];
      destruct (Qle_bool (offset t) (step * inject_Z (Z.of_nat i))) eqn:E;
      try reflexivity.
    + apply Qle_bool_iff, H2 in E. lia.
    + apply H2 in L. apply Qle_bool_iff in L. congruence.
Qed.

(** *** The marking loop, cell by cell *)

Lemma mark_cell (bi ei k : nat) (X : list (list bool)) (i j : nat) :
  nth j (nth i (mark bi ei k X) []) false =
  if (bi <=? i) && (i <? ei) && (j =? k)
     && (k <? List.length (nth i X []))
  then true else nth j (nth i X []) false.
Proof.
  unfold mark.
  assert (G : forall s,
    nth i (mark_from s bi ei k X) [] =
    if (bi <=? s + i) && (s + i <? ei)
    then set_true k (nth i X []) else nth i X []).
  { revert i; induction X as [|row X IH]; intros i s; simpl.
    - destruct i; destruct (_ && _); reflexivity.
    - destruct i as [|i].
      + now rewrite Nat.add_0_r.
      + rewrite IH. now rewrite Nat.add_succ_comm. }
  rewrite (G 0). simpl.
  destruct ((bi <=? i) && (i <? ei)); simpl; [|reflexivity].
  apply nth_set_true.
Qed.

Lemma marked_row_cell (A : Type) (fb fe fk : A -> nat) (ts : list A)
      (i j : nat) (row : list bool) :
  j < List.length row ->
  nth j (marked_row (map fb ts) (map fe ts) (map fk ts) i row) false =
  nth j row false
  || existsb (fun t => (fk t =? j) && ((fb t <=? i) && (i <? fe t))) ts.
Proof.
  revert row; induction ts as [|t ts IH]; intros row Hj; simpl.
  - now rewrite orb_false_r.
  - rewrite IH.
    2:{ destruct (_ && _); [now rewrite length_set_true | exact Hj]. }
    destruct ((fb t <=? i) && (i <? fe t)) eqn:E.
    + rewrite nth_set_true, andb_true_r.
      destruct (Nat.eqb_spec j (fk t)) as [->|Hne].
      * rewrite Nat.eqb_refl.
        apply Nat.ltb_lt in Hj. rewrite Hj. simpl.
        now rewrite orb_true_r.
      * simpl. destruct (Nat.eqb_spec (fk t) j); [congruence|].
        reflexivity.
    + now rewrite andb_false_r.
Qed.

Lemma existsb_eq (A : Type) (p q : A -> bool) (l : list A) :
  (forall x, p x = q x) -> existsb p l = existsb q l.
Proof.
  intros H. induction l as [|x l IH]; simpl; [reflexivity|].
  now rewrite H, IH.
Qed.

Lemma nth_map_seq (A : Type) (g : nat -> A) (n i : nat) (d : A) :
  i < n -> nth i (map g (seq 0 n)) d = g i.
Proof.
  intros Hi.
  rewrite (nth_indep _ d (g 0)) by now rewrite length_map, length_seq.
  rewrite (map_nth g (seq 0 n) 0 i). now rewrite seq_nth.
Qed.

Lemma nth_fill_row (row : list bool) (j : nat) :
  S j < List.length row -> nth j (fill_row row) false = nth j row false.
Proof.
  intros Hj. unfold fill_row. destruct (existsb _ row); [reflexivity|].
  rewrite nth_set_true.
  destruct (Nat.eqb_spec j (pred (List.length row))); [lia|reflexivity].
Qed.

Lemma presence_cell (turns : list Turn) (n : nat) (step : Q) (i j : nat) :
  (0 < step)%Q ->
  i < n ->
  j < List.length (Np.unique String.compare (map speaker_id turns)) ->
  nth j (nth i (presence turns n step) []) false =
  existsb (fun t => (class_index turns (speaker_id t) =? j)
                    && ((count_lt (Np.arange_times step n) (onset t) <=? i)
                        && (i <? count_lt (Np.arange_times step n)
                                          (offset t))))
          turns.
Proof.
  intros Hs Hi Hj. rewrite presence_rows, nth_map_seq by exact Hi.
  unfold frame_row, Np.unique_inverse. cbv zeta. simpl snd.
  rewrite !map_map.
  assert (Hw : List.length (classes_of turns) =
               S (List.length (Np.unique String.compare
                                 (map speaker_id turns)))).
  { unfold classes_of. rewrite length_app. simpl. lia. }
  rewrite nth_fill_row by (rewrite length_marked_row, repeat_length; lia).
  rewrite (marked_row_cell
             (fun t => Np.searchsorted (Np.arange_times step n) (onset t))
             (fun t => Np.searchsorted (Np.arange_times step n) (offset t))
             (fun t => Np.index_of String.compare (speaker_id t)
                         (Np.unique String.compare (map speaker_id turns))))
    by (rewrite repeat_length; lia).
  rewrite nth_repeat. simpl. apply existsb_eq. intros t.
  now rewrite !searchsorted_arange by exact Hs.
Qed.

(** *** Two turns of two speakers *)

Lemma compare_refl (x : string) : String.compare x x = Eq.
Proof.
  pose proof (String.compare_antisym x x) as H.
  destruct (String.compare x x); simpl in H; congruence.
Qed.



End FrameLabeler.

(** ** Labels as int64 *)

Unset Implicit Arguments.

Section Int64Labels.

Import Score FrameSpec.

Lemma wrap64_small (z : Z) :
  (- 2 ^ 63 <= z < 2 ^ 63)%Z -> Np.wrap64 z = z.
Proof.
  intros H. unfold Np.wrap64.
  rewrite Z.mod_small; lia.
Qed.

Lemma wrap64_range (z : Z) : (- 2 ^ 63 <= Np.wrap64 z < 2 ^ 63)%Z.
Proof.
  unfold Np.wrap64.
  pose proof (Z.mod_pos_bound (z + 2 ^ 63) (2 ^ 64) ltac:(lia)) as H.
  lia.
Qed.

(** Up to 63 powers of two fit into an int64. *)
Lemma pows_exact (w : nat) : w <= 63 -> Np.pows w = pow2s w.
Proof.
  intros Hw. unfold Np.pows, pow2s. apply map_ext_in. intros j Hj.
  apply in_seq in Hj. apply wrap64_small.
  pose proof (Z.pow_pos_nonneg 2 (Z.of_nat j) ltac:(lia) ltac:(lia)).
  assert (2 ^ Z.of_nat j <= 2 ^ 62)%Z by (apply Z.pow_le_mono_r; lia).
  lia.
Qed.

Lemma pow2s_S (w : nat) :
  pow2s (S w) = 1%Z :: map (Z.mul 2) (pow2s w).
Proof.
  unfold pow2s. cbn [seq map]. f_equal.
  rewrite <- (seq_shift w 0), !map_map. apply map_ext. intros j.
  rewrite Nat2Z.inj_succ, Z.pow_succ_r by lia. reflexivity.
Qed.

Lemma code_double (ps : list Z) (row : list bool) :
  code (map (Z.mul 2) ps) row = (2 * code ps row)%Z.
Proof.
  revert row; induction ps as [|p ps IH]; intros [|b row];
    cbn [code map]; try reflexivity.
  rewrite IH. destruct b; lia.
Qed.

Lemma code_cons (w : nat) (b : bool) (row : list bool) :
  code (pow2s (S w)) (b :: row) =
  (2 * code (pow2s w) row + Z.b2z b)%Z.
Proof.
  rewrite pow2s_S. cbn [code]. rewrite code_double.
  destruct b; cbn [Z.b2z]; lia.
Qed.

Lemma code_nil (ps : list Z) : code ps [] = 0%Z.
Proof. destruct ps; reflexivity. Qed.

(** The bits of the code are the entries of the row. *)
Lemma code_testbit (row : list bool) :
  forall w j,
    List.length row = w ->
    Z.testbit (code (pow2s w) row) (Z.of_nat j) = nth j row false.
Proof.
  induction row as [|b row IH]; intros w j Hw.
  - rewrite code_nil, Z.testbit_0_l. now destruct j.
  - destruct w as [|w]; [discriminate|]. rewrite code_cons.
    destruct j as [|j].
    + apply Z.testbit_0_r.
    + rewrite Nat2Z.inj_succ, Z.testbit_succ_r by lia.
      apply IH. simpl in Hw. lia.
Qed.

Lemma code_bounds (row : list bool) :
  forall w,
    List.length row = w ->
    (0 <= code (pow2s w) row < 2 ^ Z.of_nat w)%Z.
Proof.
  induction row as [|b row IH]; intros w Hw.
  - rewrite code_nil. pose proof (Z.pow_pos_nonneg 2 (Z.of_nat w)). lia.
  - destruct w as [|w]; [discriminate|]. rewrite code_cons.
    rewrite Nat2Z.inj_succ, Z.pow_succ_r by lia.
    specialize (IH w ltac:(simpl in Hw; lia)).
    destruct b; cbn [Z.b2z]; lia.
Qed.



(** The sum of the first [w] powers of two. *)
Lemma sum_pow2s (w : nat) :
  fold_right Z.add 0%Z (pow2s w) = (2 ^ Z.of_nat w - 1)%Z.
Proof.
  induction w as [|w IH]; [reflexivity|].
  rewrite pow2s_S. cbn [fold_right].
  assert (D : forall l, fold_right Z.add 0%Z (map (Z.mul 2) l) =
                        (2 * fold_right Z.add 0%Z l)%Z).
  { induction l as [|x l IHl]; cbn [map fold_right]; [reflexivity|].
    rewrite IHl. lia. }
  rewrite D, IH, Nat2Z.inj_succ, Z.pow_succ_r by lia. lia.
Qed.

Lemma code_le_sum (ps : list Z) (row : list bool) :
  Forall (fun p => 0 <= p)%Z ps ->
  (0 <= code ps row <= fold_right Z.add 0%Z ps)%Z.
Proof.
  intros H; revert row; induction H as [|p ps Hp Hps IH]; intros [|b row];
    cbn [code fold_right]; try lia.
  - assert (0 <= fold_right Z.add 0%Z ps)%Z by (specialize (IH []); lia).
    lia.
  - specialize (IH row). destruct b; lia.
Qed.

(** As long as the sum of the weights fits into an int64, nothing wraps
    around and the label of a row is its code. *)
Lemma row_label_code (ps : list Z) (row : list bool) :
  Forall (fun p => 0 <= p)%Z ps ->
  (fold_right Z.add 0%Z ps < 2 ^ 63)%Z ->
  row_label ps row = code ps row.
Proof.
  intros H; revert row; induction H as [|p ps Hp Hps IH]; intros row Hsum;
    destruct row as [|b row]; cbn [row_label code]; try reflexivity.
  cbn [fold_right] in Hsum.
  pose proof (@code_le_sum ps row Hps) as Hc.
  rewrite IH by lia. apply wrap64_small. destruct b; lia.
Qed.

(** With at most 63 classes (62 speakers and non-speech) the labels of the
    source are the codes of the rows. *)
Lemma row_label_exact (w : nat) (row : list bool) :
  w <= 63 -> row_label (Np.pows w) row = code (pow2s w) row.
Proof.
  intros Hw. rewrite pows_exact by exact Hw. apply row_label_code.
  - eapply Forall_impl; [|apply pow2s_pos]. simpl. intros; lia.
  - rewrite sum_pow2s.
    assert (2 ^ Z.of_nat w <= 2 ^ 63)%Z by (apply Z.pow_le_mono_r; lia).
    lia.
Qed.

(** Whatever the number of classes, a label is an int64. *)
Lemma row_label_int64 (ps : list Z) (row : list bool) :
  (- 2 ^ 63 <= row_label ps row < 2 ^ 63)%Z.
Proof.
  destruct ps as [|p ps], row as [|b row]; cbn [row_label]; try lia.
  apply wrap64_range.
Qed.

End Int64Labels.

Set Implicit Arguments.

Section FrameLabelerShared.

Import Score FrameSpec.

Lemma length_classes_of_speakers (turns : list Turn) :
  List.length (classes_of turns) = S (List.length (speakers turns)).
Proof.
  unfold classes_of, speakers. rewrite length_app. simpl. lia.
Qed.

(** With at most 63 classes the labels of the rows of [presence] are their
    codes. *)
Lemma presence_labels_exact (turns : list Turn) (n : nat) (step : Q) :
  List.length (classes_of turns) <= 63 ->
  map (row_label (Np.pows (List.length (classes_of turns))))
      (presence turns n step) =
  map (code (pow2s (List.length (classes_of turns))))
      (presence turns n step).
Proof.
  intros Hw. apply map_ext. intros row. now apply row_label_exact.
Qed.

Lemma presence_codes_range (turns : list Turn) (n : nat) (step : Q) :
  Forall (fun l => 1 <= l < 2 ^ Z.of_nat (List.length (classes_of turns)))%Z
         (map (code (pow2s (List.length (classes_of turns))))
              (presence turns n step)).
Proof.
  rewrite presence_rows, map_map. apply Forall_forall. intros l Hl.
  apply in_map_iff in Hl as (i & <- & _). split.
  - apply code_pos.
    + apply pow2s_pos.
    + now rewrite length_pow2s, length_frame_row.
    + apply frame_row_any.
  - apply code_bounds, length_frame_row.
Qed.

Lemma presence_labels_pos (turns : list Turn) (n : nat) (step : Q) :
  List.length (classes_of turns) <= 63 ->
  Forall (fun l => 1 <= l < 2 ^ Z.of_nat (List.length (classes_of turns)))%Z
         (map (row_label (Np.pows (List.length (classes_of turns))))
              (presence turns n step)).
Proof.
  intros Hw. rewrite presence_labels_exact by exact Hw.
  apply presence_codes_range.
Qed.

Lemma int_frames_range (turns : list Turn) (dur step : Q) (ls : list Z) :
  List.length (classes_of turns) <= 63 ->
  int_frames turns dur step = Ok ls ->
  Forall (fun l => 1 <= l < 2 ^ Z.of_nat (List.length (classes_of turns)))%Z
         ls.
Proof.
  intros Hw. unfold int_frames, turns_to_frames. cbn [resolve_dur bind].
  destruct (int_div dur step) as [n|e]; cbn [bind]; [|discriminate].
  destruct (n <? 0)%Z; cbn [bind]; [discriminate|].
  intros H. injection H as <-. now apply presence_labels_pos.
Qed.

End FrameLabelerShared.

Section FrameLabelerClaims.

Import Score FrameSpec.




(** C2, as the code has it.  For every step > 0 the index that the frame
    labeler computes for a time [v] (an onset or an offset) is the number of
    frame-boundary times strictly below [v], and in the matrix of the labeler
    the column of a speaker is set at frame [i] exactly when [i] lies in the
    half-open range [begin_index, end_index) of one of that speaker's turns,
    with [begin_index] the number of boundaries strictly below the onset and
    [end_index] the number strictly below the offset. *)
Theorem turn_frame_range (turns : list Turn) (step : Q) (n : nat) :
  (0 < step)%Q ->
  let times := Np.arange_times step n in
  (forall v, Np.searchsorted times v = count_lt times v) /\
  (forall i j,
      i < n ->
      j < List.length (Np.unique String.compare (map speaker_id turns)) ->
      nth j (nth i (presence turns n step) []) false =
      existsb (fun t => (class_index turns (speaker_id t) =? j)
                        && ((count_lt times (onset t) <=? i)
                            && (i <? count_lt times (offset t))))
              turns).
Proof.
  intros Hs times. split.
  - intros v. now apply searchsorted_arange.
  - intros i j Hi Hj. now apply presence_cell.
Qed.

Lemma turn_frame_range_witness :
  let turns := [mkTurn "A" 0%Q 1%Q] in
  let times := Np.arange_times 1%Q 2 in
  (forall v, Np.searchsorted times v = count_lt times v) /\
  (forall i j,
      i < 2 ->
      j < List.length (Np.unique String.compare (map speaker_id turns)) ->
      nth j (nth i (presence turns 2 1%Q) []) false =
      existsb (fun t => (class_index turns (speaker_id t) =? j)
                        && ((count_lt times (onset t) <=? i)
                            && (i <? count_lt times (offset t))))
              turns).
Proof.
  apply (@turn_frame_range [mkTurn "A" 0%Q 1%Q] 1%Q 2). reflexivity.
Defined.

(** C2, as the specification words it, fails: for the turn (A, 0, 1) in a
    recording of two frames of one second, one boundary is at most the onset
    and two are at most the offset, which would give the range [1, 2); the
    labeler marks frame 0 and leaves frame 1 to non-speech. *)
Lemma turn_frame_range_counterexample :
  let t := mkTurn "A" 0%Q 1%Q in
  let times := Np.arange_times 1%Q 2 in
  count_le times (onset t) = 1 /\
  count_le times (offset t) = 2 /\
  Np.searchsorted times (onset t) = 0 /\
  Np.searchsorted times (offset t) = 1 /\
  presence [t] 2 1%Q = [[true; false]; [false; true]] /\
  ~ (forall (turn : Turn) (step : Q) (n : nat),
        (0 < step)%Q ->
        Np.searchsorted (Np.arange_times step n) (onset turn) =
        count_le (Np.arange_times step n) (onset turn) /\
        Np.searchsorted (Np.arange_times step n) (offset turn) =
        count_le (Np.arange_times step n) (offset turn)).
Proof.
  repeat split; try reflexivity.
  intros H.
  destruct (H (mkTurn "A" 0%Q 1%Q) 1%Q 2 eq_refl) as [H0 _].
  discriminate H0.
Qed.



End FrameLabelerClaims.

(** ** The multi-recording aligner *)

Section Aligner.

Import Score AlignSpec.


Lemma fold_max_nonneg (l : list Z) : (0 <= fold_right Z.max 0%Z l)%Z.
Proof. induction l as [|y l IH]; simpl; lia. Qed.

Lemma fold_max_app (l1 l2 : list Z) :
  fold_right Z.max 0%Z (l1 ++ l2) =
  Z.max (fold_right Z.max 0%Z l1) (fold_right Z.max 0%Z l2).
Proof.
  induction l1 as [|y l IH]; simpl.
  - pose proof (fold_max_nonneg l2). lia.
  - rewrite IH. lia.
Qed.

Lemma fold_left_max (l : list Z) (a : Z) :
  (0 <= a)%Z -> fold_left Z.max l a = Z.max a (fold_right Z.max 0%Z l).
Proof.
  revert a; induction l as [|y l IH]; intros a Ha; simpl; [lia|].
  rewrite IH by lia. lia.
Qed.

Lemma amax_fold (l : list Z) (m : Z) :
  Forall (fun x => 0 <= x)%Z l -> Np.amax l = Ok m ->
  m = fold_right Z.max 0%Z l.
Proof.
  destruct l as [|x t]; simpl; [discriminate|].
  intros H E. injection E as <-. inversion H; subst.
  now apply fold_left_max.
Qed.

Lemma fold_max_shift_gt (l : list Z) (m : Z) :
  (0 <= m)%Z -> l <> [] -> Forall (fun x => 1 <= x)%Z l ->
  (m < fold_right Z.max 0%Z (map (fun x => x + m) l))%Z.
Proof.
  intros Hm Hne H. destruct l as [|x t]; [congruence|].
  inversion H; subst. simpl. lia.
Qed.

Lemma running_max_app_le (chunks : list (list Z)) (c : list Z) (k : nat) :
  k <= List.length chunks ->
  running_max (chunks ++ [c]) k = running_max chunks k.
Proof.
  intros Hk. unfold running_max. rewrite firstn_app.
  replace (k - List.length chunks) with 0 by lia.
  simpl. now rewrite app_nil_r.
Qed.

Lemma running_max_app_all (chunks : list (list Z)) (c : list Z) :
  running_max (chunks ++ [c]) (S (List.length chunks)) =
  Z.max (running_max chunks (List.length chunks)) (fold_right Z.max 0%Z c).
Proof.
  unfold running_max. rewrite firstn_app, firstn_all2 by lia.
  replace (S (List.length chunks) - List.length chunks) with 1 by lia.
  rewrite firstn_all. simpl firstn. rewrite concat_app, fold_max_app.
  simpl. now rewrite app_nil_r.
Qed.

Lemma running_max_nonneg (chunks : list (list Z)) (k : nat) :
  (0 <= running_max chunks k)%Z.
Proof. apply fold_max_nonneg. Qed.

Lemma fold_max_le (l : list Z) (b : Z) :
  (0 <= b)%Z -> Forall (fun x => x <= b)%Z l ->
  (fold_right Z.max 0%Z l <= b)%Z.
Proof.
  intros Hb H. induction H as [|x l Hx _ IH]; simpl; lia.
Qed.

Lemma label_room_app (d : rttm) (a b : list string) :
  label_room d (a ++ b) = (label_room d a + label_room d b)%Z.
Proof.
  unfold label_room. induction a as [|x a IH]; cbn [app fold_right]; [lia|].
  rewrite IH. lia.
Qed.

Lemma label_room_nonneg (d : rttm) (ids : list string) :
  (0 <= label_room d ids)%Z.
Proof.
  unfold label_room. induction ids as [|x ids IH]; cbn [fold_right]; [lia|].
  pose proof (Z.pow_pos_nonneg
                2 (Z.of_nat (List.length (classes_of (turns_of d x))))).
  lia.
Qed.

Lemma label_room_last (d : rttm) (done : list string) (rec_id : string) :
  label_room d (done ++ [rec_id]) =
  (label_room d done
   + 2 ^ Z.of_nat (List.length (classes_of (turns_of d rec_id))))%Z.
Proof. rewrite label_room_app. unfold label_room. simpl. lia. Qed.

(** Labels below [2 ^ w] with [2 ^ w] at most [2 ^ 63] come from at most 63
    classes. *)
Lemma classes_fit (w : nat) (m : Z) :
  (0 <= m)%Z -> (m + 2 ^ Z.of_nat w <= 2 ^ 63)%Z -> w <= 63.
Proof.
  intros Hm H. destruct (Nat.le_gt_cases w 63) as [L|L]; [exact L|].
  assert (2 ^ 64 <= 2 ^ Z.of_nat w)%Z by (apply Z.pow_le_mono_r; lia).
  lia.
Qed.

(** Adding the running maximum stays within int64 as long as there is room
    for the labels of the recording. *)
Lemma shift_exact (w : nat) (m : Z) (l : list Z) :
  (0 <= m)%Z -> (m + 2 ^ Z.of_nat w <= 2 ^ 63)%Z ->
  Forall (fun x => 1 <= x < 2 ^ Z.of_nat w)%Z l ->
  map (fun x => Np.wrap64 (x + m)) l = map (fun x => x + m)%Z l.
Proof.
  intros Hm Hroom H. apply map_ext_in. intros x Hx.
  rewrite Forall_forall in H. specialize (H x Hx). simpl in H.
  apply wrap64_small. lia.
Qed.

(** One recording: the new arrays are the labels of the recording shifted by
    the maxima reached so far, and the new maxima are again the maxima over
    all arrays; this needs room in int64 for the labels of the recording
    above the maxima. *)
Lemma align_rec_spec (ref sys : rttm) (step : Q) (st st' : acc)
      (rec_id : string) :
  align_rec ref sys step st rec_id = Ok st' ->
  (0 <= max_ref_label st)%Z ->
  (0 <= max_sys_label st)%Z ->
  (max_ref_label st
   + 2 ^ Z.of_nat (List.length (classes_of (turns_of ref rec_id)))
   <= 2 ^ 63)%Z ->
  (max_sys_label st
   + 2 ^ Z.of_nat (List.length (classes_of (turns_of sys rec_id)))
   <= 2 ^ 63)%Z ->
  exists rl sl,
    frames_of ref ref sys step rec_id = Ok rl /\
    frames_of sys ref sys step rec_id = Ok sl /\
    Forall (fun l => 1 <= l)%Z rl /\
    Forall (fun l => 1 <= l)%Z sl /\
    rl <> [] /\ sl <> [] /\
    ref_labels st' =
      ref_labels st ++ [map (fun l => l + max_ref_label st)%Z rl] /\
    sys_labels st' =
      sys_labels st ++ [map (fun l => l + max_sys_label st)%Z sl] /\
    max_ref_label st' =
      fold_right Z.max 0%Z (map (fun l => l + max_ref_label st)%Z rl) /\
    max_sys_label st' =
      fold_right Z.max 0%Z (map (fun l => l + max_sys_label st)%Z sl) /\
    (max_ref_label st' <
     max_ref_label st
     + 2 ^ Z.of_nat (List.length (classes_of (turns_of ref rec_id))))%Z /\
    (max_sys_label st' <
     max_sys_label st
     + 2 ^ Z.of_nat (List.length (classes_of (turns_of sys rec_id))))%Z.
Proof.
  unfold align_rec, frames_of, rec_dur, turns_of. intros H Hr Hs Rr Rs.
  destruct (lookup rec_id ref) as [rt|]; cbn [bind] in *; [|discriminate].
  destruct (lookup rec_id sys) as [stn|]; cbn [bind] in *; [|discriminate].
  destruct (max_offset (map offset rt)) as [rd|]; cbn [bind] in *;
    [|discriminate].
  destruct (max_offset (map offset stn)) as [sd|]; cbn [bind] in *;
    [|discriminate].
  destruct (int_frames rt (qmin rd sd) step) as [rl|] eqn:Erl;
    cbn [bind] in *; [|discriminate].
  pose proof (int_frames_range _ _ _ (classes_fit _ Hr Rr) Erl) as Prl.
  rewrite (shift_exact _ Hr Rr Prl) in H.
  destruct (Np.amax (map (fun l => (l + max_ref_label st)%Z) rl))
    as [mr|] eqn:Emr; cbn [bind] in *; [|discriminate].
  destruct (int_frames stn (qmin rd sd) step) as [sl|] eqn:Esl;
    cbn [bind] in *; [|discriminate].
  pose proof (int_frames_range _ _ _ (classes_fit _ Hs Rs) Esl) as Psl.
  rewrite (shift_exact _ Hs Rs Psl) in H.
  destruct (Np.amax (map (fun l => (l + max_sys_label st)%Z) sl))
    as [ms|] eqn:Ems; cbn [bind] in *; [|discriminate].
  injection H as <-. simpl.
  assert (Amr : mr = fold_right Z.max 0%Z
                       (map (fun l => (l + max_ref_label st)%Z) rl)).
  { apply amax_fold; [|exact Emr]. apply Forall_forall.
    intros x Hx. apply in_map_iff in Hx as (y & <- & Hy).
    rewrite Forall_forall in Prl. specialize (Prl y Hy). simpl in Prl. lia. }
  assert (Ams : ms = fold_right Z.max 0%Z
                       (map (fun l => (l + max_sys_label st)%Z) sl)).
  { apply amax_fold; [|exact Ems]. apply Forall_forall.
    intros x Hx. apply in_map_iff in Hx as (y & <- & Hy).
    rewrite Forall_forall in Psl. specialize (Psl y Hy). simpl in Psl. lia. }
  exists rl, sl. repeat split; auto.
  - eapply Forall_impl; [|exact Prl]. simpl. intros; lia.
  - eapply Forall_impl; [|exact Psl]. simpl. intros; lia.
  - intros ->. discriminate Emr.
  - intros ->. discriminate Ems.
  - rewrite Amr.
    pose proof (Z.pow_pos_nonneg
                  2 (Z.of_nat (List.length (classes_of rt)))
                  ltac:(lia) ltac:(lia)) as Hp.
    enough (fold_right Z.max 0%Z (map (fun l => (l + max_ref_label st)%Z) rl)
            <= max_ref_label st
               + 2 ^ Z.of_nat (List.length (classes_of rt)) - 1)%Z by lia.
    apply fold_max_le; [lia|].
    apply Forall_forall. intros x Hx.
    apply in_map_iff in Hx as (y & <- & Hy).
    rewrite Forall_forall in Prl. specialize (Prl y Hy). simpl in Prl. lia.
  - rewrite Ams.
    pose proof (Z.pow_pos_nonneg
                  2 (Z.of_nat (List.length (classes_of stn)))
                  ltac:(lia) ltac:(lia)) as Hp.
    enough (fold_right Z.max 0%Z (map (fun l => (l + max_sys_label st)%Z) sl)
            <= max_sys_label st
               + 2 ^ Z.of_nat (List.length (classes_of stn)) - 1)%Z by lia.
    apply fold_max_le; [lia|].
    apply Forall_forall. intros x Hx.
    apply in_map_iff in Hx as (y & <- & Hy).
    rewrite Forall_forall in Psl. specialize (Psl y Hy). simpl in Psl. lia.
Qed.

Lemma aligned_init (ref sys : rttm) (step : Q) :
  aligned ref sys step [] acc0.
Proof.
  unfold aligned, acc0, running_max. simpl. repeat split; auto.
  intros [|k] rec_id H; discriminate H.
Qed.

Lemma aligned_step (ref sys : rttm) (step : Q) (done : list string)
      (st st' : acc) (rec_id : string) :
  aligned ref sys step done st ->
  (max_ref_label st <= label_room ref done)%Z ->
  (max_sys_label st <= label_room sys done)%Z ->
  (label_room ref (done ++ [rec_id]) <= 2 ^ 63)%Z ->
  (label_room sys (done ++ [rec_id]) <= 2 ^ 63)%Z ->
  align_rec ref sys step st rec_id = Ok st' ->
  aligned ref sys step (done ++ [rec_id]) st' /\
  (max_ref_label st' <= label_room ref (done ++ [rec_id]))%Z /\
  (max_sys_label st' <= label_room sys (done ++ [rec_id]))%Z.
Proof.
  intros (Lr & Ls & Mr & Ms & Hk) Br Bs Rr Rs Hrec.
  rewrite label_room_last in Rr, Rs |- *. rewrite label_room_last.
  destruct (align_rec_spec _ _ _ _ _ Hrec) as
    (rl & sl & Fr & Fs & Pr & Ps & Nr & Ns & Er & Es & Er' & Es' & Ur & Us).
  { rewrite Mr. apply running_max_nonneg. }
  { rewrite Ms. apply running_max_nonneg. }
  { lia. }
  { lia. }
  split; [|lia].
  unfold aligned. rewrite Er, Es, !length_app. simpl.
  repeat split; try lia.
  - rewrite Er', Nat.add_1_r, <- Lr, running_max_app_all, Lr, <- Mr.
    assert (G0 : (0 <= max_ref_label st)%Z)
      by (rewrite Mr; apply running_max_nonneg).
    pose proof (fold_max_shift_gt G0 Nr Pr). lia.
  - rewrite Es', Nat.add_1_r, <- Ls, running_max_app_all, Ls, <- Ms.
    assert (G0 : (0 <= max_sys_label st)%Z)
      by (rewrite Ms; apply running_max_nonneg).
    pose proof (fold_max_shift_gt G0 Ns Ps). lia.
  - intros k id Hid.
    destruct (Nat.lt_ge_cases k (List.length done)) as [Hlt|Hge].
    + rewrite nth_error_app1 in Hid by exact Hlt.
      destruct (Hk k id Hid) as (rl' & sl' & A & B & C & D & E & F).
      exists rl', sl'. repeat split; auto.
      * rewrite app_nth1, running_max_app_le by lia. exact E.
      * rewrite app_nth1, running_max_app_le by lia. exact F.
    + assert (k = List.length done) as ->.
      { assert (Hlt : k < List.length (done ++ [rec_id]))
          by (apply nth_error_Some; congruence).
        rewrite length_app in Hlt. simpl in Hlt. lia. }
      rewrite nth_error_app2, Nat.sub_diag in Hid by lia.
      injection Hid as <-.
      exists rl, sl. repeat split; auto.
      * rewrite <- Lr at 1. rewrite nth_middle.
        rewrite running_max_app_le by lia. now rewrite <- Mr.
      * rewrite <- Ls at 1. rewrite nth_middle.
        rewrite running_max_app_le by lia. now rewrite <- Ms.
Qed.

Lemma align_loop_aligned (ref sys : rttm) (step : Q) (ids : list string) :
  forall (done : list string) (st st' : acc),
    aligned ref sys step done st ->
    (max_ref_label st <= label_room ref done)%Z ->
    (max_sys_label st <= label_room sys done)%Z ->
    (label_room ref (done ++ ids) <= 2 ^ 63)%Z ->
    (label_room sys (done ++ ids) <= 2 ^ 63)%Z ->
    align_loop ref sys step ids st = Ok st' ->
    aligned ref sys step (done ++ ids) st'.
Proof.
  induction ids as [|id ids IH];
    intros done st st' Hinv Br Bs Rr Rs Hloop; simpl in *.
  - injection Hloop as <-. now rewrite app_nil_r.
  - destruct (align_rec ref sys step st id) as [st1|] eqn:E;
      cbn [bind] in Hloop; [|discriminate].
    replace (done ++ id :: ids) with ((done ++ [id]) ++ ids) in *
      by now rewrite <- app_assoc.
    pose proof (label_room_nonneg ref ids) as Nr.
    pose proof (label_room_nonneg sys ids) as Ns.
    destruct (@aligned_step ref sys step done st st1 id Hinv Br Bs)
      as (Hinv1 & Br1 & Bs1); try exact E.
    + rewrite label_room_app in Rr. lia.
    + rewrite label_room_app in Rs. lia.
    + eapply IH; eassumption.
Qed.




End Aligner.

Section AlignerClaims.

Import Score AlignSpec.




(** The aligners raise when no recording is common to the two files. *)
Lemma no_common_recording_raises (ref sys : rttm) (step : Q) :
  common_rec_ids ref sys = [] ->
  rttms_to_frames ref sys step = Raise ValueError /\
  ConfusionMatrix.rttms_to_frames ref sys step = Raise ValueError.
Proof.
  intros H. unfold rttms_to_frames, rttms_to_chunks,
    ConfusionMatrix.rttms_to_frames.
  rewrite H. split; reflexivity.
Qed.

(** The single-file aligner raises when several recordings are common. *)
Lemma several_common_recordings_raise (ref sys : rttm) (step : Q) :
  1 < List.length (common_rec_ids ref sys) ->
  ConfusionMatrix.rttms_to_frames ref sys step = Raise ValueError.
Proof.
  intros H. unfold ConfusionMatrix.rttms_to_frames.
  destruct (Nat.eqb_spec (List.length (common_rec_ids ref sys)) 1);
    [lia|reflexivity].
Qed.

(** C9, the failing inputs.  The reference file holds the recordings [a] and
    [b], the system file the recording [a] only: one recording is common,
    the guard [len(rec_ids) != 1] passes, and the single-file aligner returns
    labels.  When [b] comes first among the values of the reference
    dictionary, the reference labels are even those of [b], set against the
    system labels of [a]. *)
Lemma single_file_guard_misses :
  let ref_a := [mkTurn "S1" 0%Q 3%Q; mkTurn "S2" 2%Q 4%Q] in
  let ref_b := [mkTurn "S1" 0%Q 2%Q] in
  let sys_a := [mkTurn "Y" 0%Q 3%Q] in
  List.length (keys [("a"%string, ref_a); ("b"%string, ref_b)]) = 2 /\
  ConfusionMatrix.rttms_to_frames
    [("a"%string, ref_a); ("b"%string, ref_b)] [("a"%string, sys_a)] 1%Q =
  Ok (["S1"; "S1"; "S1_S2"]%string, ["Y"; "Y"; "Y"]%string) /\
  ConfusionMatrix.rttms_to_frames
    [("b"%string, ref_b); ("a"%string, ref_a)] [("a"%string, sys_a)] 1%Q =
  Ok (["S1"; "S1"]%string, ["Y"; "Y"]%string).
Proof. repeat split; reflexivity. Qed.

End AlignerClaims.

(** ** The contingency builder *)

Section Unique.

Lemma insert_sorted_In (x y : Z) (l : list Z) :
  In y (Np.insert_sorted Z.compare x l) <-> y = x \/ In y l.
Proof.
  induction l as [|z l IH]; simpl.
  - intuition.
  - destruct (Z.compare_spec x z) as [->|H|H]; simpl.
    + intuition.
    + intuition.
    + rewrite IH. intuition.
Qed.

Lemma unique_In (x : Z) (l : list Z) :
  In x (Np.unique Z.compare l) <-> In x l.
Proof.
  unfold Np.unique. induction l as [|y l IH]; simpl; [tauto|].
  rewrite insert_sorted_In, IH. intuition.
Qed.

Lemma insert_sorted_sorted (x : Z) (l : list Z) :
  StronglySorted Z.lt l ->
  StronglySorted Z.lt (Np.insert_sorted Z.compare x l).
Proof.
  induction 1 as [|z l Hs IH Hz]; simpl.
  - repeat constructor.
  - destruct (Z.compare_spec x z) as [->|H|H].
    + now constructor.
    + constructor; [now constructor|].
      constructor; [exact H|].
      eapply Forall_impl; [|exact Hz]. simpl. intros; lia.
    + constructor; [exact IH|].
      apply Forall_forall. intros y Hy.
      apply insert_sorted_In in Hy as [->|Hy]; [exact H|].
      rewrite Forall_forall in Hz. now apply Hz.
Qed.

Lemma unique_sorted (l : list Z) :
  StronglySorted Z.lt (Np.unique Z.compare l).
Proof.
  unfold Np.unique. induction l as [|y l IH]; simpl; [constructor|].
  now apply insert_sorted_sorted.
Qed.

Lemma sorted_NoDup (l : list Z) : StronglySorted Z.lt l -> NoDup l.
Proof.
  induction 1 as [|z l Hs IH Hz]; constructor; [|exact IH].
  intros Hin. rewrite Forall_forall in Hz. specialize (Hz z Hin). lia.
Qed.

Lemma index_of_lt (x : Z) (u : list Z) :
  In x u -> Np.index_of Z.compare x u < List.length u.
Proof.
  induction u as [|y u IH]; simpl; [tauto|].
  intros H. destruct (Z.compare_spec x y) as [->|Hlt|Hgt]; try lia.
  - destruct H as [->|H]; [lia|]. specialize (IH H). lia.
  - destruct H as [->|H]; [lia|]. specialize (IH H). lia.
Qed.

Lemma index_of_eq_iff (x : Z) (u : list Z) (i : nat) :
  NoDup u -> In x u -> i < List.length u ->
  (Np.index_of Z.compare x u = i <-> x = nth i u 0%Z).
Proof.
  intros Hnd; revert i; induction Hnd as [|y u Hy Hnd IH];
    intros i Hin Hi; simpl in *; [tauto|].
  destruct (Z.compare_spec x y) as [->|Hlt|Hgt].
  - destruct i as [|i]; [tauto|]. split; [discriminate|].
    intros ->. exfalso. apply Hy. apply nth_In. lia.
  - destruct Hin as [->|Hin]; [lia|].
    destruct i as [|i]; [split; [discriminate|lia]|].
    rewrite <- (IH i Hin) by lia. split; lia.
  - destruct Hin as [->|Hin]; [lia|].
    destruct i as [|i]; [split; [discriminate|lia]|].
    rewrite <- (IH i Hin) by lia. split; lia.
Qed.

End Unique.

Section Contingency.

Import Metrics MatrixSpec.

Lemma length_incr_nth (j : nat) (row : list nat) :
  List.length (incr_nth j row) = List.length row.
Proof.
  revert j; induction row as [|x t IH]; intros [|j]; simpl; auto.
Qed.

Lemma nth_incr_nth (b j : nat) (row : list nat) :
  nth j (incr_nth b row) 0 =
  nth j row 0 + (if (j =? b) && (b <? List.length row) then 1 else 0).
Proof.
  revert b j; induction row as [|x t IH]; intros [|b] [|j]; simpl;
    try lia.
  - now rewrite andb_false_r.
  - rewrite IH. reflexivity.
Qed.

Lemma rect_incr_cell (nr nc a b : nat) (m : matrix) :
  rect nr nc m -> rect nr nc (incr_cell a b m).
Proof.
  intros [Hl Hf]. revert nr a Hl.
  induction Hf as [|row m Hrow Hf IH]; intros nr a Hl; simpl.
  - split; [exact Hl|constructor].
  - destruct a as [|a].
    + split; [exact Hl|]. constructor; [|exact Hf].
      now rewrite length_incr_nth.
    + destruct (IH (List.length m) a eq_refl) as [Hl' Hf'].
      split; [simpl in *; lia|]. now constructor.
Qed.

Lemma cell_incr_cell (a b i j : nat) (m : matrix) :
  cell (incr_cell a b m) i j =
  cell m i j
  + (if (i =? a) && ((j =? b) && (b <? List.length (nth a m [])))
     then 1 else 0).
Proof.
  unfold cell. revert a i; induction m as [|row m IH]; intros a i; simpl.
  - destruct i, j, a; simpl; rewrite ?andb_false_r; reflexivity.
  - destruct a as [|a], i as [|i]; simpl.
    + apply nth_incr_nth.
    + lia.
    + lia.
    + apply IH.
Qed.

Lemma rect_nth_length (nr nc : nat) (m : matrix) (a : nat) :
  rect nr nc m -> a < nr -> List.length (nth a m []) = nc.
Proof.
  intros [Hl Hf] Ha. rewrite Forall_forall in Hf. apply Hf.
  apply nth_In. lia.
Qed.

Lemma rect_zeros (nr nc : nat) : rect nr nc (repeat (repeat 0 nc) nr).
Proof.
  split; [apply repeat_length|].
  apply Forall_forall. intros row H. apply repeat_spec in H as ->.
  apply repeat_length.
Qed.

Lemma cell_zeros (nr nc i j : nat) :
  cell (repeat (repeat 0 nc) nr) i j = 0.
Proof.
  unfold cell.
  destruct (Nat.lt_ge_cases i nr) as [H|H].
  - rewrite nth_repeat_lt by exact H.
    destruct (Nat.lt_ge_cases j nc) as [G|G].
    + now rewrite nth_repeat_lt.
    + apply nth_overflow. now rewrite repeat_length.
  - rewrite (nth_overflow (repeat (repeat 0 nc) nr) [])
      by now rewrite repeat_length.
    now destruct j.
Qed.

(** Entries in bounds: every entry lands in the cell of its indices. *)
Lemma fold_incr_cell (nr nc : nat) (pairs : list (nat * nat)) :
  forall m : matrix,
    rect nr nc m ->
    Forall (fun p => fst p < nr /\ snd p < nc) pairs ->
    let m' := fold_left (fun m ij => incr_cell (fst ij) (snd ij) m) pairs m in
    rect nr nc m' /\
    forall i j,
      cell m' i j =
      cell m i j + count_if (fun p => (fst p =? i) && (snd p =? j)) pairs.
Proof.
  induction pairs as [|[a b] pairs IH]; intros m Hm Hp; simpl.
  - split; [exact Hm|]. intros i j. unfold count_if. simpl. lia.
  - inversion Hp as [|? ? [Ha Hb] Hp']; subst. simpl in Ha, Hb.
    destruct (IH (incr_cell a b m) (rect_incr_cell a b Hm) Hp')
      as [Hr Hc].
    split; [exact Hr|]. intros i j. rewrite Hc, cell_incr_cell.
    rewrite (rect_nth_length Hm Ha).
    apply Nat.ltb_lt in Hb. rewrite Hb, andb_true_r.
    unfold count_if. simpl.
    rewrite (Nat.eqb_sym i a), (Nat.eqb_sym j b).
    destruct ((a =? i) && (b =? j)); simpl; lia.
Qed.

(** *** Sums over index ranges *)

Lemma nsum_ext (n : nat) (f g : nat -> nat) :
  (forall i, i < n -> f i = g i) -> nsum n f = nsum n g.
Proof.
  intros H. unfold nsum. f_equal. apply map_ext_in. intros i Hi.
  apply in_seq in Hi. apply H. lia.
Qed.

Lemma nsum_add (n : nat) (f g : nat -> nat) :
  nsum n (fun i => f i + g i) = nsum n f + nsum n g.
Proof.
  unfold nsum.
  assert (G : forall s,
    sum_nat (map (fun i => f i + g i) (seq s n)) =
    sum_nat (map f (seq s n)) + sum_nat (map g (seq s n))).
  { induction n as [|n IH]; intros s; simpl; [reflexivity|].
    rewrite IH. lia. }
  apply G.
Qed.

Lemma nsum_zero (n : nat) : nsum n (fun _ => 0) = 0.
Proof.
  unfold nsum.
  assert (G : forall s, sum_nat (map (fun _ => 0) (seq s n)) = 0).
  { induction n as [|n IH]; intros s; simpl; auto. }
  apply G.
Qed.

Lemma nsum_indicator (n b : nat) :
  b < n -> nsum n (fun j => if b =? j then 1 else 0) = 1.
Proof.
  unfold nsum. intros Hb.
  assert (G : forall k s,
    sum_nat (map (fun j => if b =? j then 1 else 0) (seq s k)) =
    if (s <=? b) && (b <? s + k) then 1 else 0).
  { induction k as [|k IH]; intros s; simpl.
    - destruct (Nat.leb_spec s b), (Nat.ltb_spec b (s + 0)); simpl; lia.
    - rewrite IH.
      destruct (Nat.eqb_spec b s), (Nat.leb_spec (S s) b),
        (Nat.ltb_spec b (S s + k)), (Nat.leb_spec s b),
        (Nat.ltb_spec b (s + S k)); simpl; lia. }
  rewrite G. simpl. apply Nat.ltb_lt in Hb. now rewrite Hb.
Qed.

Lemma count_if_ext_in (A : Type) (p q : A -> bool) (l : list A) :
  (forall x, In x l -> p x = q x) -> count_if p l = count_if q l.
Proof.
  unfold count_if. induction l as [|x l IH]; intros H; simpl; [reflexivity|].
  rewrite (H x) by now left.
  destruct (q x); simpl; rewrite IH; auto; intros y Hy; apply H; now right.
Qed.

Lemma count_if_cons (A : Type) (p : A -> bool) (x : A) (l : list A) :
  count_if p (x :: l) = (if p x then 1 else 0) + count_if p l.
Proof. unfold count_if. simpl. now destruct (p x). Qed.

(** Splitting a count by the value of an index. *)
Lemma count_split (A : Type) (ix : A -> nat) (q : A -> bool) (n : nat)
      (l : list A) :
  (forall x, In x l -> ix x < n) ->
  nsum n (fun j => count_if (fun x => q x && (ix x =? j)) l) = count_if q l.
Proof.
  induction l as [|x l IH]; intros H.
  - unfold count_if. simpl. apply nsum_zero.
  - rewrite count_if_cons, <- IH by (intros y Hy; apply H; now right).
    rewrite <- (nsum_ext (n:=n)
      (fun j => (if q x && (ix x =? j) then 1 else 0)
                + count_if (fun y => q y && (ix y =? j)) l))
      by (intros; now rewrite count_if_cons).
    rewrite nsum_add. f_equal.
    destruct (q x); simpl.
    + apply nsum_indicator. apply H. now left.
    + apply nsum_zero.
Qed.

Lemma count_if_true (A : Type) (l : list A) :
  count_if (fun _ => true) l = List.length l.
Proof.
  unfold count_if. induction l as [|x l IH]; simpl; auto.
Qed.

Lemma count_if_combine_fst (A B : Type) (q : A -> bool) (l1 : list A)
      (l2 : list B) :
  List.length l1 = List.length l2 ->
  count_if (fun p => q (fst p)) (combine l1 l2) = count_if q l1.
Proof.
  revert l2; induction l1 as [|x l1 IH]; intros [|y l2] H; simpl in *;
    try discriminate; [reflexivity|].
  rewrite !count_if_cons. simpl. f_equal. apply IH. lia.
Qed.

Lemma count_if_combine_snd (A B : Type) (q : B -> bool) (l1 : list A)
      (l2 : list B) :
  List.length l1 = List.length l2 ->
  count_if (fun p => q (snd p)) (combine l1 l2) = count_if q l2.
Proof.
  revert l2; induction l1 as [|x l1 IH]; intros [|y l2] H; simpl in *;
    try discriminate; [reflexivity|].
  rewrite !count_if_cons. simpl. f_equal. apply IH. lia.
Qed.

Lemma count_if_map (A B : Type) (g : A -> B) (q : B -> bool) (l : list A) :
  count_if q (map g l) = count_if (fun x => q (g x)) l.
Proof.
  induction l as [|x l IH]; [reflexivity|].
  simpl map. now rewrite !count_if_cons, IH.
Qed.

Lemma map_nth_seq (A B : Type) (g : A -> B) (l : list A) (d : A) :
  map (fun i => g (nth i l d)) (seq 0 (List.length l)) = map g l.
Proof.
  induction l as [|x l IH]; simpl; [reflexivity|].
  f_equal. rewrite <- seq_shift, map_map. exact IH.
Qed.

(** *** Rectangular matrices are tables of their cells *)

Lemma rect_tabulate (nr nc : nat) (m : matrix) :
  rect nr nc m -> m = tabulate nr nc (cell m).
Proof.
  intros [Hl Hf]. subst nr. unfold tabulate, cell.
  induction Hf as [|row m Hrow Hf IH]; simpl; [reflexivity|].
  f_equal.
  - subst nc. clear. induction row as [|x row IH]; simpl; [reflexivity|].
    f_equal. rewrite <- seq_shift, map_map. exact IH.
  - rewrite <- seq_shift, map_map. exact IH.
Qed.

Lemma isum_axis1_tabulate (nr nc : nat) (f : nat -> nat -> nat) :
  isum_axis1 (tabulate nr nc f) = map (fun i => nsum nc (f i)) (seq 0 nr).
Proof. unfold isum_axis1, tabulate. now rewrite map_map. Qed.

Lemma isum_tabulate (nr nc : nat) (f : nat -> nat -> nat) :
  isum (tabulate nr nc f) = nsum nr (fun i => nsum nc (f i)).
Proof. unfold isum, tabulate, nsum. now rewrite map_map. Qed.

Lemma ncols_tabulate (A : Type) (nr nc : nat) (f : nat -> nat -> A) :
  0 < nr -> ncols (tabulate nr nc f) = nc.
Proof.
  destruct nr as [|nr]; [lia|]. intros _. unfold tabulate. simpl.
  now rewrite length_map, length_seq.
Qed.

Lemma isum_axis0_tabulate (nr nc : nat) (f : nat -> nat -> nat) :
  0 < nr ->
  isum_axis0 (tabulate nr nc f) =
  map (fun j => nsum nr (fun i => f i j)) (seq 0 nc).
Proof.
  intros H. unfold isum_axis0. rewrite ncols_tabulate by exact H.
  apply map_ext_in. intros j Hj. apply in_seq in Hj.
  unfold tabulate, nsum. rewrite map_map. f_equal.
  apply map_ext. intros i. apply nth_map_seq. lia.
Qed.

End Contingency.

Section ContingencyClaims.

Import Metrics MatrixSpec.

Lemma combine_maps (A B C D : Type) (f : A -> C) (g : B -> D)
      (l1 : list A) (l2 : list B) :
  combine (map f l1) (map g l2) =
  map (fun p => (f (fst p), g (snd p))) (combine l1 l2).
Proof.
  revert l2; induction l1 as [|x l1 IH]; intros [|y l2]; simpl; auto.
  now rewrite IH.
Qed.

Lemma inverse_in_bounds (l : list Z) :
  Forall (fun i => i < List.length (Np.unique Z.compare l))
         (snd (Np.unique_inverse Z.compare l)).
Proof.
  unfold Np.unique_inverse. simpl. apply Forall_forall. intros i Hi.
  apply in_map_iff in Hi as (x & <- & Hx).
  apply index_of_lt. now apply unique_In.
Qed.

(** The cells of the contingency matrix are the co-occurrence counts of the
    classes. *)
Lemma contingency_cells (ref_labels sys_labels : list Z) :
  List.length ref_labels = List.length sys_labels ->
  let rc := Np.unique Z.compare ref_labels in
  let sc := Np.unique Z.compare sys_labels in
  exists cm,
    contingency_matrix ref_labels sys_labels = Ok (cm, rc, sc) /\
    rect (List.length rc) (List.length sc) cm /\
    (forall i j,
        cell cm i j =
        count_if (fun p => (Np.index_of Z.compare (fst p) rc =? i)
                           && (Np.index_of Z.compare (snd p) sc =? j))
                 (combine ref_labels sys_labels)) /\
    (forall i j,
        i < List.length rc -> j < List.length sc ->
        cell cm i j =
        co_occurrences ref_labels sys_labels (nth i rc 0%Z) (nth j sc 0%Z)).
Proof.
  intros Hlen rc sc. unfold contingency_matrix, Np.unique_inverse.
  apply Nat.eqb_eq in Hlen as Hb. rewrite Hb. simpl negb. cbv iota.
  eexists; split; [reflexivity|]. fold rc sc. unfold coo_toarray.
  set (pairs := combine (map (fun x => Np.index_of Z.compare x rc) ref_labels)
                        (map (fun x => Np.index_of Z.compare x sc) sys_labels)).
  assert (Hp : Forall (fun p => fst p < List.length rc
                                /\ snd p < List.length sc) pairs).
  { apply Forall_forall. intros [a b] Hin. simpl.
    pose proof (in_combine_l _ _ _ _ Hin) as Ha.
    pose proof (in_combine_r _ _ _ _ Hin) as Hb'.
    pose proof (inverse_in_bounds ref_labels) as Fr.
    pose proof (inverse_in_bounds sys_labels) as Fs.
    unfold Np.unique_inverse in Fr, Fs. simpl in Fr, Fs.
    rewrite Forall_forall in Fr, Fs. split; [now apply Fr | now apply Fs]. }
  destruct (fold_incr_cell (rect_zeros (List.length rc) (List.length sc)) Hp)
    as [Hr Hc].
  split; [exact Hr|].
  assert (Hcell : forall i j,
    cell (fold_left (fun m ij => incr_cell (fst ij) (snd ij) m) pairs
                    (repeat (repeat 0 (List.length sc)) (List.length rc)))
         i j =
    count_if (fun p => (Np.index_of Z.compare (fst p) rc =? i)
                       && (Np.index_of Z.compare (snd p) sc =? j))
             (combine ref_labels sys_labels)).
  { intros i j. rewrite Hc, cell_zeros. simpl. unfold pairs.
    now rewrite combine_maps, count_if_map. }
  split; [exact Hcell|].
  intros i j Hi Hj. rewrite Hcell. unfold co_occurrences.
  apply count_if_ext_in. intros [a b] Hin. simpl.
  pose proof (in_combine_l _ _ _ _ Hin) as Ha.
  pose proof (in_combine_r _ _ _ _ Hin) as Hb'.
  pose proof (@index_of_eq_iff a rc i
                (sorted_NoDup (unique_sorted ref_labels))
                (proj2 (unique_In a ref_labels) Ha) Hi) as Ea.
  pose proof (@index_of_eq_iff b sc j
                (sorted_NoDup (unique_sorted sys_labels))
                (proj2 (unique_In b sys_labels) Hb') Hj) as Eb.
  f_equal.
  - destruct (Nat.eqb_spec (Np.index_of Z.compare a rc) i) as [E|E],
      (Z.eqb_spec a (nth i rc 0%Z)) as [F|F]; try reflexivity.
    + apply Ea in E. contradiction.
    + apply Ea in F. contradiction.
  - destruct (Nat.eqb_spec (Np.index_of Z.compare b sc) j) as [E|E],
      (Z.eqb_spec b (nth j sc 0%Z)) as [F|F]; try reflexivity.
    + apply Eb in E. contradiction.
    + apply Eb in F. contradiction.
Qed.

Lemma index_test (l : list Z) (x : Z) (i : nat) :
  In x l -> i < List.length (Np.unique Z.compare l) ->
  (Np.index_of Z.compare x (Np.unique Z.compare l) =? i) =
  Z.eqb (nth i (Np.unique Z.compare l) 0%Z) x.
Proof.
  intros Hx Hi.
  pose proof (@index_of_eq_iff x (Np.unique Z.compare l) i
                (sorted_NoDup (unique_sorted l))
                (proj2 (unique_In x l) Hx) Hi) as E.
  destruct (Nat.eqb_spec (Np.index_of Z.compare x (Np.unique Z.compare l)) i)
    as [F|F], (Z.eqb_spec (nth i (Np.unique Z.compare l) 0%Z) x) as [G|G];
    try reflexivity.
  - apply E in F. congruence.
  - symmetry in G. apply E in G. contradiction.
Qed.

(** The sums along the rows and along the columns are the frame counts of
    the classes. *)
Lemma contingency_sums (ref_labels sys_labels : list Z) :
  List.length ref_labels = List.length sys_labels ->
  let rc := Np.unique Z.compare ref_labels in
  let sc := Np.unique Z.compare sys_labels in
  exists cm,
    contingency_matrix ref_labels sys_labels = Ok (cm, rc, sc) /\
    rect (List.length rc) (List.length sc) cm /\
    (forall i j,
        i < List.length rc -> j < List.length sc ->
        cell cm i j =
        co_occurrences ref_labels sys_labels (nth i rc 0%Z) (nth j sc 0%Z)) /\
    (forall i j,
        cell cm i j =
        count_if (fun p => (Np.index_of Z.compare (fst p) rc =? i)
                           && (Np.index_of Z.compare (snd p) sc =? j))
                 (combine ref_labels sys_labels)) /\
    (forall i, i < List.length rc ->
        nsum (List.length sc) (cell cm i) =
        count_if (Z.eqb (nth i rc 0%Z)) ref_labels) /\
    (forall j, j < List.length sc ->
        nsum (List.length rc) (fun i => cell cm i j) =
        count_if (Z.eqb (nth j sc 0%Z)) sys_labels) /\
    nsum (List.length rc) (fun i => nsum (List.length sc) (cell cm i)) =
    List.length ref_labels.
Proof.
  intros Hlen rc sc.
  destruct (contingency_cells _ _ Hlen) as (cm & Hcm & Hrect & Hix & Hco).
  fold rc sc in Hcm, Hrect, Hix, Hco.
  exists cm. split; [exact Hcm|]. split; [exact Hrect|].
  split; [exact Hco|]. split; [exact Hix|].
  set (l := combine ref_labels sys_labels) in *.
  assert (Hfst : forall p, In p l ->
            Np.index_of Z.compare (fst p) rc < List.length rc).
  { intros [a b] Hin. apply index_of_lt, unique_In.
    exact (in_combine_l _ _ _ _ Hin). }
  assert (Hsnd : forall p, In p l ->
            Np.index_of Z.compare (snd p) sc < List.length sc).
  { intros [a b] Hin. apply index_of_lt, unique_In.
    exact (in_combine_r _ _ _ _ Hin). }
  assert (Hrow : forall i, i < List.length rc ->
            nsum (List.length sc) (cell cm i) =
            count_if (Z.eqb (nth i rc 0%Z)) ref_labels).
  { intros i Hi.
    rewrite (@nsum_ext _ _ (fun j =>
      count_if (fun p => (Np.index_of Z.compare (fst p) rc =? i)
                         && (Np.index_of Z.compare (snd p) sc =? j)) l))
      by (intros; apply Hix).
    rewrite (@count_split _ (fun p => Np.index_of Z.compare (snd p) sc)
               (fun p => Np.index_of Z.compare (fst p) rc =? i) _ _ Hsnd).
    unfold l.
    rewrite (@count_if_combine_fst _ _
               (fun a => Np.index_of Z.compare a rc =? i) _ _ Hlen).
    apply count_if_ext_in. intros x Hx. now apply index_test. }
  assert (Hcol : forall j, j < List.length sc ->
            nsum (List.length rc) (fun i => cell cm i j) =
            count_if (Z.eqb (nth j sc 0%Z)) sys_labels).
  { intros j Hj.
    rewrite (@nsum_ext _ _ (fun i =>
      count_if (fun p => (Np.index_of Z.compare (snd p) sc =? j)
                         && (Np.index_of Z.compare (fst p) rc =? i)) l))
      by (intros; rewrite Hix; apply count_if_ext_in; intros;
          apply andb_comm).
    rewrite (@count_split _ (fun p => Np.index_of Z.compare (fst p) rc)
               (fun p => Np.index_of Z.compare (snd p) sc =? j) _ _ Hfst).
    unfold l.
    rewrite (@count_if_combine_snd _ _
               (fun b => Np.index_of Z.compare b sc =? j) _ _ Hlen).
    apply count_if_ext_in. intros x Hx. now apply index_test. }
  split; [exact Hrow|]. split; [exact Hcol|].
  rewrite (@nsum_ext _ _ (fun i =>
    count_if (fun p => true && (Np.index_of Z.compare (fst p) rc =? i)) l)).
  - rewrite (@count_split _ (fun p => Np.index_of Z.compare (fst p) rc)
               (fun _ => true) _ _ Hfst).
    rewrite count_if_true. unfold l. rewrite length_combine. lia.
  - intros i Hi. rewrite (Hrow i Hi). simpl. unfold l.
    rewrite (@count_if_combine_fst _ _
               (fun a => Np.index_of Z.compare a rc =? i) _ _ Hlen).
    symmetry. apply count_if_ext_in. intros x Hx. now apply index_test.
Qed.

(** C4.  For label sequences of equal length, [contingency_matrix] returns
    a matrix with one row per distinct reference label and one column per
    distinct system label (the classes are the sorted distinct labels), whose
    cells are the co-occurrence counts; the cells sum to the number of
    frames, and the row and column sums are the numbers of frames of each
    class. *)
Theorem contingency_matrix_sums (ref_labels sys_labels : list Z) :
  List.length ref_labels = List.length sys_labels ->
  exists cm rc sc,
    contingency_matrix ref_labels sys_labels = Ok (cm, rc, sc) /\
    StronglySorted Z.lt rc /\ (forall x, In x rc <-> In x ref_labels) /\
    StronglySorted Z.lt sc /\ (forall x, In x sc <-> In x sys_labels) /\
    rect (List.length rc) (List.length sc) cm /\
    (forall i j,
        i < List.length rc -> j < List.length sc ->
        cell cm i j =
        co_occurrences ref_labels sys_labels (nth i rc 0%Z) (nth j sc 0%Z)) /\
    isum cm = List.length ref_labels /\
    isum_axis1 cm = map (fun c => count_if (Z.eqb c) ref_labels) rc /\
    isum_axis0 cm = map (fun c => count_if (Z.eqb c) sys_labels) sc.
Proof.
  intros Hlen.
  destruct (contingency_sums _ _ Hlen)
    as (cm & Hcm & Hrect & Hco & Hix & Hrow & Hcol & Htot).
  set (rc := Np.unique Z.compare ref_labels) in *.
  set (sc := Np.unique Z.compare sys_labels) in *.
  exists cm, rc, sc.
  split; [exact Hcm|].
  split; [apply unique_sorted|]. split; [intros x; apply unique_In|].
  split; [apply unique_sorted|]. split; [intros x; apply unique_In|].
  split; [exact Hrect|]. split; [exact Hco|].
  rewrite (@rect_tabulate _ _ _ Hrect). split; [|split].
  - rewrite isum_tabulate. exact Htot.
  - rewrite isum_axis1_tabulate.
    rewrite <- (@map_nth_seq _ _
                  (fun c => count_if (Z.eqb c) ref_labels) rc 0%Z).
    apply map_ext_in. intros i Hi. apply in_seq in Hi. apply Hrow. lia.
  - destruct (List.length rc) as [|nr] eqn:Enr.
    + assert (ref_labels = []) as Eref.
      { destruct ref_labels as [|x t]; [reflexivity|].
        assert (In x rc) by (apply unique_In; now left).
        destruct rc; [contradiction|discriminate]. }
      assert (sys_labels = []) as Esys.
      { destruct sys_labels; [reflexivity|]. subst. discriminate. }
      subst. reflexivity.
    + rewrite isum_axis0_tabulate by lia.
      rewrite <- (@map_nth_seq _ _
                    (fun c => count_if (Z.eqb c) sys_labels) sc 0%Z).
      apply map_ext_in. intros j Hj. apply in_seq in Hj. apply Hcol. lia.
Qed.

Lemma contingency_matrix_sums_witness :
  let ref_labels := [1; 1; 3; 2; 4; 4]%Z in
  let sys_labels := [1; 2; 2; 2; 4; 1]%Z in
  exists cm rc sc,
    contingency_matrix ref_labels sys_labels = Ok (cm, rc, sc) /\
    StronglySorted Z.lt rc /\ (forall x, In x rc <-> In x ref_labels) /\
    StronglySorted Z.lt sc /\ (forall x, In x sc <-> In x sys_labels) /\
    rect (List.length rc) (List.length sc) cm /\
    (forall i j,
        i < List.length rc -> j < List.length sc ->
        cell cm i j =
        co_occurrences ref_labels sys_labels (nth i rc 0%Z) (nth j sc 0%Z)) /\
    isum cm = List.length ref_labels /\
    isum_axis1 cm = map (fun c => count_if (Z.eqb c) ref_labels) rc /\
    isum_axis0 cm = map (fun c => count_if (Z.eqb c) sys_labels) sc.
Proof.
  apply (@contingency_matrix_sums [1; 1; 3; 2; 4; 4]%Z [1; 2; 2; 2; 4; 1]%Z).
  reflexivity.
Defined.

(** C6.  For label sequences of equal length, every metric gives on the raw
    labels the result it gives on the matrix that [contingency_matrix]
    builds from them, whatever labels accompany the matrix. *)
Theorem metrics_from_matrix (ref_labels sys_labels : list Z) :
  List.length ref_labels = List.length sys_labels ->
  exists cm rc sc,
    contingency_matrix ref_labels sys_labels = Ok (cm, rc, sc) /\
    forall (ref' sys' : list Z) (nats : bool),
      bcubed ref_labels sys_labels None = bcubed ref' sys' (Some cm) /\
      goodman_kruskal_tau ref_labels sys_labels None =
        goodman_kruskal_tau ref' sys' (Some cm) /\
      conditional_entropy ref_labels sys_labels None nats =
        conditional_entropy ref' sys' (Some cm) nats /\
      mutual_information ref_labels sys_labels None nats =
        mutual_information ref' sys' (Some cm) nats.
Proof.
  intros Hlen.
  destruct (contingency_cells _ _ Hlen) as (cm & Hcm & _).
  exists cm, (Np.unique Z.compare ref_labels),
    (Np.unique Z.compare sys_labels).
  split; [exact Hcm|]. intros ref' sys' nats.
  unfold bcubed, goodman_kruskal_tau, conditional_entropy,
    mutual_information, get_cm.
  rewrite Hcm. repeat split; reflexivity.
Qed.

Lemma metrics_from_matrix_witness :
  let ref_labels := [1; 1; 3; 2; 4; 4]%Z in
  let sys_labels := [1; 2; 2; 2; 4; 1]%Z in
  exists cm rc sc,
    contingency_matrix ref_labels sys_labels = Ok (cm, rc, sc) /\
    forall (ref' sys' : list Z) (nats : bool),
      bcubed ref_labels sys_labels None = bcubed ref' sys' (Some cm) /\
      goodman_kruskal_tau ref_labels sys_labels None =
        goodman_kruskal_tau ref' sys' (Some cm) /\
      conditional_entropy ref_labels sys_labels None nats =
        conditional_entropy ref' sys' (Some cm) nats /\
      mutual_information ref_labels sys_labels None nats =
        mutual_information ref' sys' (Some cm) nats.
Proof.
  apply (@metrics_from_matrix [1; 1; 3; 2; 4; 4]%Z [1; 2; 2; 2; 4; 1]%Z).
  reflexivity.
Defined.

End ContingencyClaims.

Unset Implicit Arguments.

(** ** Finite sums of reals *)

Section RealSums.

Import RealSpec.
Local Open Scope R_scope.

Lemma rsum_0 (f : nat -> R) : rsum 0 f = 0.
Proof. reflexivity. Qed.

Lemma rsum_S (n : nat) (f : nat -> R) : rsum (S n) f = rsum n f + f n.
Proof.
  unfold rsum. rewrite seq_S, map_app, fold_right_app. simpl.
  generalize (map f (seq 0 n)) as l. intros l.
  induction l as [|x l IH]; simpl; [lra|]. rewrite IH. lra.
Qed.

Lemma rsum_ext (n : nat) (f g : nat -> R) :
  (forall i, (i < n)%nat -> f i = g i) -> rsum n f = rsum n g.
Proof.
  induction n as [|n IH]; intros H; [reflexivity|].
  rewrite !rsum_S, IH, H; auto.
Qed.

Lemma rsum_plus (n : nat) (f g : nat -> R) :
  rsum n (fun i => f i + g i) = rsum n f + rsum n g.
Proof.
  induction n as [|n IH]; [rewrite !rsum_0; lra|].
  rewrite !rsum_S, IH. lra.
Qed.

Lemma rsum_minus (n : nat) (f g : nat -> R) :
  rsum n (fun i => f i - g i) = rsum n f - rsum n g.
Proof.
  induction n as [|n IH]; [rewrite !rsum_0; lra|].
  rewrite !rsum_S, IH. lra.
Qed.

Lemma rsum_scal (n : nat) (c : R) (f : nat -> R) :
  rsum n (fun i => c * f i) = c * rsum n f.
Proof.
  induction n as [|n IH]; [rewrite !rsum_0; lra|].
  rewrite !rsum_S, IH. lra.
Qed.

Lemma rsum_scal_r (n : nat) (c : R) (f : nat -> R) :
  rsum n (fun i => f i * c) = rsum n f * c.
Proof.
  induction n as [|n IH]; [rewrite !rsum_0; lra|].
  rewrite !rsum_S, IH. lra.
Qed.

Lemma rsum_opp (n : nat) (f : nat -> R) :
  rsum n (fun i => - f i) = - rsum n f.
Proof.
  induction n as [|n IH]; [rewrite !rsum_0; lra|].
  rewrite !rsum_S, IH. lra.
Qed.

Lemma rsum_const0 (n : nat) : rsum n (fun _ => 0) = 0.
Proof.
  induction n as [|n IH]; [reflexivity|]. rewrite rsum_S, IH. lra.
Qed.

Lemma rsum_le (n : nat) (f g : nat -> R) :
  (forall i, (i < n)%nat -> f i <= g i) -> rsum n f <= rsum n g.
Proof.
  induction n as [|n IH]; intros H; [rewrite !rsum_0; lra|].
  rewrite !rsum_S.
  assert (rsum n f <= rsum n g) by (apply IH; auto).
  assert (f n <= g n) by (apply H; lia). lra.
Qed.

Lemma rsum_nonneg (n : nat) (f : nat -> R) :
  (forall i, (i < n)%nat -> 0 <= f i) -> 0 <= rsum n f.
Proof.
  intros H. rewrite <- (rsum_const0 n). now apply rsum_le.
Qed.

Lemma rsum_pos (n : nat) (f : nat -> R) (k : nat) :
  (forall i, (i < n)%nat -> 0 <= f i) -> (k < n)%nat -> 0 < f k ->
  0 < rsum n f.
Proof.
  induction n as [|n IH]; intros H Hk Hf; [lia|].
  rewrite rsum_S.
  assert (0 <= rsum n f) by (apply rsum_nonneg; auto).
  assert (0 <= f n) by (apply H; lia).
  destruct (Nat.eq_dec k n) as [->|Hne]; [lra|].
  assert (0 < rsum n f) by (apply IH; auto; lia). lra.
Qed.

Lemma rsum_exchange (n m : nat) (f : nat -> nat -> R) :
  rsum n (fun i => rsum m (fun j => f i j)) =
  rsum m (fun j => rsum n (fun i => f i j)).
Proof.
  induction n as [|n IH].
  - rewrite rsum_0. symmetry. apply rsum_const0.
  - rewrite rsum_S, IH, <- rsum_plus. apply rsum_ext.
    intros j _. now rewrite rsum_S.
Qed.

Lemma rsum_INR (n : nat) (f : nat -> nat) :
  INR (MatrixSpec.nsum n f) = rsum n (fun i => INR (f i)).
Proof.
  unfold MatrixSpec.nsum, rsum.
  generalize (seq 0 n) as l. intros l.
  induction l as [|x l IH]; simpl; [reflexivity|].
  rewrite plus_INR. now rewrite IH.
Qed.

Lemma rsum_term_le (n : nat) (f : nat -> R) (k : nat) :
  (forall i, (i < n)%nat -> 0 <= f i) -> (k < n)%nat -> f k <= rsum n f.
Proof.
  induction n as [|n IH]; intros H Hk; [lia|].
  rewrite rsum_S.
  assert (0 <= rsum n f) by (apply rsum_nonneg; auto).
  assert (0 <= f n) by (apply H; lia).
  destruct (Nat.eq_dec k n) as [->|Hne]; [lra|].
  assert (f k <= rsum n f) by (apply IH; auto; lia). lra.
Qed.

Lemma rsum_pos_exists (n : nat) (f : nat -> R) :
  (forall i, (i < n)%nat -> 0 <= f i) -> 0 < rsum n f ->
  exists k, (k < n)%nat /\ 0 < f k.
Proof.
  induction n as [|n IH]; intros H Hs.
  - rewrite rsum_0 in Hs. lra.
  - rewrite rsum_S in Hs.
    destruct (Rlt_dec 0 (f n)) as [Hn|Hn].
    + exists n. split; [lia|exact Hn].
    + assert (0 <= f n) by (apply H; lia).
      destruct IH as (k & Hk & Hf); [auto|lra|].
      exists k. split; [lia|exact Hf].
Qed.

End RealSums.

(** ** Float arrays as tables of reals *)

Section FloatArrays.

Import Metrics MatrixSpec RealSpec.
Local Open Scope R_scope.

Lemma fdiv_fin (a b : R) : b <> 0 -> fdiv (Fin a) (Fin b) = Fin (a / b).
Proof.
  intros H. unfold fdiv. destruct (Req_dec_T b 0); [contradiction|].
  reflexivity.
Qed.

Lemma fdiv_zero (a : R) : fdiv (Fin a) (Fin 0) = NaN.
Proof.
  unfold fdiv. destruct (Req_dec_T 0 0); [reflexivity|contradiction].
Qed.

Lemma fsum_fin (n : nat) (f : nat -> R) :
  fsum (map (fun i => Fin (f i)) (seq 0 n)) = Fin (rsum n f).
Proof.
  unfold fsum, rsum. generalize (seq 0 n) as l. intros l.
  induction l as [|x l IH]; simpl; [reflexivity|]. now rewrite IH.
Qed.

Lemma zip_with_maps (A B C D : Type) (f : A -> B -> C) (a : D -> A)
      (b : D -> B) (l : list D) :
  zip_with f (map a l) (map b l) = map (fun i => f (a i) (b i)) l.
Proof.
  induction l as [|x l IH]; simpl; [reflexivity|]. now rewrite IH.
Qed.

Lemma tabulate_ext (A : Type) (nr nc : nat) (f g : nat -> nat -> A) :
  (forall i j, (i < nr)%nat -> (j < nc)%nat -> f i j = g i j) ->
  tabulate nr nc f = tabulate nr nc g.
Proof.
  intros H. unfold tabulate. apply map_ext_in. intros i Hi.
  apply in_seq in Hi. apply map_ext_in. intros j Hj. apply in_seq in Hj.
  apply H; lia.
Qed.

Lemma astype_float_tabulate (nr nc : nat) (c : nat -> nat -> nat) :
  astype_float (tabulate nr nc c) =
  tabulate nr nc (fun i j => Fin (INR (c i j))).
Proof.
  unfold astype_float, tabulate. rewrite map_map. apply map_ext.
  intros i. now rewrite map_map.
Qed.

Lemma msum_tabulate (nr nc : nat) (g : nat -> nat -> R) :
  msum (tabulate nr nc (fun i j => Fin (g i j))) =
  Fin (rsum nr (fun i => rsum nc (g i))).
Proof.
  unfold msum, tabulate. rewrite map_map.
  rewrite (map_ext _ (fun i => Fin (rsum nc (g i))))
    by (intros i; apply fsum_fin).
  apply fsum_fin.
Qed.

Lemma sum_axis1_tabulate (nr nc : nat) (g : nat -> nat -> R) :
  sum_axis1 (tabulate nr nc (fun i j => Fin (g i j))) =
  map (fun i => Fin (rsum nc (g i))) (seq 0 nr).
Proof.
  unfold sum_axis1, tabulate. rewrite map_map. apply map_ext.
  intros i. apply fsum_fin.
Qed.

Lemma sum_axis0_tabulate (nr nc : nat) (g : nat -> nat -> R) :
  (0 < nr)%nat ->
  sum_axis0 (tabulate nr nc (fun i j => Fin (g i j))) =
  map (fun j => Fin (rsum nr (fun i => g i j))) (seq 0 nc).
Proof.
  intros H. unfold sum_axis0. rewrite ncols_tabulate by exact H.
  apply map_ext_in. intros j Hj. apply in_seq in Hj.
  unfold tabulate. rewrite map_map.
  rewrite (map_ext _ (fun i => Fin (g i j))).
  - apply fsum_fin.
  - intros i. apply nth_map_seq. lia.
Qed.

Lemma div_scalar_tabulate (nr nc : nat) (F : nat -> nat -> float)
      (s : float) :
  div_scalar (tabulate nr nc F) s = tabulate nr nc (fun i j => fdiv (F i j) s).
Proof.
  unfold div_scalar, tabulate. rewrite map_map. apply map_ext.
  intros i. now rewrite map_map.
Qed.

Lemma div_cols_tabulate (nr nc : nat) (F : nat -> nat -> float)
      (V : nat -> float) :
  div_cols (tabulate nr nc F) (map V (seq 0 nc)) =
  tabulate nr nc (fun i j => fdiv (F i j) (V j)).
Proof.
  unfold div_cols, tabulate. rewrite map_map. apply map_ext.
  intros i. apply zip_with_maps.
Qed.

Lemma div_rows_tabulate (nr nc : nat) (F : nat -> nat -> float)
      (V : nat -> float) :
  div_rows (tabulate nr nc F) (map V (seq 0 nr)) =
  tabulate nr nc (fun i j => fdiv (F i j) (V i)).
Proof.
  unfold div_rows, tabulate. rewrite zip_with_maps. apply map_ext.
  intros i. now rewrite map_map.
Qed.

Lemma mul_elem_tabulate (nr nc : nat) (F G : nat -> nat -> float) :
  mul_elem (tabulate nr nc F) (tabulate nr nc G) =
  tabulate nr nc (fun i j => fmul (F i j) (G i j)).
Proof.
  unfold mul_elem, tabulate. rewrite zip_with_maps. apply map_ext.
  intros i. apply zip_with_maps.
Qed.

Lemma square_tabulate (nr nc : nat) (F : nat -> nat -> float) :
  square (tabulate nr nc F) = tabulate nr nc (fun i j => fmul (F i j) (F i j)).
Proof.
  unfold square, tabulate. rewrite map_map. apply map_ext.
  intros i. now rewrite map_map.
Qed.

End FloatArrays.

(** ** The values of B-cubed and of Goodman-Kruskal tau *)

Section MetricValues.

Import Metrics MatrixSpec RealSpec.
Local Open Scope R_scope.

Variable c : nat -> nat -> nat.
Variables nr nc : nat.

Lemma fsum_map_fin (n : nat) (F : nat -> float) (g : nat -> R) :
  (forall i, (i < n)%nat -> F i = Fin (g i)) ->
  fsum (map F (seq 0 n)) = Fin (rsum n g).
Proof.
  intros H. rewrite <- fsum_fin. f_equal. apply map_ext_in.
  intros i Hi. apply in_seq in Hi. apply H. lia.
Qed.

Lemma normalized_tabulate :
  total c nr nc <> 0 ->
  div_scalar (astype_float (tabulate nr nc c))
             (msum (astype_float (tabulate nr nc c))) =
  tabulate nr nc (fun i j => Fin (prob c nr nc i j)).
Proof.
  intros Ht. rewrite astype_float_tabulate, msum_tabulate.
  rewrite div_scalar_tabulate. apply tabulate_ext. intros i j _ _.
  now apply fdiv_fin.
Qed.

Lemma bcubed_tabulate (ref_labels sys_labels : list Z) :
  (0 < nr)%nat ->
  total c nr nc <> 0 ->
  (forall i, (i < nr)%nat -> rowsum c nc i <> 0) ->
  (forall j, (j < nc)%nat -> colsum c nr j <> 0) ->
  precision_val c nr nc + recall_val c nr nc <> 0 ->
  bcubed ref_labels sys_labels (Some (tabulate nr nc c)) =
  Ok (Fin (precision_val c nr nc), Fin (recall_val c nr nc),
      Fin (f1_val c nr nc)).
Proof.
  intros Hnr Ht Hrow Hcol Hpr. unfold bcubed, get_cm. cbn [bind].
  rewrite (normalized_tabulate Ht).
  rewrite astype_float_tabulate.
  rewrite (sum_axis0_tabulate nr nc (fun i j => INR (c i j)) Hnr).
  rewrite (sum_axis1_tabulate nr nc (fun i j => INR (c i j))).
  rewrite (div_cols_tabulate nr nc (fun i j => Fin (INR (c i j)))
             (fun j => Fin (rsum nr (fun i => INR (c i j))))).
  rewrite (div_rows_tabulate nr nc (fun i j => Fin (INR (c i j)))
             (fun i => Fin (rsum nc (fun j => INR (c i j))))).
  rewrite !mul_elem_tabulate.
  rewrite (@tabulate_ext _ nr nc _
             (fun i j => Fin (prob c nr nc i j
                              * (cnt c i j / colsum c nr j)))).
  2:{ intros i j Hi Hj. rewrite fdiv_fin by (apply Hcol; exact Hj).
      reflexivity. }
  rewrite (@tabulate_ext _ nr nc
             (fun i j => fmul (Fin (prob c nr nc i j)) (fdiv _ _))
             (fun i j => Fin (prob c nr nc i j
                              * (cnt c i j / rowsum c nc i)))).
  2:{ intros i j Hi Hj. rewrite fdiv_fin by (apply Hrow; exact Hi).
      reflexivity. }
  rewrite !msum_tabulate.
  fold (precision_val c nr nc). fold (recall_val c nr nc).
  cbn [fmul fadd lift2]. rewrite fdiv_fin by exact Hpr. reflexivity.
Qed.

Lemma tau_tabulate (ref_labels sys_labels : list Z) :
  (0 < nr)%nat ->
  total c nr nc <> 0 ->
  (forall i, (i < nr)%nat -> rmarg c nr nc i <> 0) ->
  (forall j, (j < nc)%nat -> smarg c nr nc j <> 0) ->
  vy c nr nc <> 0 ->
  vx c nr nc <> 0 ->
  goodman_kruskal_tau ref_labels sys_labels (Some (tabulate nr nc c)) =
  Ok (Fin (tau_ref_sys_val c nr nc), Fin (tau_sys_ref_val c nr nc)).
Proof.
  intros Hnr Ht Hrow Hcol Hvy Hvx.
  unfold goodman_kruskal_tau, get_cm. cbn [bind].
  rewrite (normalized_tabulate Ht).
  rewrite square_tabulate.
  rewrite (@tabulate_ext _ nr nc
             (fun i j => fmul (Fin (prob c nr nc i j))
                              (Fin (prob c nr nc i j)))
             (fun i j => Fin (prob c nr nc i j * prob c nr nc i j)))
    by reflexivity.
  rewrite !(sum_axis0_tabulate nr nc _ Hnr), !sum_axis1_tabulate.
  rewrite !map_map, !zip_with_maps.
  rewrite (@fsum_map_fin nc _ (fun j => smarg c nr nc j * smarg c nr nc j))
    by reflexivity.
  rewrite (@fsum_map_fin nr _
             (fun i => rsum nc (fun j => prob c nr nc i j * prob c nr nc i j)
                       / rmarg c nr nc i)).
  2:{ intros i Hi. apply fdiv_fin. apply Hrow. exact Hi. }
  rewrite (@fsum_map_fin nr _ (fun i => rmarg c nr nc i * rmarg c nr nc i))
    by reflexivity.
  rewrite (@fsum_map_fin nc _
             (fun j => rsum nr (fun i => prob c nr nc i j * prob c nr nc i j)
                       / smarg c nr nc j)).
  2:{ intros j Hj. apply fdiv_fin. apply Hcol. exact Hj. }
  cbn [fsub fadd lift2].
  fold (vy c nr nc). fold (vx c nr nc).
  fold (vy_bar_x c nr nc). fold (vx_bar_y c nr nc).
  rewrite !fdiv_fin by assumption. reflexivity.
Qed.

End MetricValues.


(** ** Matrices with positive marginals *)

Section PositiveMarginals.

Import Metrics MatrixSpec RealSpec.
Local Open Scope R_scope.

Lemma cnt_nonneg (c : nat -> nat -> nat) (i j : nat) : 0 <= cnt c i j.
Proof. apply pos_INR. Qed.

Lemma cnt_le_rowsum (c : nat -> nat -> nat) (nc i j : nat) :
  (j < nc)%nat -> cnt c i j <= rowsum c nc i.
Proof.
  intros Hj. unfold rowsum.
  apply (rsum_term_le nc (fun j => cnt c i j)); [|exact Hj].
  intros; apply cnt_nonneg.
Qed.

Lemma cnt_le_colsum (c : nat -> nat -> nat) (nr i j : nat) :
  (i < nr)%nat -> cnt c i j <= colsum c nr j.
Proof.
  intros Hi. unfold colsum.
  apply (rsum_term_le nr (fun i => cnt c i j)); [|exact Hi].
  intros; apply cnt_nonneg.
Qed.

Lemma total_cols (c : nat -> nat -> nat) (nr nc : nat) :
  total c nr nc = rsum nc (colsum c nr).
Proof. unfold total, colsum. apply rsum_exchange. Qed.

Lemma total_pos (c : nat -> nat -> nat) (nr nc : nat) :
  pos_marg c nr nc -> 0 < total c nr nc.
Proof.
  intros (Hnr & Hrow & _). unfold total.
  apply (rsum_pos nr (fun i => rsum nc (cnt c i)) 0%nat).
  - intros i Hi. apply Rlt_le. now apply Hrow.
  - exact Hnr.
  - now apply Hrow.
Qed.

Lemma nc_pos (c : nat -> nat -> nat) (nr nc : nat) :
  pos_marg c nr nc -> (0 < nc)%nat.
Proof.
  intros (Hnr & Hrow & _). destruct nc as [|n]; [|lia].
  pose proof (Hrow 0%nat Hnr) as H. unfold rowsum in H.
  rewrite rsum_0 in H. lra.
Qed.

Lemma prob_nonneg (c : nat -> nat -> nat) (nr nc i j : nat) :
  pos_marg c nr nc -> 0 <= prob c nr nc i j.
Proof.
  intros H. unfold prob. apply Rmult_le_pos; [apply cnt_nonneg|].
  apply Rlt_le, Rinv_0_lt_compat, total_pos, H.
Qed.

Lemma rmarg_eq (c : nat -> nat -> nat) (nr nc i : nat) :
  rmarg c nr nc i = rowsum c nc i / total c nr nc.
Proof. unfold rmarg, prob, rowsum, Rdiv. apply rsum_scal_r. Qed.

Lemma smarg_eq (c : nat -> nat -> nat) (nr nc j : nat) :
  smarg c nr nc j = colsum c nr j / total c nr nc.
Proof. unfold smarg, prob, colsum, Rdiv. apply rsum_scal_r. Qed.

Lemma rmarg_pos (c : nat -> nat -> nat) (nr nc i : nat) :
  pos_marg c nr nc -> (i < nr)%nat -> 0 < rmarg c nr nc i.
Proof.
  intros H Hi. rewrite rmarg_eq. apply Rdiv_lt_0_compat;
    [now apply H | now apply total_pos].
Qed.

Lemma smarg_pos (c : nat -> nat -> nat) (nr nc j : nat) :
  pos_marg c nr nc -> (j < nc)%nat -> 0 < smarg c nr nc j.
Proof.
  intros H Hj. rewrite smarg_eq. apply Rdiv_lt_0_compat;
    [now apply H | now apply total_pos].
Qed.

Lemma prob_sum (c : nat -> nat -> nat) (nr nc : nat) :
  pos_marg c nr nc -> rsum nr (fun i => rsum nc (prob c nr nc i)) = 1.
Proof.
  intros H. unfold prob, Rdiv.
  rewrite (rsum_ext nr _ (fun i => rsum nc (cnt c i) * / total c nr nc))
    by (intros; apply rsum_scal_r).
  rewrite rsum_scal_r. fold (total c nr nc).
  apply Rinv_r. pose proof (total_pos c nr nc H). lra.
Qed.

Lemma rmarg_sum (c : nat -> nat -> nat) (nr nc : nat) :
  pos_marg c nr nc -> rsum nr (rmarg c nr nc) = 1.
Proof. exact (prob_sum c nr nc). Qed.

Lemma smarg_sum (c : nat -> nat -> nat) (nr nc : nat) :
  pos_marg c nr nc -> rsum nc (smarg c nr nc) = 1.
Proof.
  intros H. unfold smarg. rewrite <- rsum_exchange. now apply prob_sum.
Qed.

Lemma prob_le_rmarg (c : nat -> nat -> nat) (nr nc i j : nat) :
  pos_marg c nr nc -> (j < nc)%nat -> prob c nr nc i j <= rmarg c nr nc i.
Proof.
  intros H Hj. unfold rmarg.
  apply (rsum_term_le nc (fun j => prob c nr nc i j)); [|exact Hj].
  intros; now apply prob_nonneg.
Qed.

Lemma prob_le_smarg (c : nat -> nat -> nat) (nr nc i j : nat) :
  pos_marg c nr nc -> (i < nr)%nat -> prob c nr nc i j <= smarg c nr nc j.
Proof.
  intros H Hi. unfold smarg.
  apply (rsum_term_le nr (fun i => prob c nr nc i j)); [|exact Hi].
  intros; now apply prob_nonneg.
Qed.

Lemma rmarg_le_one (c : nat -> nat -> nat) (nr nc i : nat) :
  pos_marg c nr nc -> (i < nr)%nat -> rmarg c nr nc i <= 1.
Proof.
  intros H Hi. rewrite <- (rmarg_sum c nr nc H).
  apply (rsum_term_le nr (rmarg c nr nc)); [|exact Hi].
  intros k Hk. apply Rlt_le. now apply rmarg_pos.
Qed.

Lemma smarg_le_one (c : nat -> nat -> nat) (nr nc j : nat) :
  pos_marg c nr nc -> (j < nc)%nat -> smarg c nr nc j <= 1.
Proof.
  intros H Hj. rewrite <- (smarg_sum c nr nc H).
  apply (rsum_term_le nc (smarg c nr nc)); [|exact Hj].
  intros k Hk. apply Rlt_le. now apply smarg_pos.
Qed.

Lemma some_cell_pos (c : nat -> nat -> nat) (nr nc : nat) :
  pos_marg c nr nc ->
  exists i j, (i < nr)%nat /\ (j < nc)%nat /\ 0 < cnt c i j.
Proof.
  intros (Hnr & Hrow & _).
  destruct (rsum_pos_exists nc (cnt c 0%nat)) as (j & Hj & Hp).
  - intros; apply cnt_nonneg.
  - now apply Hrow.
  - exists 0%nat, j. auto.
Qed.

(** *** Transposition *)

Lemma pos_marg_transpose (c : nat -> nat -> nat) (nr nc : nat) :
  pos_marg c nr nc -> pos_marg (transpose c) nc nr.
Proof.
  intros H. pose proof (nc_pos c nr nc H) as Hnc.
  destruct H as (Hnr & Hrow & Hcol).
  split; [exact Hnc|]. split; [exact Hcol | exact Hrow].
Qed.

Lemma total_transpose (c : nat -> nat -> nat) (nr nc : nat) :
  total (transpose c) nc nr = total c nr nc.
Proof. unfold total, transpose, cnt. apply rsum_exchange. Qed.

Lemma prob_transpose (c : nat -> nat -> nat) (nr nc i j : nat) :
  prob (transpose c) nc nr j i = prob c nr nc i j.
Proof. unfold prob. now rewrite total_transpose. Qed.

Lemma rmarg_transpose (c : nat -> nat -> nat) (nr nc j : nat) :
  rmarg (transpose c) nc nr j = smarg c nr nc j.
Proof.
  unfold rmarg, smarg. apply rsum_ext. intros i _. apply prob_transpose.
Qed.

Lemma smarg_transpose (c : nat -> nat -> nat) (nr nc i : nat) :
  smarg (transpose c) nc nr i = rmarg c nr nc i.
Proof.
  unfold rmarg, smarg. apply rsum_ext. intros j _. apply prob_transpose.
Qed.

End PositiveMarginals.

(** ** Bounds of B-cubed and of Goodman-Kruskal tau *)

Section Bounds.

Import Metrics MatrixSpec RealSpec.
Local Open Scope R_scope.

Lemma EPS_pos : 0 < EPS.
Proof. unfold EPS. apply Rinv_0_lt_compat, pow_lt. lra. Qed.

(** Cauchy-Schwarz with weights [y] that sum to one. *)
Lemma weighted_square (n : nat) (x y : nat -> R) (t : R) :
  (forall i, (i < n)%nat -> 0 < y i) ->
  rsum n (fun i => y i * ((x i / y i - t) * (x i / y i - t))) =
  rsum n (fun i => x i * x i / y i) - 2 * t * rsum n x + t * t * rsum n y.
Proof.
  induction n as [|n IH]; intros H.
  - rewrite !rsum_0. lra.
  - rewrite !rsum_S, IH by (intros; apply H; lia).
    assert (y n <> 0) by (pose proof (H n ltac:(lia)); lra).
    field. assumption.
Qed.

Lemma sum_square_le (n : nat) (x y : nat -> R) :
  (forall i, (i < n)%nat -> 0 < y i) ->
  rsum n y = 1 ->
  rsum n x * rsum n x <= rsum n (fun i => x i * x i / y i).
Proof.
  intros Hy H1.
  pose proof (weighted_square n x y (rsum n x) Hy) as E. rewrite H1 in E.
  assert (0 <= rsum n (fun i => y i * ((x i / y i - rsum n x)
                                       * (x i / y i - rsum n x)))).
  { apply rsum_nonneg. intros i Hi. apply Rmult_le_pos.
    - apply Rlt_le. now apply Hy.
    - apply Rle_0_sqr. }
  lra.
Qed.

Lemma Rdiv_le_l (a b c : R) : 0 < b -> a <= c * b -> a / b <= c.
Proof.
  intros Hb H. unfold Rdiv. apply Rmult_le_reg_r with b; [exact Hb|].
  rewrite Rmult_assoc, Rinv_l by lra. lra.
Qed.

Lemma ratio_bounds (a b : R) : 0 <= a -> a <= b -> 0 < b -> 0 <= a / b <= 1.
Proof.
  intros Ha Hab Hb. split.
  - apply Rmult_le_pos; [exact Ha|]. apply Rlt_le, Rinv_0_lt_compat, Hb.
  - apply Rdiv_le_l; [exact Hb|]. lra.
Qed.

Lemma precision_bounds (c : nat -> nat -> nat) (nr nc : nat) :
  pos_marg c nr nc -> 0 < precision_val c nr nc <= 1.
Proof.
  intros H. pose proof (total_pos c nr nc H) as Ht.
  pose proof H as (Hnr & Hrow & Hcol).
  assert (T : forall i j, (i < nr)%nat -> (j < nc)%nat ->
            0 <= cnt c i j / colsum c nr j <= 1).
  { intros i j Hi Hj. apply ratio_bounds;
      [apply cnt_nonneg | now apply cnt_le_colsum | now apply Hcol]. }
  unfold precision_val. split.
  - destruct (some_cell_pos c nr nc H) as (i0 & j0 & Hi0 & Hj0 & Hc).
    apply (rsum_pos nr _ i0); [|exact Hi0|].
    + intros i Hi. apply rsum_nonneg. intros j Hj.
      apply Rmult_le_pos; [now apply prob_nonneg | now apply T].
    + apply (rsum_pos nc _ j0); [|exact Hj0|].
      * intros j Hj.
        apply Rmult_le_pos; [now apply prob_nonneg | now apply T].
      * apply Rmult_lt_0_compat.
        -- unfold prob. now apply Rdiv_lt_0_compat.
        -- apply Rdiv_lt_0_compat; [exact Hc | now apply Hcol].
  - rewrite <- (prob_sum c nr nc H). apply rsum_le. intros i Hi.
    apply rsum_le. intros j Hj.
    pose proof (prob_nonneg c nr nc i j H). pose proof (T i j Hi Hj). nra.
Qed.

Lemma recall_bounds (c : nat -> nat -> nat) (nr nc : nat) :
  pos_marg c nr nc -> 0 < recall_val c nr nc <= 1.
Proof.
  intros H. pose proof (total_pos c nr nc H) as Ht.
  pose proof H as (Hnr & Hrow & Hcol).
  assert (T : forall i j, (i < nr)%nat -> (j < nc)%nat ->
            0 <= cnt c i j / rowsum c nc i <= 1).
  { intros i j Hi Hj. apply ratio_bounds;
      [apply cnt_nonneg | now apply cnt_le_rowsum | now apply Hrow]. }
  unfold recall_val. split.
  - destruct (some_cell_pos c nr nc H) as (i0 & j0 & Hi0 & Hj0 & Hc).
    apply (rsum_pos nr _ i0); [|exact Hi0|].
    + intros i Hi. apply rsum_nonneg. intros j Hj.
      apply Rmult_le_pos; [now apply prob_nonneg | now apply T].
    + apply (rsum_pos nc _ j0); [|exact Hj0|].
      * intros j Hj.
        apply Rmult_le_pos; [now apply prob_nonneg | now apply T].
      * apply Rmult_lt_0_compat.
        -- unfold prob. now apply Rdiv_lt_0_compat.
        -- apply Rdiv_lt_0_compat; [exact Hc | now apply Hrow].
  - rewrite <- (prob_sum c nr nc H). apply rsum_le. intros i Hi.
    apply rsum_le. intros j Hj.
    pose proof (prob_nonneg c nr nc i j H). pose proof (T i j Hi Hj). nra.
Qed.

Lemma f1_bounds (c : nat -> nat -> nat) (nr nc : nat) :
  pos_marg c nr nc -> 0 < f1_val c nr nc <= 1.
Proof.
  intros H.
  pose proof (precision_bounds c nr nc H) as [Hp Hp1].
  pose proof (recall_bounds c nr nc H) as [Hr Hr1].
  unfold f1_val.
  set (P := precision_val c nr nc) in *. set (Q := recall_val c nr nc) in *.
  split.
  - apply Rdiv_lt_0_compat; nra.
  - apply Rdiv_le_l; nra.
Qed.

(** *** Goodman-Kruskal tau *)

Lemma vy_lower (c : nat -> nat -> nat) (nr nc : nat) :
  pos_marg c nr nc -> EPS <= vy c nr nc.
Proof.
  intros H. unfold vy.
  assert (rsum nc (fun j => smarg c nr nc j * smarg c nr nc j) <= 1).
  { rewrite <- (smarg_sum c nr nc H). apply rsum_le. intros j Hj.
    pose proof (smarg_pos c nr nc j H Hj).
    pose proof (smarg_le_one c nr nc j H Hj). nra. }
  lra.
Qed.

Lemma within_rows_le (c : nat -> nat -> nat) (nr nc : nat) :
  pos_marg c nr nc ->
  rsum nr (fun i => rsum nc (fun j => prob c nr nc i j * prob c nr nc i j)
                    / rmarg c nr nc i) <= 1.
Proof.
  intros H. rewrite <- (rmarg_sum c nr nc H). apply rsum_le. intros i Hi.
  pose proof (rmarg_pos c nr nc i H Hi) as Hr.
  apply Rdiv_le_l; [exact Hr|].
  unfold rmarg at 1. rewrite <- rsum_scal_r. apply rsum_le. intros j Hj.
  pose proof (prob_nonneg c nr nc i j H).
  pose proof (prob_le_rmarg c nr nc i j H Hj). nra.
Qed.

Lemma within_rows_ge (c : nat -> nat -> nat) (nr nc : nat) :
  pos_marg c nr nc ->
  rsum nc (fun j => smarg c nr nc j * smarg c nr nc j) <=
  rsum nr (fun i => rsum nc (fun j => prob c nr nc i j * prob c nr nc i j)
                    / rmarg c nr nc i).
Proof.
  intros H.
  rewrite (rsum_ext nr _
    (fun i => rsum nc (fun j => prob c nr nc i j * prob c nr nc i j
                                / rmarg c nr nc i)))
    by (intros i Hi; unfold Rdiv; now rewrite rsum_scal_r).
  rewrite rsum_exchange. apply rsum_le. intros j Hj.
  unfold smarg at 1 2.
  apply (sum_square_le nr (fun i => prob c nr nc i j) (rmarg c nr nc)).
  - intros i Hi. now apply rmarg_pos.
  - now apply rmarg_sum.
Qed.

Lemma tau_ref_sys_bounds (c : nat -> nat -> nat) (nr nc : nat) :
  pos_marg c nr nc -> 0 < tau_ref_sys_val c nr nc <= 1.
Proof.
  intros H. pose proof EPS_pos as He.
  pose proof (vy_lower c nr nc H) as Hv.
  pose proof (within_rows_le c nr nc H) as Hle.
  pose proof (within_rows_ge c nr nc H) as Hge.
  unfold tau_ref_sys_val.
  assert (D : EPS <= vy c nr nc - vy_bar_x c nr nc <= vy c nr nc).
  { unfold vy, vy_bar_x in *. lra. }
  split.
  - apply Rdiv_lt_0_compat; lra.
  - apply Rdiv_le_l; lra.
Qed.

Lemma vy_transpose (c : nat -> nat -> nat) (nr nc : nat) :
  vy (transpose c) nc nr = vx c nr nc.
Proof.
  unfold vy, vx. do 2 f_equal. apply rsum_ext. intros i _.
  now rewrite smarg_transpose.
Qed.

Lemma vy_bar_x_transpose (c : nat -> nat -> nat) (nr nc : nat) :
  vy_bar_x (transpose c) nc nr = vx_bar_y c nr nc.
Proof.
  unfold vy_bar_x, vx_bar_y. f_equal. apply rsum_ext. intros j _.
  rewrite rmarg_transpose. f_equal. apply rsum_ext. intros i _.
  now rewrite prob_transpose.
Qed.

Lemma tau_transpose (c : nat -> nat -> nat) (nr nc : nat) :
  tau_ref_sys_val (transpose c) nc nr = tau_sys_ref_val c nr nc.
Proof.
  unfold tau_ref_sys_val, tau_sys_ref_val.
  now rewrite vy_transpose, vy_bar_x_transpose.
Qed.

Lemma tau_sys_ref_bounds (c : nat -> nat -> nat) (nr nc : nat) :
  pos_marg c nr nc -> 0 < tau_sys_ref_val c nr nc <= 1.
Proof.
  intros H. rewrite <- tau_transpose.
  apply tau_ref_sys_bounds. now apply pos_marg_transpose.
Qed.

End Bounds.

(** ** From matrices to tables *)

Section MatrixValues.

Import Metrics MatrixSpec RealSpec.
Local Open Scope R_scope.

Lemma Forall_map_seq (n : nat) (f : nat -> nat) (P : nat -> Prop) :
  Forall P (map f (seq 0 n)) -> forall i, (i < n)%nat -> P (f i).
Proof.
  intros H i Hi. rewrite Forall_forall in H. apply H.
  apply in_map. apply in_seq. lia.
Qed.

Lemma positive_marginals_table (nr nc : nat) (cm : matrix) :
  positive_marginals nr nc cm ->
  cm = tabulate nr nc (cell cm) /\ pos_marg (cell cm) nr nc.
Proof.
  intros (Hrect & Hnr & Hr & Hc).
  pose proof (@rect_tabulate nr nc cm Hrect) as E.
  split; [exact E|].
  remember (cell cm) as c eqn:Ec. clear Ec.
  rewrite E in Hr, Hc.
  rewrite isum_axis1_tabulate in Hr.
  rewrite (@isum_axis0_tabulate nr nc c Hnr) in Hc.
  split; [exact Hnr|]. split.
  - intros i Hi. unfold rowsum, cnt. rewrite <- rsum_INR.
    apply lt_0_INR.
    exact (Forall_map_seq nr (fun i => nsum nc (c i)) _ Hr i Hi).
  - intros j Hj. unfold colsum, cnt. rewrite <- rsum_INR.
    apply lt_0_INR.
    exact (Forall_map_seq nc (fun j => nsum nr (fun i => c i j)) _ Hc j Hj).
Qed.

Lemma vx_lower (c : nat -> nat -> nat) (nr nc : nat) :
  pos_marg c nr nc -> EPS <= vx c nr nc.
Proof.
  intros H. rewrite <- vy_transpose. apply vy_lower.
  now apply pos_marg_transpose.
Qed.

(** The value of B-cubed on a matrix with positive marginals. *)
Lemma bcubed_value (nr nc : nat) (cm : matrix)
      (ref_labels sys_labels : list Z) :
  positive_marginals nr nc cm ->
  bcubed ref_labels sys_labels (Some cm) =
  Ok (Fin (precision_val (cell cm) nr nc), Fin (recall_val (cell cm) nr nc),
      Fin (f1_val (cell cm) nr nc)).
Proof.
  intros H. destruct (positive_marginals_table nr nc cm H) as [E Hp].
  rewrite E at 1.
  pose proof (total_pos _ _ _ Hp).
  pose proof (precision_bounds _ _ _ Hp).
  pose proof (recall_bounds _ _ _ Hp).
  destruct Hp as (Hnr & Hrow & Hcol).
  apply bcubed_tabulate; try lra; try exact Hnr.
  - intros i Hi. pose proof (Hrow i Hi). lra.
  - intros j Hj. pose proof (Hcol j Hj). lra.
Qed.

(** The value of Goodman-Kruskal tau on a matrix with positive marginals. *)
Lemma tau_value (nr nc : nat) (cm : matrix) (ref_labels sys_labels : list Z) :
  positive_marginals nr nc cm ->
  goodman_kruskal_tau ref_labels sys_labels (Some cm) =
  Ok (Fin (tau_ref_sys_val (cell cm) nr nc),
      Fin (tau_sys_ref_val (cell cm) nr nc)).
Proof.
  intros H. destruct (positive_marginals_table nr nc cm H) as [E Hp].
  rewrite E at 1.
  pose proof (total_pos _ _ _ Hp).
  pose proof (vy_lower _ _ _ Hp). pose proof (vx_lower _ _ _ Hp).
  pose proof EPS_pos.
  apply tau_tabulate; try lra; try apply Hp.
  - intros i Hi. pose proof (rmarg_pos _ _ _ i Hp Hi). lra.
  - intros j Hj. pose proof (smarg_pos _ _ _ j Hp Hj). lra.
Qed.

End MatrixValues.

(** ** A side with a single class *)

Section SingleClass.

Import Metrics MatrixSpec RealSpec.
Local Open Scope R_scope.

Lemma rsum_1 (f : nat -> R) : rsum 1 f = f 0%nat.
Proof. rewrite rsum_S, rsum_0. lra. Qed.

(** One system class: tau(ref, sys) is EPS / EPS, and tau(sys, ref) has the
    numerator EPS. *)
Lemma tau_single_sys_class (c : nat -> nat -> nat) (nr : nat) :
  pos_marg c nr 1 ->
  tau_ref_sys_val c nr 1 = 1 /\
  tau_sys_ref_val c nr 1 = EPS / vx c nr 1.
Proof.
  intros H. pose proof EPS_pos as He.
  assert (S0 : smarg c nr 1 0%nat = 1).
  { rewrite <- (smarg_sum c nr 1 H). now rewrite rsum_1. }
  assert (R0 : forall i, rmarg c nr 1 i = prob c nr 1 i 0%nat).
  { intros i. unfold rmarg. apply rsum_1. }
  assert (P1 : rsum nr (fun i => prob c nr 1 i 0%nat) = 1) by exact S0.
  split.
  - unfold tau_ref_sys_val, vy, vy_bar_x. rewrite rsum_1, S0.
    rewrite (rsum_ext nr _ (fun i => prob c nr 1 i 0%nat)).
    + rewrite P1. field. lra.
    + intros i Hi. rewrite rsum_1, R0.
      pose proof (rmarg_pos c nr 1 i H Hi) as Hp. rewrite R0 in Hp.
      field. lra.
  - unfold tau_sys_ref_val. f_equal.
    unfold vx, vx_bar_y. rewrite rsum_1, S0.
    rewrite (rsum_ext nr (fun i => rmarg c nr 1 i * rmarg c nr 1 i)
               (fun i => prob c nr 1 i 0%nat * prob c nr 1 i 0%nat))
      by (intros i _; now rewrite R0).
    lra.
Qed.

Lemma tau_transpose' (c : nat -> nat -> nat) (nr nc : nat) :
  tau_sys_ref_val (transpose c) nc nr = tau_ref_sys_val c nr nc.
Proof.
  rewrite <- (tau_transpose (transpose c) nc nr). reflexivity.
Qed.

Lemma vx_transpose (c : nat -> nat -> nat) (nr nc : nat) :
  vx (transpose c) nc nr = vy c nr nc.
Proof.
  rewrite <- (vy_transpose (transpose c) nc nr). reflexivity.
Qed.

(** One reference class: the mirror image. *)
Lemma tau_single_ref_class (c : nat -> nat -> nat) (nc : nat) :
  pos_marg c 1 nc ->
  tau_sys_ref_val c 1 nc = 1 /\
  tau_ref_sys_val c 1 nc = EPS / vy c 1 nc.
Proof.
  intros H.
  destruct (tau_single_sys_class (transpose c) nc
              (pos_marg_transpose c 1 nc H)) as [A B].
  rewrite tau_transpose in A. rewrite tau_transpose', vx_transpose in B.
  split; assumption.
Qed.

End SingleClass.

Section SingleClassClaims.

Import Metrics MatrixSpec RealSpec.
Local Open Scope R_scope.

(** In the real-number reading the machine epsilon makes the quotient of
    tau(ref, sys) on a single system class well defined, and its value is
    EPS / EPS = 1; the other direction is EPS / (1 - sum of the squared
    reference marginals + EPS).  With a single reference class the two
    directions change places. *)
Lemma single_class_tau_real (nr nc : nat) (cm : matrix)
      (ref_labels sys_labels : list Z) :
  positive_marginals nr nc cm ->
  (nc = 1%nat ->
   goodman_kruskal_tau ref_labels sys_labels (Some cm) =
   Ok (Fin 1, Fin (EPS / vx (cell cm) nr nc))) /\
  (nr = 1%nat ->
   goodman_kruskal_tau ref_labels sys_labels (Some cm) =
   Ok (Fin (EPS / vy (cell cm) nr nc), Fin 1)).
Proof.
  intros H. rewrite (tau_value nr nc cm ref_labels sys_labels H).
  destruct (positive_marginals_table nr nc cm H) as [_ Hp].
  split; intros ->.
  - destruct (tau_single_sys_class _ _ Hp) as [-> ->]. reflexivity.
  - destruct (tau_single_ref_class _ _ Hp) as [-> ->]. reflexivity.
Qed.

(** C1, the failing inputs.  With a single system class the denominator of
    tau(ref, sys) is [1 - 1 + EPS = EPS] and the numerator is [EPS] minus
    the rounding error of [1 - sum(xy_term / ref_marginals)], which is of
    the size of EPS itself.  The source, run in binary64, returns
    tau(ref, sys) = 2.0 on the matrix [[1], [4]], 0.0 on [[6], [17]], 0.5 on
    [[3], [31]] and 1.0 on [[1]]: the value in the degenerate case is
    rounding noise divided by EPS, it is not 0 in general, and 2.0 lies
    outside the range "between 0 and 1" that the docstring of the function
    promises.  A single reference class does the same to tau(sys, ref)
    ([[1, 4]]).  The direction that the epsilon does not touch is of the
    size of EPS (below [2 ** -49]) on these matrices. *)
Theorem single_class_tau_binary64 :
  (exists t, Metrics64.goodman_kruskal_tau [] [] (Some [[1]; [4]]%nat) =
             Ok (2%float, t) /\
             PrimFloat.ltb t 0x1p-49%float = true) /\
  (exists t, Metrics64.goodman_kruskal_tau [] [] (Some [[6]; [17]]%nat) =
             Ok (0%float, t) /\
             PrimFloat.ltb t 0x1p-49%float = true) /\
  (exists t, Metrics64.goodman_kruskal_tau [] [] (Some [[3]; [31]]%nat) =
             Ok (0.5%float, t) /\
             PrimFloat.ltb t 0x1p-49%float = true) /\
  (exists t, Metrics64.goodman_kruskal_tau [] [] (Some [[1; 4]]%nat) =
             Ok (t, 2%float) /\
             PrimFloat.ltb t 0x1p-49%float = true) /\
  Metrics64.goodman_kruskal_tau [] [] (Some [[1]]%nat) =
    Ok (1%float, 1%float) /\
  PrimFloat.leb 2%float 1%float = false.
Proof.
  repeat split; try (eexists; split); vm_compute; reflexivity.
Qed.

End SingleClassClaims.

(** ** Logarithms *)

Section Logs.

Import Metrics RealSpec.
Local Open Scope R_scope.

Lemma log_eq (nats : bool) (x : R) : log nats x = log_k nats * ln x.
Proof. unfold log, log_k. destruct nats; [lra|]. unfold Rdiv. lra. Qed.

Lemma log_k_pos (nats : bool) : 0 < log_k nats.
Proof.
  unfold log_k. destruct nats; [lra|].
  apply Rinv_0_lt_compat. pose proof ln_lt_2. lra.
Qed.

Lemma ln_le_sub (x : R) : 0 < x -> ln x <= x - 1.
Proof.
  intros Hx. pose proof (exp_ineq1_le (x - 1)) as H.
  replace (1 + (x - 1)) with x in H by lra.
  destruct (Rle_lt_dec (ln x) (x - 1)) as [L|L]; [exact L|].
  apply exp_increasing in L. rewrite exp_ln in L by exact Hx. lra.
Qed.

Lemma ln_mono (x y : R) : 0 < x -> x <= y -> ln x <= ln y.
Proof.
  intros Hx [H| ->]; [|lra]. apply Rlt_le. now apply ln_increasing.
Qed.

Lemma log_mult (nats : bool) (x y : R) :
  0 < x -> 0 < y -> log nats (x * y) = log nats x + log nats y.
Proof. intros Hx Hy. rewrite !log_eq, ln_mult by assumption. lra. Qed.

Lemma log_div (nats : bool) (x y : R) :
  0 < x -> 0 < y -> log nats (x / y) = log nats x - log nats y.
Proof.
  intros Hx Hy. unfold Rdiv.
  rewrite log_mult by (try assumption; now apply Rinv_0_lt_compat).
  rewrite (log_eq nats (/ y)), ln_Rinv, (log_eq nats y) by assumption. lra.
Qed.

Lemma log_mono (nats : bool) (x y : R) :
  0 < x -> x <= y -> log nats x <= log nats y.
Proof.
  intros Hx H. rewrite !log_eq. apply Rmult_le_compat_l.
  - apply Rlt_le, log_k_pos.
  - now apply ln_mono.
Qed.

Lemma log_1 (nats : bool) : log nats 1 = 0.
Proof. rewrite log_eq, ln_1. lra. Qed.

Lemma log_nonpos (nats : bool) (x : R) : 0 < x -> x <= 1 -> log nats x <= 0.
Proof.
  intros Hx H. rewrite <- (log_1 nats). now apply log_mono.
Qed.

Lemma log_le_sub (nats : bool) (x : R) :
  0 < x -> log nats x <= log_k nats * (x - 1).
Proof.
  intros Hx. rewrite log_eq. apply Rmult_le_compat_l.
  - apply Rlt_le, log_k_pos.
  - now apply ln_le_sub.
Qed.

End Logs.

(** ** The values of the entropies *)

Section EntropyValues.

Import Metrics MatrixSpec RealSpec.
Local Open Scope R_scope.

Lemma fsum_app_fin (l1 l2 : list float) (a b : R) :
  fsum l1 = Fin a -> fsum l2 = Fin b -> fsum (l1 ++ l2) = Fin (a + b).
Proof.
  revert a; induction l1 as [|x l1 IH]; intros a H1 H2; simpl in *.
  - injection H1 as <-. rewrite H2. f_equal. lra.
  - destruct x as [x0|]; [|discriminate].
    destruct (fsum l1) as [a'|] eqn:E; [|discriminate].
    simpl in H1. injection H1 as <-.
    rewrite (IH a' eq_refl H2). simpl. f_equal. lra.
Qed.

Lemma fsum_nonzero_row (c : nat -> nat -> nat) (T : nat * nat * nat -> float)
      (t : nat -> nat -> R) (i m : nat) :
  forall s,
    (forall j, (s <= j < s + m)%nat -> c i j <> 0%nat ->
               T (i, j, c i j) = Fin (t i j)) ->
    fsum (map T (nonzero_row i s (map (c i) (seq s m)))) =
    Fin (fold_right Rplus 0
           (map (fun j => if c i j =? 0 then 0 else t i j) (seq s m))).
Proof.
  induction m as [|m IH]; intros s H; simpl; [reflexivity|].
  destruct (Nat.eqb_spec (c i s) 0) as [E|E].
  - rewrite IH by (intros j Hj; apply H; lia). f_equal. lra.
  - simpl. rewrite IH by (intros j Hj; apply H; lia).
    rewrite (H s ltac:(lia) E). reflexivity.
Qed.

(** A sum over the non-zero cells is a sum over all cells. *)
Lemma fsum_nonzero (c : nat -> nat -> nat) (T : nat * nat * nat -> float)
      (t : nat -> nat -> R) (nr nc : nat) :
  (forall i j, (i < nr)%nat -> (j < nc)%nat -> c i j <> 0%nat ->
               T (i, j, c i j) = Fin (t i j)) ->
  fsum (map T (nonzero (tabulate nr nc c))) =
  Fin (rsum nr (fun i => rsum nc (fun j =>
         if c i j =? 0 then 0 else t i j))).
Proof.
  intros H. unfold nonzero, tabulate, rsum.
  assert (G : forall n s, (s + n <= nr)%nat ->
    fsum (map T (nonzero_from s
                   (map (fun i => map (c i) (seq 0 nc)) (seq s n)))) =
    Fin (fold_right Rplus 0
           (map (fun i => fold_right Rplus 0
                   (map (fun j => if c i j =? 0 then 0 else t i j)
                        (seq 0 nc)))
                (seq s n)))).
  { induction n as [|n IH]; intros s Hs; simpl; [reflexivity|].
    rewrite map_app.
    apply fsum_app_fin.
    - apply fsum_nonzero_row. intros j Hj. apply H; lia.
    - apply IH. lia. }
  apply G. lia.
Qed.

Variable c : nat -> nat -> nat.
Variables nr nc : nat.
Hypothesis Hp : pos_marg c nr nc.

Lemma isum_INR : INR (isum (tabulate nr nc c)) = total c nr nc.
Proof.
  rewrite isum_tabulate, rsum_INR. unfold total. apply rsum_ext.
  intros i _. apply rsum_INR.
Qed.

Lemma row_INR (i : nat) :
  (i < nr)%nat ->
  INR (nth i (isum_axis1 (tabulate nr nc c)) 0%nat) = rowsum c nc i.
Proof.
  intros Hi. rewrite isum_axis1_tabulate.
  rewrite (nth_map_seq (fun i => nsum nc (c i)) 0%nat Hi).
  apply rsum_INR.
Qed.

Lemma col_INR (j : nat) :
  (j < nc)%nat ->
  INR (nth j (isum_axis0 (tabulate nr nc c)) 0%nat) = colsum c nr j.
Proof.
  intros Hj. rewrite (@isum_axis0_tabulate nr nc c (proj1 Hp)).
  rewrite (nth_map_seq (fun j => nsum nr (fun i => c i j)) 0%nat Hj).
  apply rsum_INR.
Qed.

Lemma cols_INR :
  INR (sum_nat (isum_axis0 (tabulate nr nc c))) = total c nr nc.
Proof.
  rewrite (@isum_axis0_tabulate nr nc c (proj1 Hp)).
  change (sum_nat (map (fun j => nsum nr (fun i => c i j)) (seq 0 nc)))
    with (nsum nc (fun j => nsum nr (fun i => c i j))).
  rewrite rsum_INR, total_cols. apply rsum_ext. intros j _.
  apply rsum_INR.
Qed.

Lemma flog_fin (nats : bool) (x : R) :
  0 < x -> flog nats (Fin x) = Fin (log nats x).
Proof.
  intros H. unfold flog. destruct (Rlt_dec 0 x); [reflexivity|contradiction].
Qed.

Lemma cell_pos (i j : nat) : c i j <> 0%nat -> 0 < cnt c i j.
Proof. intros H. unfold cnt. apply lt_0_INR. lia. Qed.

Lemma conditional_entropy_tabulate (ref_labels sys_labels : list Z)
      (nats : bool) :
  conditional_entropy ref_labels sys_labels (Some (tabulate nr nc c)) nats =
  Ok (Fin (ce_val c nr nc nats)).
Proof.
  pose proof (total_pos c nr nc Hp) as Ht.
  unfold conditional_entropy, get_cm. cbn [bind]. f_equal.
  unfold ce_val. apply fsum_nonzero. intros i j Hi Hj Hc.
  unfold fint. rewrite cols_INR, isum_INR, (col_INR j Hj).
  pose proof (cell_pos i j Hc) as Hv.
  pose proof (cnt_le_colsum c nr i j Hi) as Hle.
  fold (cnt c i j).
  rewrite !flog_fin by lra.
  rewrite fdiv_fin by lra. reflexivity.
Qed.

End EntropyValues.

Section MutualInformationValue.

Import Metrics MatrixSpec RealSpec.
Local Open Scope R_scope.

Lemma filter_all (A : Type) (p : A -> bool) (l : list A) :
  (forall x, In x l -> p x = true) -> filter p l = l.
Proof.
  induction l as [|x l IH]; intros H; simpl; [reflexivity|].
  rewrite (H x) by now left. f_equal. apply IH. intros y Hy. apply H.
  now right.
Qed.

(** The local function [h] on a vector of positive probabilities. *)
Lemma h_fin (nats : bool) (n : nat) (p : nat -> R) :
  (forall i, (i < n)%nat -> 0 < p i) ->
  h nats (map (fun i => Fin (p i)) (seq 0 n)) =
  Fin (- rsum n (fun i => p i * log nats (p i))).
Proof.
  intros H. unfold h. rewrite filter_all.
  - rewrite map_map.
    rewrite (fsum_map_fin n _ (fun i => p i * log nats (p i))).
    + reflexivity.
    + intros i Hi. rewrite flog_fin by now apply H. reflexivity.
  - intros x Hx. apply in_map_iff in Hx as (i & <- & Hi).
    apply in_seq in Hi. unfold fpos.
    destruct (Rlt_dec 0 (p i)) as [|N]; [reflexivity|].
    exfalso. apply N. apply H. lia.
Qed.

Lemma entropy_nonneg (nats : bool) (n : nat) (p : nat -> R) :
  (forall i, (i < n)%nat -> 0 < p i <= 1) ->
  0 <= - rsum n (fun i => p i * log nats (p i)).
Proof.
  intros H.
  assert (rsum n (fun i => p i * log nats (p i)) <= 0).
  { rewrite <- (rsum_const0 n). apply rsum_le. intros i Hi.
    destruct (H i Hi) as [H0 H1].
    pose proof (log_nonpos nats (p i) H0 H1). nra. }
  lra.
Qed.

Variable c : nat -> nat -> nat.
Variables nr nc : nat.
Hypothesis Hp : pos_marg c nr nc.

Lemma row_ratio (i : nat) :
  (i < nr)%nat -> 0 < rowsum c nc i / total c nr nc <= 1.
Proof.
  intros Hi. rewrite <- rmarg_eq. split;
    [now apply rmarg_pos | now apply rmarg_le_one].
Qed.

Lemma col_ratio (j : nat) :
  (j < nc)%nat -> 0 < colsum c nr j / total c nr nc <= 1.
Proof.
  intros Hj. rewrite <- smarg_eq. split;
    [now apply smarg_pos | now apply smarg_le_one].
Qed.

Lemma h_ref_nonneg (nats : bool) : 0 <= h_ref_val c nr nc nats.
Proof. unfold h_ref_val. apply entropy_nonneg. apply row_ratio. Qed.

Lemma h_sys_nonneg (nats : bool) : 0 <= h_sys_val c nr nc nats.
Proof. unfold h_sys_val. apply entropy_nonneg. apply col_ratio. Qed.

Lemma nmi_denominator_pos (nats : bool) :
  0 < sqrt (h_ref_val c nr nc nats * h_sys_val c nr nc nats + EPS).
Proof.
  apply sqrt_lt_R0. pose proof EPS_pos.
  pose proof (h_ref_nonneg nats). pose proof (h_sys_nonneg nats). nra.
Qed.

Lemma mutual_information_tabulate (ref_labels sys_labels : list Z)
      (nats : bool) :
  mutual_information ref_labels sys_labels (Some (tabulate nr nc c)) nats =
  Ok (Fin (mi_val c nr nc nats), Fin (nmi_val c nr nc nats)).
Proof.
  pose proof (total_pos c nr nc Hp) as Ht.
  pose proof Hp as (Hnr & Hrow & Hcol).
  unfold mutual_information, get_cm. cbn [bind].
  assert (Emi :
    fsum (map (fun cell : nat * nat * nat =>
                 let '(i, j, v) := cell in
                 fmul (fdiv (fint v) (fint (isum (tabulate nr nc c))))
                   (fadd
                      (fsub (flog nats (fint v))
                         (flog nats
                            (fint (nth i (isum_axis1 (tabulate nr nc c)) 0
                                   * nth j (isum_axis0 (tabulate nr nc c)) 0)
                                  %nat)))
                      (flog nats (fint (isum (tabulate nr nc c))))))
              (nonzero (tabulate nr nc c))) = Fin (mi_val c nr nc nats)).
  { unfold mi_val, mi_term. apply fsum_nonzero. intros i j Hi Hj Hc.
    unfold fint. rewrite mult_INR.
    rewrite (isum_INR c nr nc), (row_INR c nr nc i Hi),
      (col_INR c nr nc Hp j Hj).
    pose proof (cell_pos c i j Hc) as Hv. fold (cnt c i j).
    pose proof (Hrow i Hi). pose proof (Hcol j Hj).
    rewrite !flog_fin by (try lra; now apply Rmult_lt_0_compat).
    rewrite fdiv_fin by lra. reflexivity. }
  rewrite Emi.
  assert (Er : map (fun m => fdiv (fint m) (fint (isum (tabulate nr nc c))))
                   (isum_axis1 (tabulate nr nc c)) =
               map (fun i => Fin (rowsum c nc i / total c nr nc)) (seq 0 nr)).
  { rewrite isum_axis1_tabulate, map_map. apply map_ext_in. intros i Hi.
    unfold fint. rewrite (isum_INR c nr nc), rsum_INR.
    apply fdiv_fin. lra. }
  assert (Es : map (fun m => fdiv (fint m) (fint (isum (tabulate nr nc c))))
                   (isum_axis0 (tabulate nr nc c)) =
               map (fun j => Fin (colsum c nr j / total c nr nc)) (seq 0 nc)).
  { rewrite (@isum_axis0_tabulate nr nc c Hnr), map_map.
    apply map_ext_in. intros j Hj.
    unfold fint. rewrite (isum_INR c nr nc), rsum_INR.
    apply fdiv_fin. lra. }
  rewrite Er, Es.
  rewrite (h_fin nats nr _ (fun i Hi => proj1 (row_ratio i Hi))).
  rewrite (h_fin nats nc _ (fun j Hj => proj1 (col_ratio j Hj))).
  fold (h_ref_val c nr nc nats). fold (h_sys_val c nr nc nats).
  cbn [fmul fadd lift2]. unfold fsqrt.
  pose proof (nmi_denominator_pos nats) as Hd.
  destruct (Rlt_dec (h_ref_val c nr nc nats * h_sys_val c nr nc nats + EPS) 0)
    as [L|_].
  { pose proof EPS_pos. pose proof (h_ref_nonneg nats).
    pose proof (h_sys_nonneg nats). nra. }
  rewrite fdiv_fin by lra. reflexivity.
Qed.

End MutualInformationValue.

(** ** Bounds of the mutual information *)

Section MutualInformationBounds.

Import Metrics MatrixSpec RealSpec.
Local Open Scope R_scope.

Variable c : nat -> nat -> nat.
Variables nr nc : nat.
Hypothesis Hp : pos_marg c nr nc.
Variable nats : bool.

Lemma prob_zero (i j : nat) : c i j = 0%nat -> prob c nr nc i j = 0.
Proof. intros E. unfold prob, cnt. rewrite E. simpl. lra. Qed.

Lemma term_lower (i j : nat) :
  (i < nr)%nat -> (j < nc)%nat ->
  log_k nats * (prob c nr nc i j - rmarg c nr nc i * smarg c nr nc j)
  <= mi_term c nr nc nats i j.
Proof.
  intros Hi Hj. unfold mi_term.
  pose proof (log_k_pos nats) as Hk.
  pose proof (rmarg_pos c nr nc i Hp Hi) as Hr.
  pose proof (smarg_pos c nr nc j Hp Hj) as Hs.
  destruct (Nat.eqb_spec (c i j) 0) as [E|E].
  - rewrite (prob_zero i j E).
    assert (0 < rmarg c nr nc i * smarg c nr nc j)
      by now apply Rmult_lt_0_compat.
    nra.
  - pose proof (total_pos c nr nc Hp) as Ht.
    pose proof (cell_pos c i j E) as Hv.
    destruct Hp as (_ & Hrow & Hcol).
    pose proof (Hrow i Hi) as HR. pose proof (Hcol j Hj) as HC.
    rewrite rmarg_eq, smarg_eq. unfold prob.
    set (v := cnt c i j) in *. set (N := total c nr nc) in *.
    set (Ri := rowsum c nc i) in *. set (Cj := colsum c nr j) in *.
    assert (Hx : 0 < Ri * Cj / (v * N)).
    { apply Rdiv_lt_0_compat; now apply Rmult_lt_0_compat. }
    pose proof (log_le_sub nats _ Hx) as L.
    rewrite log_div in L by (now apply Rmult_lt_0_compat).
    rewrite (log_mult nats v N) in L by assumption.
    assert (Hq : 0 < v / N) by now apply Rdiv_lt_0_compat.
    assert (Eq : v / N * (Ri * Cj / (v * N) - 1)
                 = Ri / N * (Cj / N) - v / N) by (field; lra).
    assert (M : v / N * (log nats (Ri * Cj) - (log nats v + log nats N))
                <= v / N * (log_k nats * (Ri * Cj / (v * N) - 1))).
    { apply Rmult_le_compat_l; lra. }
    nra.
Qed.

Lemma term_upper_ref (i j : nat) :
  (i < nr)%nat -> (j < nc)%nat ->
  mi_term c nr nc nats i j
  <= - (prob c nr nc i j * log nats (rowsum c nc i / total c nr nc)).
Proof.
  intros Hi Hj. unfold mi_term.
  destruct (Nat.eqb_spec (c i j) 0) as [E|E].
  - rewrite (prob_zero i j E). lra.
  - pose proof (total_pos c nr nc Hp) as Ht.
    pose proof (cell_pos c i j E) as Hv.
    pose proof (cnt_le_colsum c nr i j Hi) as Hle.
    destruct Hp as (_ & Hrow & Hcol).
    pose proof (Hrow i Hi) as HR. pose proof (Hcol j Hj) as HC.
    rewrite log_mult, log_div by assumption.
    pose proof (log_mono nats _ _ Hv Hle) as Hm.
    unfold prob.
    assert (Hq : 0 < cnt c i j / total c nr nc)
      by now apply Rdiv_lt_0_compat.
    nra.
Qed.

Lemma term_upper_sys (i j : nat) :
  (i < nr)%nat -> (j < nc)%nat ->
  mi_term c nr nc nats i j
  <= - (prob c nr nc i j * log nats (colsum c nr j / total c nr nc)).
Proof.
  intros Hi Hj. unfold mi_term.
  destruct (Nat.eqb_spec (c i j) 0) as [E|E].
  - rewrite (prob_zero i j E). lra.
  - pose proof (total_pos c nr nc Hp) as Ht.
    pose proof (cell_pos c i j E) as Hv.
    pose proof (cnt_le_rowsum c nc i j Hj) as Hle.
    destruct Hp as (_ & Hrow & Hcol).
    pose proof (Hrow i Hi) as HR. pose proof (Hcol j Hj) as HC.
    rewrite log_mult, log_div by assumption.
    pose proof (log_mono nats _ _ Hv Hle) as Hm.
    unfold prob.
    assert (Hq : 0 < cnt c i j / total c nr nc)
      by now apply Rdiv_lt_0_compat.
    nra.
Qed.

Lemma mi_nonneg : 0 <= mi_val c nr nc nats.
Proof.
  assert (E : rsum nr (fun i => rsum nc (fun j =>
                log_k nats * (prob c nr nc i j
                              - rmarg c nr nc i * smarg c nr nc j))) = 0).
  { rewrite (rsum_ext nr _
      (fun i => log_k nats * (rmarg c nr nc i
                              - rmarg c nr nc i * rsum nc (smarg c nr nc)))).
    - rewrite rsum_scal, rsum_minus, rsum_scal_r.
      rewrite (smarg_sum c nr nc Hp), (rmarg_sum c nr nc Hp). lra.
    - intros i Hi. rewrite rsum_scal, rsum_minus, rsum_scal.
      reflexivity. }
  rewrite <- E. unfold mi_val. apply rsum_le. intros i Hi.
  apply rsum_le. intros j Hj. now apply term_lower.
Qed.

Lemma mi_le_h_ref : mi_val c nr nc nats <= h_ref_val c nr nc nats.
Proof.
  assert (E : rsum nr (fun i => rsum nc (fun j =>
                - (prob c nr nc i j
                   * log nats (rowsum c nc i / total c nr nc))))
              = h_ref_val c nr nc nats).
  { unfold h_ref_val. rewrite <- rsum_opp. apply rsum_ext. intros i Hi.
    rewrite rsum_opp, rsum_scal_r. fold (rmarg c nr nc i).
    now rewrite rmarg_eq. }
  rewrite <- E. unfold mi_val. apply rsum_le. intros i Hi.
  apply rsum_le. intros j Hj. now apply term_upper_ref.
Qed.

Lemma mi_le_h_sys : mi_val c nr nc nats <= h_sys_val c nr nc nats.
Proof.
  assert (E : rsum nr (fun i => rsum nc (fun j =>
                - (prob c nr nc i j
                   * log nats (colsum c nr j / total c nr nc))))
              = h_sys_val c nr nc nats).
  { unfold h_sys_val. rewrite rsum_exchange, <- rsum_opp.
    apply rsum_ext. intros j Hj.
    rewrite rsum_opp, rsum_scal_r. fold (smarg c nr nc j).
    now rewrite smarg_eq. }
  rewrite <- E. unfold mi_val. apply rsum_le. intros i Hi.
  apply rsum_le. intros j Hj. now apply term_upper_sys.
Qed.

Lemma nmi_bounds : 0 <= nmi_val c nr nc nats <= 1.
Proof.
  pose proof mi_nonneg as H0. pose proof mi_le_h_ref as Hr.
  pose proof mi_le_h_sys as Hs. pose proof EPS_pos as He.
  pose proof (nmi_denominator_pos c nr nc Hp nats) as Hd.
  unfold nmi_val.
  set (M := mi_val c nr nc nats) in *.
  set (A := h_ref_val c nr nc nats) in *.
  set (B := h_sys_val c nr nc nats) in *.
  split.
  - apply Rmult_le_pos; [exact H0|].
    apply Rlt_le, Rinv_0_lt_compat, Hd.
  - apply Rdiv_le_l; [exact Hd|]. rewrite Rmult_1_l.
    rewrite <- (sqrt_square M H0). apply sqrt_le_1_alt. nra.
Qed.

End MutualInformationBounds.

(** ** The matrices that [contingency_matrix] builds *)

Section BuiltMatrices.

Import Metrics MatrixSpec RealSpec.

Lemma count_if_pos (x : Z) (l : list Z) :
  In x l -> 0 < count_if (Z.eqb x) l.
Proof.
  induction l as [|y l IH]; simpl; [tauto|].
  intros [->|H]; rewrite count_if_cons.
  - rewrite Z.eqb_refl. lia.
  - specialize (IH H). lia.
Qed.

Lemma unique_nonempty (l : list Z) :
  l <> [] -> 0 < List.length (Np.unique Z.compare l).
Proof.
  intros H. destruct l as [|x t]; [congruence|].
  assert (Hin : In x (Np.unique Z.compare (x :: t)))
    by (apply unique_In; now left).
  destruct (Np.unique Z.compare (x :: t)); [contradiction|simpl; lia].
Qed.

(** For non-empty label sequences every row and every column of the matrix
    holds a frame. *)
Lemma built_positive_marginals (ref_labels sys_labels : list Z)
      (cm : matrix) (rc sc : list Z) :
  List.length ref_labels = List.length sys_labels ->
  ref_labels <> [] ->
  contingency_matrix ref_labels sys_labels = Ok (cm, rc, sc) ->
  positive_marginals (List.length rc) (List.length sc) cm.
Proof.
  intros Hlen Hne Hcm.
  destruct (contingency_sums _ _ Hlen)
    as (cm' & Hcm' & Hrect & _ & _ & Hrow & Hcol & _).
  rewrite Hcm in Hcm'. injection Hcm' as <- -> ->.
  pose proof (unique_nonempty ref_labels Hne) as Hnr.
  split; [exact Hrect|]. split; [exact Hnr|].
  rewrite (@rect_tabulate _ _ _ Hrect). split.
  - rewrite isum_axis1_tabulate. apply Forall_forall. intros s Hs.
    apply in_map_iff in Hs as (i & <- & Hi). apply in_seq in Hi.
    rewrite Hrow by lia. apply count_if_pos, unique_In, nth_In. lia.
  - rewrite isum_axis0_tabulate by exact Hnr.
    apply Forall_forall. intros s Hs.
    apply in_map_iff in Hs as (j & <- & Hj). apply in_seq in Hj.
    rewrite Hcol by lia. apply count_if_pos, unique_In, nth_In. lia.
Qed.

End BuiltMatrices.

(** ** Ranges of the metrics *)

Section RangeClaims.

Import Metrics MatrixSpec RealSpec.
Local Open Scope R_scope.

Lemma mutual_information_value (nr nc : nat) (cm : matrix)
      (ref_labels sys_labels : list Z) (nats : bool) :
  positive_marginals nr nc cm ->
  mutual_information ref_labels sys_labels (Some cm) nats =
  Ok (Fin (mi_val (cell cm) nr nc nats), Fin (nmi_val (cell cm) nr nc nats)).
Proof.
  intros H. destruct (positive_marginals_table nr nc cm H) as [E Hp].
  rewrite E at 1. now apply mutual_information_tabulate.
Qed.

Lemma conditional_entropy_value (nr nc : nat) (cm : matrix)
      (ref_labels sys_labels : list Z) (nats : bool) :
  positive_marginals nr nc cm ->
  conditional_entropy ref_labels sys_labels (Some cm) nats =
  Ok (Fin (ce_val (cell cm) nr nc nats)).
Proof.
  intros H. destruct (positive_marginals_table nr nc cm H) as [E Hp].
  rewrite E at 1. now apply conditional_entropy_tabulate.
Qed.

(** In the real-number reading, on every contingency matrix of counts in
    which every row and every column has a positive sum, the metrics are
    numbers (no nan), B-cubed precision, recall and F1, both directions of
    tau and the normalized mutual information lie between 0 and 1, and the
    mutual information is not negative. *)
Lemma metric_ranges_real (nr nc : nat) (cm : matrix)
      (ref_labels sys_labels : list Z) (nats : bool) :
  positive_marginals nr nc cm ->
  exists p r f t1 t2 mi nmi : R,
    bcubed ref_labels sys_labels (Some cm) = Ok (Fin p, Fin r, Fin f) /\
    goodman_kruskal_tau ref_labels sys_labels (Some cm) =
      Ok (Fin t1, Fin t2) /\
    mutual_information ref_labels sys_labels (Some cm) nats =
      Ok (Fin mi, Fin nmi) /\
    0 <= p <= 1 /\ 0 <= r <= 1 /\ 0 <= f <= 1 /\
    0 <= t1 <= 1 /\ 0 <= t2 <= 1 /\ 0 <= nmi <= 1 /\ 0 <= mi.
Proof.
  intros H. destruct (positive_marginals_table nr nc cm H) as [_ Hp].
  exists (precision_val (cell cm) nr nc), (recall_val (cell cm) nr nc),
    (f1_val (cell cm) nr nc), (tau_ref_sys_val (cell cm) nr nc),
    (tau_sys_ref_val (cell cm) nr nc), (mi_val (cell cm) nr nc nats),
    (nmi_val (cell cm) nr nc nats).
  split; [now apply bcubed_value|].
  split; [now apply tau_value|].
  split; [now apply mutual_information_value|].
  pose proof (precision_bounds _ _ _ Hp).
  pose proof (recall_bounds _ _ _ Hp).
  pose proof (f1_bounds _ _ _ Hp).
  pose proof (tau_ref_sys_bounds _ _ _ Hp).
  pose proof (tau_sys_ref_bounds _ _ _ Hp).
  pose proof (nmi_bounds _ _ _ Hp nats).
  pose proof (mi_nonneg _ _ _ Hp nats).
  repeat split; lra.
Qed.

(** The metrics take any matrix as [cm] and have no guard: on [[1, 0]],
    whose second column is empty, the division by the column sums is 0/0
    and the B-cubed precision is nan. *)
Lemma bcubed_nan_on_empty_column :
  exists r f,
    bcubed [] [] (Some [[1; 0]]%nat) = Ok (NaN, r, f).
Proof.
  unfold bcubed, get_cm. cbn [bind]. do 2 eexists. f_equal. f_equal.
  f_equal.
  unfold astype_float, sum_axis0, div_cols, div_scalar, mul_elem, msum,
    fsum, ncols. simpl.
  destruct (Req_dec_T (0 + 0) 0) as [_|N]; [|exfalso; apply N; lra].
  destruct (Req_dec_T (1 + 0) 0) as [E|_]; [exfalso; lra|].
  destruct (Req_dec_T (1 + (0 + 0) + 0) 0); reflexivity.
Qed.

(** C7, the failing input.  A reference with the speaker S1 from 0 to 1 and
    the speaker S2 from 1 to 5 against a system with one speaker from 0 to
    5, at a step of 1: the aligner returns the labels 1, 2, 2, 2, 2 and
    1, 1, 1, 1, 1, the contingency matrix is [[1], [4]], every row and
    column of it has a positive sum, and the source, run in binary64,
    returns tau(ref, sys) = 2.0, which is not in [0, 1] within any
    tolerance (the B-cubed scores of the same matrix are 0.68, 1.0 and
    0.81 up to rounding). *)
Theorem metric_ranges_binary64 :
  let ref_turns := [Score.mkTurn "S1" 0%Q 1%Q; Score.mkTurn "S2" 1%Q 5%Q] in
  let sys_turns := [Score.mkTurn "X" 0%Q 5%Q] in
  let r := [1; 2; 2; 2; 2]%Z in
  let s := [1; 1; 1; 1; 1]%Z in
  Score.rttms_to_frames [("a"%string, ref_turns)] [("a"%string, sys_turns)]
                        1%Q = Ok (r, s) /\
  contingency_matrix r s = Ok ([[1]; [4]]%nat, [1; 2]%Z, [1]%Z) /\
  positive_marginals 2 1 [[1]; [4]]%nat /\
  (exists t2, Metrics64.goodman_kruskal_tau r s None = Ok (2%float, t2)) /\
  PrimFloat.leb 2%float 1%float = false /\
  (exists p f, Metrics64.bcubed r s None = Ok (p, 1%float, f) /\
               PrimFloat.leb 0%float p = true /\
               PrimFloat.leb p 1%float = true /\
               PrimFloat.leb 0%float f = true /\
               PrimFloat.leb f 1%float = true).
Proof.
  cbv zeta. split; [vm_compute; reflexivity|].
  split; [vm_compute; reflexivity|]. split.
  { unfold positive_marginals, rect. simpl.
    repeat split; repeat constructor. }
  split; [eexists; vm_compute; reflexivity|].
  split; [vm_compute; reflexivity|].
  do 2 eexists. repeat split; vm_compute; reflexivity.
Qed.

End RangeClaims.

(** ** Diagonal matrices: identical labellings *)

Section Diagonal.

Import Metrics MatrixSpec RealSpec.
Local Open Scope R_scope.

Lemma rsum_single (n : nat) (f : nat -> R) (k : nat) :
  (k < n)%nat ->
  (forall j, (j < n)%nat -> j <> k -> f j = 0) ->
  rsum n f = f k.
Proof.
  induction n as [|n IH]; intros Hk H; [lia|].
  rewrite rsum_S. destruct (Nat.eq_dec k n) as [->|Hne].
  - rewrite (rsum_ext n f (fun _ => 0)), rsum_const0; [lra|].
    intros j Hj. apply H; lia.
  - rewrite IH by (try lia; intros; apply H; lia).
    rewrite (H n) by lia. lra.
Qed.

Variable c : nat -> nat -> nat.
Variable n : nat.
Hypothesis Hp : pos_marg c n n.
Hypothesis Hd : diagonal c n.

Lemma cnt_off (i j : nat) :
  (i < n)%nat -> (j < n)%nat -> i <> j -> cnt c i j = 0.
Proof. intros Hi Hj H. unfold cnt. now rewrite (Hd i j Hi Hj H). Qed.

Lemma prob_off (i j : nat) :
  (i < n)%nat -> (j < n)%nat -> i <> j -> prob c n n i j = 0.
Proof.
  intros Hi Hj H. unfold prob. rewrite (cnt_off i j Hi Hj H). lra.
Qed.

Lemma rowsum_diag (i : nat) : (i < n)%nat -> rowsum c n i = cnt c i i.
Proof.
  intros Hi. unfold rowsum. apply (rsum_single n (cnt c i) i Hi).
  intros j Hj H. apply cnt_off; auto.
Qed.

Lemma colsum_diag (j : nat) : (j < n)%nat -> colsum c n j = cnt c j j.
Proof.
  intros Hj. unfold colsum.
  apply (rsum_single n (fun i => cnt c i j) j Hj).
  intros i Hi H. apply cnt_off; auto.
Qed.

Lemma rmarg_diag (i : nat) : (i < n)%nat -> rmarg c n n i = prob c n n i i.
Proof.
  intros Hi. unfold rmarg. apply (rsum_single n (prob c n n i) i Hi).
  intros j Hj H. apply prob_off; auto.
Qed.

Lemma cnt_diag_pos (i : nat) : (i < n)%nat -> 0 < cnt c i i.
Proof.
  intros Hi. rewrite <- rowsum_diag by exact Hi. now apply Hp.
Qed.

Lemma prob_diag_sum : rsum n (fun i => prob c n n i i) = 1.
Proof.
  rewrite <- (rmarg_sum c n n Hp). apply rsum_ext. intros i Hi.
  now rewrite rmarg_diag.
Qed.

Lemma precision_diag : precision_val c n n = 1.
Proof.
  unfold precision_val. rewrite <- prob_diag_sum. apply rsum_ext.
  intros i Hi.
  rewrite (rsum_single n _ i Hi).
  - rewrite colsum_diag by exact Hi.
    pose proof (cnt_diag_pos i Hi). field. lra.
  - intros j Hj H. rewrite prob_off by auto. lra.
Qed.

Lemma recall_diag : recall_val c n n = 1.
Proof.
  unfold recall_val. rewrite <- prob_diag_sum. apply rsum_ext.
  intros i Hi.
  rewrite (rsum_single n _ i Hi).
  - rewrite rowsum_diag by exact Hi.
    pose proof (cnt_diag_pos i Hi). field. lra.
  - intros j Hj H. rewrite prob_off by auto. lra.
Qed.

Lemma f1_diag : f1_val c n n = 1.
Proof. unfold f1_val. rewrite precision_diag, recall_diag. field. Qed.

Lemma tau_ref_sys_diag : tau_ref_sys_val c n n = 1.
Proof.
  pose proof (vy_lower c n n Hp) as Hv. pose proof EPS_pos as He.
  assert (E : vy_bar_x c n n = 0).
  { unfold vy_bar_x.
    rewrite (rsum_ext n _ (fun i => prob c n n i i)).
    - rewrite prob_diag_sum. lra.
    - intros i Hi.
      rewrite (rsum_single n _ i Hi).
      + pose proof (rmarg_pos c n n i Hp Hi) as Hr.
        rewrite rmarg_diag in * by exact Hi. field. lra.
      + intros j Hj H. rewrite prob_off by auto. lra. }
  unfold tau_ref_sys_val. rewrite E. field. lra.
Qed.

Lemma ce_diag (nats : bool) : ce_val c n n nats = 0.
Proof.
  unfold ce_val.
  rewrite (rsum_ext n _ (fun _ => 0)); [apply rsum_const0|]. intros i Hi.
  rewrite (rsum_ext n _ (fun _ => 0)); [apply rsum_const0|]. intros j Hj.
  destruct (Nat.eqb_spec (c i j) 0) as [E|E]; [reflexivity|].
  destruct (Nat.eq_dec i j) as [->|Hne].
  - rewrite colsum_diag by exact Hj. lra.
  - exfalso. apply E. now apply Hd.
Qed.

Lemma mi_diag (nats : bool) : mi_val c n n nats = h_ref_val c n n nats.
Proof.
  pose proof (total_pos c n n Hp) as Ht.
  unfold mi_val, h_ref_val. rewrite <- rsum_opp. apply rsum_ext.
  intros i Hi.
  rewrite (rsum_single n _ i Hi).
  - unfold mi_term. pose proof (cnt_diag_pos i Hi) as Hv.
    destruct (Nat.eqb_spec (c i i) 0) as [E|E].
    + unfold cnt in Hv. rewrite E in Hv. simpl in Hv. lra.
    + rewrite rowsum_diag, colsum_diag by exact Hi.
      rewrite log_mult, log_div by assumption. lra.
  - intros j Hj H. unfold mi_term. rewrite (Hd i j Hi Hj); auto.
Qed.

Lemma h_sys_diag (nats : bool) : h_sys_val c n n nats = h_ref_val c n n nats.
Proof.
  unfold h_sys_val, h_ref_val. f_equal. apply rsum_ext. intros i Hi.
  now rewrite rowsum_diag, colsum_diag.
Qed.

Lemma nmi_diag (nats : bool) :
  nmi_val c n n nats =
  h_ref_val c n n nats
  / sqrt (h_ref_val c n n nats * h_ref_val c n n nats + EPS).
Proof. unfold nmi_val. now rewrite mi_diag, h_sys_diag. Qed.

Lemma h_single_class (nats : bool) : n = 1%nat -> h_ref_val c n n nats = 0.
Proof.
  intros E. pose proof (total_pos c n n Hp) as Ht.
  assert (R0 : rowsum c n 0 = total c n n).
  { unfold total. rewrite E at 2. now rewrite rsum_1. }
  unfold h_ref_val. rewrite E at 1. rewrite rsum_1, R0.
  replace (total c n n / total c n n) with 1 by (field; lra).
  rewrite log_1. lra.
Qed.

End Diagonal.

Section NmiBound.

Local Open Scope R_scope.

Lemma nmi_below_one (H : R) :
  0 <= H -> 0 <= H / sqrt (H * H + Metrics.EPS) < 1.
Proof.
  intros H0. pose proof EPS_pos as He.
  assert (D : H < sqrt (H * H + Metrics.EPS)).
  { rewrite <- (sqrt_square H H0) at 1. apply sqrt_lt_1_alt. nra. }
  assert (Dp : 0 < sqrt (H * H + Metrics.EPS)) by lra.
  split.
  - apply Rmult_le_pos; [exact H0|]. apply Rlt_le, Rinv_0_lt_compat, Dp.
  - apply Rmult_lt_reg_r with (sqrt (H * H + Metrics.EPS)); [exact Dp|].
    unfold Rdiv. rewrite Rmult_assoc, Rinv_l by lra. lra.
Qed.

End NmiBound.

(** ** Identical labellings *)

Section Identity.

Import Metrics MatrixSpec RealSpec.
Local Open Scope R_scope.

Lemma in_combine_same (A : Type) (l : list A) (x y : A) :
  In (x, y) (combine l l) -> x = y.
Proof.
  induction l as [|z l IH]; simpl; [tauto|].
  intros [E|H]; [congruence|auto].
Qed.

Lemma count_if_none (A : Type) (p : A -> bool) (l : list A) :
  (forall x, In x l -> p x = false) -> count_if p l = 0%nat.
Proof.
  intros H. unfold count_if. now rewrite filter_none.
Qed.

Lemma nth_NoDup_neq (u : list Z) (i j : nat) :
  NoDup u -> (i < List.length u)%nat -> (j < List.length u)%nat ->
  i <> j -> nth i u 0%Z <> nth j u 0%Z.
Proof.
  intros Hnd Hi Hj Hne E. apply Hne.
  apply (proj1 (NoDup_nth u 0%Z) Hnd i j Hi Hj E).
Qed.

(** The matrix of a labelling against itself. *)
Lemma identity_table (l : list Z) :
  l <> [] ->
  let u := Np.unique Z.compare l in
  let n := List.length u in
  exists cm,
    contingency_matrix l l = Ok (cm, u, u) /\
    positive_marginals n n cm /\
    diagonal (cell cm) n /\
    forall nats, h_ref_val (cell cm) n n nats = label_entropy nats l.
Proof.
  intros Hne u n.
  destruct (contingency_sums l l eq_refl)
    as (cm & Hcm & Hrect & Hco & _ & Hrow & _ & Htot).
  fold u in Hcm, Hrect, Hco, Hrow, Htot. fold n in Hrect, Hco, Hrow, Htot.
  exists cm. split; [exact Hcm|].
  pose proof (built_positive_marginals l l cm u u eq_refl Hne Hcm) as Hpm.
  split; [exact Hpm|]. split.
  - intros i j Hi Hj Hij. rewrite Hco by assumption.
    unfold co_occurrences. apply count_if_none. intros [a b] Hin.
    apply in_combine_same in Hin as <-. simpl.
    pose proof (nth_NoDup_neq u i j (sorted_NoDup (unique_sorted l))
                  Hi Hj Hij) as N.
    destruct (Z.eqb_spec a (nth i u 0%Z)) as [->|]; [|reflexivity].
    destruct (Z.eqb_spec (nth i u 0%Z) (nth j u 0%Z)); [contradiction|].
    reflexivity.
  - intros nats. unfold h_ref_val, label_entropy. fold u n. f_equal.
    assert (T : total (cell cm) n n = INR (List.length l)).
    { unfold total, cnt. rewrite <- Htot, rsum_INR. apply rsum_ext.
      intros i _. now rewrite rsum_INR. }
    apply rsum_ext. intros i Hi.
    assert (Ri : rowsum (cell cm) n i
                 = INR (count_if (Z.eqb (nth i u 0%Z)) l)).
    { unfold rowsum, cnt. rewrite <- rsum_INR. now rewrite Hrow. }
    now rewrite T, Ri.
Qed.

Lemma diagonal_transpose (c : nat -> nat -> nat) (n : nat) :
  diagonal c n -> diagonal (transpose c) n.
Proof. intros H i j Hi Hj Hij. unfold transpose. apply H; auto. Qed.

Lemma identity_bcubed (l : list Z) :
  l <> [] -> bcubed l l None = Ok (Fin 1, Fin 1, Fin 1).
Proof.
  intros Hne. destruct (identity_table l Hne) as (cm & Hcm & Hpm & Hd & _).
  destruct (positive_marginals_table _ _ cm Hpm) as [_ Hp].
  transitivity (bcubed l l (Some cm)).
  { unfold bcubed, get_cm. now rewrite Hcm. }
  rewrite (bcubed_value _ _ cm l l Hpm).
  now rewrite (precision_diag _ _ Hp Hd), (recall_diag _ _ Hp Hd),
    (f1_diag _ _ Hp Hd).
Qed.

Lemma identity_tau (l : list Z) :
  l <> [] -> goodman_kruskal_tau l l None = Ok (Fin 1, Fin 1).
Proof.
  intros Hne. destruct (identity_table l Hne) as (cm & Hcm & Hpm & Hd & _).
  destruct (positive_marginals_table _ _ cm Hpm) as [_ Hp].
  transitivity (goodman_kruskal_tau l l (Some cm)).
  { unfold goodman_kruskal_tau, get_cm. now rewrite Hcm. }
  rewrite (tau_value _ _ cm l l Hpm).
  rewrite (tau_ref_sys_diag _ _ Hp Hd), <- tau_transpose.
  now rewrite (tau_ref_sys_diag _ _ (pos_marg_transpose _ _ _ Hp)
                 (diagonal_transpose _ _ Hd)).
Qed.

Lemma identity_conditional_entropy (l : list Z) (nats : bool) :
  l <> [] -> conditional_entropy l l None nats = Ok (Fin 0).
Proof.
  intros Hne. destruct (identity_table l Hne) as (cm & Hcm & Hpm & Hd & _).
  destruct (positive_marginals_table _ _ cm Hpm) as [_ Hp].
  transitivity (conditional_entropy l l (Some cm) nats).
  { unfold conditional_entropy, get_cm. now rewrite Hcm. }
  rewrite (conditional_entropy_value _ _ cm l l nats Hpm).
  now rewrite (ce_diag _ _ Hd).
Qed.

Lemma identity_mutual_information (l : list Z) (nats : bool) :
  l <> [] ->
  mutual_information l l None nats =
  Ok (Fin (label_entropy nats l),
      Fin (label_entropy nats l
           / sqrt (label_entropy nats l * label_entropy nats l + EPS))).
Proof.
  intros Hne. destruct (identity_table l Hne) as (cm & Hcm & Hpm & Hd & HH).
  destruct (positive_marginals_table _ _ cm Hpm) as [_ Hp].
  transitivity (mutual_information l l (Some cm) nats).
  { unfold mutual_information, get_cm. now rewrite Hcm. }
  rewrite (mutual_information_value _ _ cm l l nats Hpm).
  now rewrite (nmi_diag _ _ Hp Hd), (mi_diag _ _ Hp Hd), HH.
Qed.

Lemma label_entropy_nonneg (l : list Z) (nats : bool) :
  l <> [] -> 0 <= label_entropy nats l.
Proof.
  intros Hne. destruct (identity_table l Hne) as (cm & _ & Hpm & _ & HH).
  destruct (positive_marginals_table _ _ cm Hpm) as [_ Hp].
  rewrite <- HH. now apply h_ref_nonneg.
Qed.

Lemma label_entropy_single (l : list Z) (nats : bool) :
  l <> [] -> List.length (Np.unique Z.compare l) = 1%nat ->
  label_entropy nats l = 0.
Proof.
  intros Hne H1. destruct (identity_table l Hne) as (cm & _ & Hpm & Hd & HH).
  destruct (positive_marginals_table _ _ cm Hpm) as [_ Hp].
  rewrite <- HH. now apply h_single_class.
Qed.

End Identity.

Section IdentityClaims.

Import Metrics MatrixSpec RealSpec.
Local Open Scope R_scope.

(** C3, as the code has it.  For a non-empty label sequence scored against
    itself, B-cubed precision, recall and F1 are 1, both directions of tau
    are 1, the conditional entropy is 0, the mutual information is the
    entropy H of the labelling, and the normalized mutual information is
    H / sqrt(H * H + EPS): below 1 in every case, and 0 when the labelling
    has a single class. *)
Theorem identity_metrics (l : list Z) (nats : bool) :
  l <> [] ->
  let H := label_entropy nats l in
  bcubed l l None = Ok (Fin 1, Fin 1, Fin 1) /\
  goodman_kruskal_tau l l None = Ok (Fin 1, Fin 1) /\
  conditional_entropy l l None nats = Ok (Fin 0) /\
  mutual_information l l None nats =
    Ok (Fin H, Fin (H / sqrt (H * H + EPS))) /\
  0 <= H / sqrt (H * H + EPS) < 1 /\
  (List.length (Np.unique Z.compare l) = 1%nat ->
   H / sqrt (H * H + EPS) = 0).
Proof.
  intros Hne H.
  split; [now apply identity_bcubed|].
  split; [now apply identity_tau|].
  split; [now apply identity_conditional_entropy|].
  split; [now apply identity_mutual_information|].
  split.
  - apply nmi_below_one. now apply label_entropy_nonneg.
  - intros H1. unfold H. rewrite (label_entropy_single l nats Hne H1).
    unfold Rdiv. apply Rmult_0_l.
Qed.

Lemma identity_metrics_witness :
  let l := [1; 1; 3; 2; 4; 4]%Z in
  let H := label_entropy false l in
  bcubed l l None = Ok (Fin 1, Fin 1, Fin 1) /\
  goodman_kruskal_tau l l None = Ok (Fin 1, Fin 1) /\
  conditional_entropy l l None false = Ok (Fin 0) /\
  mutual_information l l None false =
    Ok (Fin H, Fin (H / sqrt (H * H + EPS))) /\
  0 <= H / sqrt (H * H + EPS) < 1 /\
  (List.length (Np.unique Z.compare l) = 1%nat ->
   H / sqrt (H * H + EPS) = 0).
Proof.
  apply (identity_metrics [1; 1; 3; 2; 4; 4]%Z false). discriminate.
Defined.

(** C3, as the specification words it, fails: for the one-frame labelling
    [1] scored against itself the normalized mutual information is 0, not
    1. *)
Lemma identity_metrics_counterexample :
  mutual_information [1]%Z [1]%Z None false = Ok (Fin 0, Fin 0) /\
  Fin 0 <> Fin 1.
Proof.
  split.
  - rewrite (identity_mutual_information [1]%Z false) by discriminate.
    rewrite (label_entropy_single [1]%Z false) by (discriminate || reflexivity).
    unfold Rdiv. now rewrite Rmult_0_l.
  - intros E. injection E. lra.
Qed.

End IdentityClaims.

Section Scenario.

Import Score.

(** The recording of 10 seconds at a step of 0.01 seconds, with A speaking
    from 2 to 6 and B from 5 to 9: 1000 frames, labelled A (1) before the
    overlap, A_B (3) in it, B (2) after it and non-speech (4) outside. *)
Example overlap_scenario :
  exists ls strs,
    turns_to_frames [mkTurn "A" 2%Q 6%Q; mkTurn "B" 5%Q 9%Q] (Some 10%Q)
                    (1 # 100)%Q false = Ok (IntLabels ls) /\
    turns_to_frames [mkTurn "A" 2%Q 6%Q; mkTurn "B" 5%Q 9%Q] (Some 10%Q)
                    (1 # 100)%Q true = Ok (StrLabels strs) /\
    List.length ls = 1000 /\
    ls = repeat 4%Z 200 ++ repeat 1%Z 300 ++ repeat 3%Z 100
         ++ repeat 2%Z 300 ++ repeat 4%Z 100 /\
    strs = repeat "non-speech"%string 200 ++ repeat "A"%string 300
           ++ repeat "A_B"%string 100 ++ repeat "B"%string 300
           ++ repeat "non-speech"%string 100.
Proof.
  do 2 eexists. split; [vm_compute; reflexivity|].
  split; [vm_compute; reflexivity|].
  split; [reflexivity|]. split; vm_compute; reflexivity.
Qed.

End Scenario.

(** * Further properties of the code *)

(** ** The speakers of a recording *)

Section Speakers.

Import Score FrameSpec.

Lemma string_lt_trans (a b c : string) :
  string_lt a b -> string_lt b c -> string_lt a c.
Proof.
  unfold string_lt. revert b c.
  induction a as [|x a IH]; intros [|y b] [|z c]; simpl; try congruence.
  destruct (Ascii.compare x y) eqn:Exy; try discriminate.
  - apply Ascii.compare_eq_iff in Exy. subst y.
    destruct (Ascii.compare x z); try congruence. apply IH.
  - intros _. destruct (Ascii.compare y z) eqn:Eyz; try discriminate.
    + apply Ascii.compare_eq_iff in Eyz. subst z. now rewrite Exy.
    + intros _. unfold Ascii.compare in *.
      rewrite N.compare_lt_iff in Exy, Eyz.
      assert (L : (N_of_ascii x < N_of_ascii z)%N)
        by (eapply N.lt_trans; eassumption).
      apply N.compare_lt_iff in L. now rewrite L.
Qed.

Lemma string_lt_irrefl (a : string) : ~ string_lt a a.
Proof. unfold string_lt. rewrite compare_refl. discriminate. Qed.

Lemma string_gt_lt (a b : string) :
  String.compare a b = Gt -> string_lt b a.
Proof.
  unfold string_lt. intros H. rewrite String.compare_antisym, H. reflexivity.
Qed.

Lemma insert_sorted_In_string (x y : string) (l : list string) :
  In y (Np.insert_sorted String.compare x l) <-> y = x \/ In y l.
Proof.
  induction l as [|z l IH]; simpl.
  - intuition.
  - destruct (String.compare x z) eqn:E; simpl.
    + apply String.compare_eq_iff in E. subst z. intuition.
    + intuition.
    + rewrite IH. intuition.
Qed.

Lemma unique_In_string (x : string) (l : list string) :
  In x (Np.unique String.compare l) <-> In x l.
Proof.
  unfold Np.unique. induction l as [|y l IH]; simpl; [tauto|].
  rewrite insert_sorted_In_string, IH. intuition.
Qed.

Lemma insert_sorted_sorted_string (x : string) (l : list string) :
  StronglySorted string_lt l ->
  StronglySorted string_lt (Np.insert_sorted String.compare x l).
Proof.
  induction 1 as [|z l Hs IH Hz]; simpl.
  - repeat constructor.
  - destruct (String.compare x z) eqn:E.
    + now constructor.
    + constructor; [now constructor|].
      constructor; [exact E|].
      eapply Forall_impl; [|exact Hz]. simpl. intros y Hy.
      eapply string_lt_trans; [exact E|exact Hy].
    + constructor; [exact IH|].
      apply Forall_forall. intros y Hy.
      apply insert_sorted_In_string in Hy as [->|Hy];
        [now apply string_gt_lt|].
      rewrite Forall_forall in Hz. now apply Hz.
Qed.

Lemma unique_sorted_string (l : list string) :
  StronglySorted string_lt (Np.unique String.compare l).
Proof.
  unfold Np.unique. induction l as [|y l IH]; simpl; [constructor|].
  now apply insert_sorted_sorted_string.
Qed.

Lemma sorted_NoDup_string (l : list string) :
  StronglySorted string_lt l -> NoDup l.
Proof.
  induction 1 as [|z l Hs IH Hz]; constructor; [|exact IH].
  intros Hin. rewrite Forall_forall in Hz.
  exact (string_lt_irrefl z (Hz z Hin)).
Qed.

Lemma index_of_lt_string (x : string) (u : list string) :
  In x u -> Np.index_of String.compare x u < List.length u.
Proof.
  induction u as [|y u IH]; simpl; [tauto|].
  intros H. destruct (String.compare x y) eqn:E; try lia.
  - destruct H as [->|H]; [rewrite compare_refl in E; discriminate|].
    specialize (IH H). lia.
  - destruct H as [->|H]; [rewrite compare_refl in E; discriminate|].
    specialize (IH H). lia.
Qed.

Lemma index_of_eq_iff_string (x : string) (u : list string) (i : nat) :
  NoDup u -> In x u -> i < List.length u ->
  (Np.index_of String.compare x u = i <-> x = nth i u ""%string).
Proof.
  intros Hnd; revert i; induction Hnd as [|y u Hy Hnd IH];
    intros i Hin Hi; simpl in *; [tauto|].
  destruct (String.compare x y) eqn:E.
  - apply String.compare_eq_iff in E. subst y.
    destruct i as [|i]; [tauto|]. split; [discriminate|].
    intros ->. exfalso. apply Hy. apply nth_In. lia.
  - destruct Hin as [->|Hin]; [rewrite compare_refl in E; discriminate|].
    destruct i as [|i].
    + split; [discriminate|]. intros ->.
      rewrite compare_refl in E. discriminate.
    + rewrite <- (IH i Hin) by lia. split; lia.
  - destruct Hin as [->|Hin]; [rewrite compare_refl in E; discriminate|].
    destruct i as [|i].
    + split; [discriminate|]. intros ->.
      rewrite compare_refl in E. discriminate.
    + rewrite <- (IH i Hin) by lia. split; lia.
Qed.

Lemma speakers_In (turns : list Turn) (s : string) :
  In s (speakers turns) <-> exists t, In t turns /\ speaker_id t = s.
Proof.
  unfold speakers. rewrite unique_In_string, in_map_iff.
  split; intros (t & A & B); exists t; tauto.
Qed.

Lemma speakers_sorted (turns : list Turn) :
  StronglySorted string_lt (speakers turns).
Proof. apply unique_sorted_string. Qed.

Lemma speakers_NoDup (turns : list Turn) : NoDup (speakers turns).
Proof. apply sorted_NoDup_string, speakers_sorted. Qed.

Lemma class_index_lt (turns : list Turn) (t : Turn) :
  In t turns -> class_index turns (speaker_id t) < List.length (speakers turns).
Proof.
  intros H. unfold class_index. apply index_of_lt_string.
  apply speakers_In. now exists t.
Qed.

Lemma class_index_test (turns : list Turn) (t : Turn) (j : nat) :
  In t turns -> j < List.length (speakers turns) ->
  (class_index turns (speaker_id t) =? j) =
  String.eqb (speaker_id t) (nth j (speakers turns) ""%string).
Proof.
  intros Ht Hj.
  assert (Hin : In (speaker_id t) (speakers turns))
    by (apply speakers_In; now exists t).
  pose proof (index_of_eq_iff_string (speaker_id t) (speakers turns) j
                (speakers_NoDup turns) Hin Hj) as E.
  fold (speakers turns) in E. unfold class_index. fold (speakers turns).
  destruct (Nat.eqb_spec (Np.index_of String.compare (speaker_id t)
                            (speakers turns)) j) as [F|F],
    (String.eqb_spec (speaker_id t) (nth j (speakers turns) ""%string))
      as [G|G]; try reflexivity.
  - apply E in F. contradiction.
  - apply E in G. contradiction.
Qed.

Lemma length_classes_speakers (turns : list Turn) :
  List.length (classes_of turns) = S (List.length (speakers turns)).
Proof.
  unfold classes_of, speakers. rewrite length_app. simpl. lia.
Qed.

End Speakers.

(** ** The rows of the frame matrix *)

Section FrameRows.

Import Score FrameSpec.

Lemma existsb_ext_in (A : Type) (p q : A -> bool) (l : list A) :
  (forall x, In x l -> p x = q x) -> existsb p l = existsb q l.
Proof.
  induction l as [|x l IH]; intros H; simpl; [reflexivity|].
  rewrite (H x) by now left. f_equal. apply IH. intros y Hy. apply H.
  now right.
Qed.

Lemma existsb_none (A : Type) (l : list A) :
  existsb (fun _ => false) l = false.
Proof. induction l; simpl; auto. Qed.

Lemma nth_map_default (A B : Type) (f : A -> B) (l : list A) (j : nat)
      (dA : A) (dB : B) :
  j < List.length l -> nth j (map f l) dB = f (nth j l dA).
Proof.
  intros Hj. rewrite (nth_indep _ dB (f dA)) by now rewrite length_map.
  apply map_nth.
Qed.

Lemma set_true_last (a : list bool) (b : bool) :
  set_true (List.length a) (a ++ [b]) = a ++ [true].
Proof. induction a as [|x a IH]; simpl; [reflexivity|]. now rewrite IH. Qed.

Lemma existsb_app_false (a : list bool) :
  existsb (fun b => b) (a ++ [false]) = existsb (fun b => b) a.
Proof. rewrite existsb_app. simpl. now rewrite orb_false_r. Qed.

Lemma fill_row_app (a : list bool) :
  fill_row (a ++ [false]) = a ++ [negb (existsb (fun b => b) a)].
Proof.
  unfold fill_row. rewrite existsb_app_false.
  destruct (existsb (fun b => b) a); [reflexivity|].
  rewrite length_app. simpl. rewrite Nat.add_1_r. simpl.
  apply set_true_last.
Qed.

(** The row of frame [i] once every turn is marked: one entry per speaker,
    set when a turn of the speaker covers the frame, and the entry of
    non-speech still clear. *)
Lemma marked_row_speaks (turns : list Turn) (n : nat) (step : Q) (i : nat) :
  (0 < step)%Q -> i < n ->
  marked_row (map (Np.searchsorted (Np.arange_times step n))
                  (map onset turns))
             (map (Np.searchsorted (Np.arange_times step n))
                  (map offset turns))
             (snd (Np.unique_inverse String.compare (map speaker_id turns)))
             i (repeat false (List.length (classes_of turns))) =
  map (speaks turns step i) (speakers turns) ++ [false].
Proof.
  intros Hs Hi. unfold Np.unique_inverse. simpl snd. rewrite !map_map.
  fold (speakers turns).
  pose proof (length_classes_speakers turns) as Hw.
  apply (nth_ext _ _ false false).
  - rewrite length_marked_row, repeat_length, length_app, length_map.
    simpl. lia.
  - intros j Hj. rewrite length_marked_row, repeat_length in Hj.
    rewrite (@marked_row_cell _
               (fun t => Np.searchsorted (Np.arange_times step n) (onset t))
               (fun t => Np.searchsorted (Np.arange_times step n) (offset t))
               (fun t => Np.index_of String.compare (speaker_id t)
                           (speakers turns))
               turns i j (repeat false (List.length (classes_of turns))))
      by now rewrite repeat_length.
    rewrite nth_repeat. simpl.
    destruct (Nat.lt_ge_cases j (List.length (speakers turns))) as [L|L].
    + rewrite app_nth1 by now rewrite length_map.
      rewrite (nth_map_default _ _ (speaks turns step i) (speakers turns) j
                 ""%string false L).
      unfold speaks. apply existsb_ext_in. intros t Ht.
      rewrite (@in_range_covered t step n i Hs Hi).
      f_equal. exact (class_index_test turns t j Ht L).
    + assert (j = List.length (speakers turns)) as -> by lia.
      rewrite app_nth2 by (rewrite length_map; lia).
      rewrite length_map, Nat.sub_diag. simpl.
      rewrite <- (existsb_none _ turns). apply existsb_ext_in.
      intros t Ht. pose proof (class_index_lt turns t Ht) as Hlt.
      unfold class_index in Hlt. fold (speakers turns) in Hlt.
      destruct (Nat.eqb_spec (Np.index_of String.compare (speaker_id t)
                                (speakers turns))
                             (List.length (speakers turns))); [lia|].
      reflexivity.
Qed.

(** Some speaker is heard exactly when some turn covers the frame. *)
Lemma speaks_any (turns : list Turn) (step : Q) (i : nat) :
  existsb (fun b => b) (map (speaks turns step i) (speakers turns)) =
  existsb (fun t => covered t step i) turns.
Proof.
  apply eq_true_iff_eq. rewrite !existsb_exists. split.
  - intros (b & Hb & ->). apply in_map_iff in Hb as (s & Hs & _).
    unfold speaks in Hs. apply existsb_exists in Hs as (t & Ht & Hc).
    apply andb_true_iff in Hc as [_ Hc]. now exists t.
  - intros (t & Ht & Hc). exists true. split; [|reflexivity].
    apply in_map_iff. exists (speaker_id t). split.
    + unfold speaks. apply existsb_exists. exists t. split; [exact Ht|].
      now rewrite String.eqb_refl, Hc.
    + apply speakers_In. now exists t.
Qed.

(** The row of frame [i] in the matrix of [turns_to_frames]. *)
Lemma frame_row_speaks (turns : list Turn) (n : nat) (step : Q) (i : nat) :
  (0 < step)%Q -> i < n ->
  frame_row turns n step i =
  map (speaks turns step i) (speakers turns)
  ++ [negb (existsb (fun t => covered t step i) turns)].
Proof.
  intros Hs Hi. unfold frame_row. cbv zeta.
  rewrite (marked_row_speaks turns n step i Hs Hi), fill_row_app.
  now rewrite speaks_any.
Qed.

End FrameRows.

(** ** The integer code of a row *)

Section LabelCodes.

Import Score FrameSpec.









End LabelCodes.

(** ** What [turns_to_frames] returns *)

Section FrameLabelerResults.

Import Score FrameSpec.

(** The integer labels are the codes of the rows, one per frame. *)
Lemma turns_to_frames_int (turns : list Turn) (dur : option Q) (step : Q)
      (ls : list Z) :
  turns_to_frames turns dur step false = Ok (IntLabels ls) ->
  exists d n,
    resolve_dur turns dur = Ok d /\
    int_div d step = Ok (Z.of_nat n) /\
    List.length ls = n /\
    ls = map (fun i => row_label (Np.pows (List.length (classes_of turns)))
                                 (frame_row turns n step i))
             (seq 0 n).
Proof.
  unfold turns_to_frames. intros H.
  destruct (resolve_dur turns dur) as [d|] eqn:Ed; cbn [bind] in H;
    [|discriminate].
  destruct (int_div d step) as [n|] eqn:En; cbn [bind] in H; [|discriminate].
  destruct (Z.ltb_spec n 0) as [Hneg|Hpos]; [discriminate|].
  injection H as <-. exists d, (Z.to_nat n).
  split; [reflexivity|]. split; [now rewrite Z2Nat.id|].
  rewrite presence_rows, map_map, length_map, length_seq.
  split; reflexivity.
Qed.


(** With a step that is not zero, the two forms of the output stand and
    fall together. *)
Lemma turns_to_frames_both (turns : list Turn) (dur : option Q) (step : Q)
      (n : Z) (d : Q) :
  resolve_dur turns dur = Ok d ->
  int_div d step = Ok n ->
  (0 <= n)%Z ->
  let codes := map (fun i =>
                      row_label (Np.pows (List.length (classes_of turns)))
                                (frame_row turns (Z.to_nat n) step i))
                   (seq 0 (Z.to_nat n)) in
  turns_to_frames turns dur step false = Ok (IntLabels codes) /\
  turns_to_frames turns dur step true =
  Ok (StrLabels (map (getitem (label_classes (classes_of turns))) codes)).
Proof.
  intros Hd Hn Hpos codes. unfold turns_to_frames.
  rewrite Hd. cbn [bind]. rewrite Hn. cbn [bind].
  destruct (Z.ltb_spec n 0) as [Hneg|_]; [lia|].
  unfold codes. rewrite presence_rows, !map_map. split; reflexivity.
Qed.

(** [int(dur/step)] on a duration that is not negative: the number of
    whole steps in the duration. *)
Lemma int_div_floor (dur step : Q) (n : Z) :
  (0 < step)%Q -> (0 <= dur)%Q ->
  int_div dur step = Ok n ->
  (0 <= n)%Z /\
  (inject_Z n * step <= dur)%Q /\ (dur < inject_Z (n + 1) * step)%Q.
Proof.
  intros Hs Hd. unfold int_div.
  destruct (Qeq_bool step 0) eqn:E.
  { apply Qeq_bool_iff in E. rewrite E in Hs. now apply Qlt_irrefl in Hs. }
  assert (Hne : ~ (step == 0)%Q).
  { intros F. rewrite F in Hs. now apply Qlt_irrefl in Hs. }
  assert (Hq : (0 <= dur / step)%Q).
  { apply Qle_shift_div_l; [exact Hs|]. now rewrite Qmult_0_l. }
  assert (Hdur : (dur / step * step == dur)%Q).
  { unfold Qdiv. rewrite <- Qmult_assoc, (Qmult_comm (/ step)),
      Qmult_inv_r, Qmult_1_r by exact Hne. reflexivity. }
  cbv zeta. remember (dur / step)%Q as q eqn:Eq. clear Eq.
  destruct q as [a b]. unfold Qle in Hq. simpl in Hq. simpl Qnum. simpl Qden.
  intros H. injection H as <-.
  assert (Ha : (0 <= a)%Z) by lia.
  rewrite Z.quot_div_nonneg by lia.
  pose proof (Z.mul_div_le a (Zpos b) ltac:(lia)) as L1.
  pose proof (Z.mul_succ_div_gt a (Zpos b) ltac:(lia)) as L2.
  split; [apply Z.div_pos; lia|]. split.
  - rewrite <- Hdur. apply Qmult_le_compat_r; [|now apply Qlt_le_weak].
    unfold Qle. simpl. lia.
  - rewrite <- Hdur at 1. apply Qmult_lt_compat_r; [exact Hs|].
    unfold Qlt. simpl. lia.
Qed.

End FrameLabelerResults.

Section FrameLabelerBehaviour.

Import Score FrameSpec.


Lemma int_div_value (dur step : Q) :
  Qeq_bool step 0 = false ->
  int_div dur step =
  Ok (Z.quot (Qnum (dur / step)) (Zpos (Qden (dur / step)))).
Proof. intros E. unfold int_div. now rewrite E. Qed.

Lemma step_nonzero (step : Q) : (0 < step)%Q -> Qeq_bool step 0 = false.
Proof.
  intros Hs. destruct (Qeq_bool step 0) eqn:E; [|reflexivity].
  apply Qeq_bool_iff in E. rewrite E in Hs. now apply Qlt_irrefl in Hs.
Qed.

(** Truncation towards zero: a quotient of at most -1 stays negative, and a
    quotient strictly between -1 and 1 becomes 0. *)
Lemma quot_le_minus_one (a : Z) (b : positive) :
  (a <= - Zpos b)%Z -> (Z.quot a (Zpos b) < 0)%Z.
Proof.
  intros H.
  assert (E : Z.quot a (Zpos b) = (- Z.quot (- a) (Zpos b))%Z).
  { rewrite Z.quot_opp_l by lia. lia. }
  rewrite E.
  pose proof (Z.quot_str_pos (- a) (Zpos b) ltac:(lia)). lia.
Qed.

Lemma quot_small_abs (a : Z) (b : positive) :
  (- Zpos b < a < Zpos b)%Z -> Z.quot a (Zpos b) = 0%Z.
Proof.
  intros H. destruct (Z.le_gt_cases 0 a) as [L|L].
  - apply Z.quot_small. lia.
  - assert (E : Z.quot a (Zpos b) = (- Z.quot (- a) (Zpos b))%Z).
    { rewrite Z.quot_opp_l by lia. lia. }
    rewrite E, Z.quot_small by lia. reflexivity.
Qed.

(** X1.  The number of frames.  For a step above zero and a duration that is
    not negative, [turns_to_frames] returns, as integers and as strings,
    the same number of labels, the number [int(dur/step)] of frames; there
    is no frame at all exactly when the duration is shorter than one step,
    and a longer duration never gives fewer frames.  (How many frames a
    duration of several steps gives depends on the rounding of the float
    quotient [dur/step], which the rational quotient of [int_div] leaves
    out: the statement is limited to what does not depend on it.) *)
Theorem frame_count (turns : list Turn) (dur step : Q) :
  (0 < step)%Q -> (0 <= dur)%Q ->
  exists (n : nat) (ls : list Z) (strs : list string),
    int_div dur step = Ok (Z.of_nat n) /\
    turns_to_frames turns (Some dur) step false = Ok (IntLabels ls) /\
    turns_to_frames turns (Some dur) step true = Ok (StrLabels strs) /\
    List.length ls = n /\ List.length strs = n /\
    (n = 0 <-> (dur < step)%Q) /\
    (forall (dur' : Q) (n' : Z),
        (dur <= dur')%Q -> int_div dur' step = Ok n' ->
        (Z.of_nat n <= n')%Z).
Proof.
  intros Hs Hd.
  destruct (@int_div_nonneg dur step Hs Hd) as (n & Hn & Hpos).
  destruct (int_div_floor dur step n Hs Hd Hn) as (_ & Hlo & Hhi).
  destruct (turns_to_frames_both turns (Some dur) step n dur eq_refl Hn Hpos)
    as [Hi Hstr].
  exists (Z.to_nat n). do 2 eexists.
  rewrite Z2Nat.id by exact Hpos.
  split; [exact Hn|]. split; [exact Hi|]. split; [exact Hstr|].
  rewrite !length_map, length_seq.
  split; [reflexivity|]. split; [reflexivity|]. split; [split|].
  - intros E. assert (n = 0%Z) as -> by lia.
    assert (X : (inject_Z (0 + 1) * step == step)%Q)
      by (change (inject_Z (0 + 1)) with 1%Q; ring).
    now rewrite X in Hhi.
  - intros Hlt. destruct (Z.eq_dec n 0) as [->|Hne]; [reflexivity|].
    exfalso. assert (H1 : (1 <= n)%Z) by lia.
    assert (X : (step <= inject_Z n * step)%Q).
    { rewrite <- (Qmult_1_l step) at 1.
      apply Qmult_le_compat_r; [|now apply Qlt_le_weak].
      change 1%Q with (inject_Z 1). now rewrite <- Zle_Qle. }
    apply (Qlt_irrefl dur).
    eapply Qlt_le_trans; [exact Hlt|].
    eapply Qle_trans; [exact X|exact Hlo].
  - intros dur' n' Hle Hn'.
    assert (Hd' : (0 <= dur')%Q) by (eapply Qle_trans; eassumption).
    destruct (int_div_floor dur' step n' Hs Hd' Hn') as (Hpos' & _ & Hhi').
    destruct (Z.le_gt_cases n n') as [L|L]; [exact L|].
    exfalso. assert (H1 : (n' + 1 <= n)%Z) by lia.
    assert (X : (inject_Z (n' + 1) * step <= inject_Z n * step)%Q).
    { apply Qmult_le_compat_r; [|now apply Qlt_le_weak].
      now rewrite <- Zle_Qle. }
    apply (Qlt_irrefl dur').
    eapply Qlt_le_trans; [exact Hhi'|].
    eapply Qle_trans; [exact X|].
    eapply Qle_trans; [exact Hlo|exact Hle].
Qed.

Lemma frame_count_witness :
  exists (n : nat) (ls : list Z) (strs : list string),
    int_div (7 # 2)%Q 1%Q = Ok (Z.of_nat n) /\
    turns_to_frames [mkTurn "A" 0%Q 2%Q; mkTurn "B" 1%Q 3%Q] (Some (7 # 2)%Q)
                    1%Q false = Ok (IntLabels ls) /\
    turns_to_frames [mkTurn "A" 0%Q 2%Q; mkTurn "B" 1%Q 3%Q] (Some (7 # 2)%Q)
                    1%Q true = Ok (StrLabels strs) /\
    List.length ls = n /\ List.length strs = n /\
    (n = 0 <-> (7 # 2 < 1)%Q) /\
    (forall (dur' : Q) (n' : Z),
        (7 # 2 <= dur')%Q -> int_div dur' 1%Q = Ok n' ->
        (Z.of_nat n <= n')%Z).
Proof.
  apply (frame_count [mkTurn "A" 0%Q 2%Q; mkTurn "B" 1%Q 3%Q] (7 # 2)%Q 1%Q).
  - reflexivity.
  - discriminate.
Defined.

(** Where the rational quotient departs from the source: for the binary64
    numbers nearest to 0.03 and 0.01 the exact quotient is just below 3 and
    its integer part is 2, the quotient rounded to binary64 is 3.0, and the
    source makes three frames. *)
Lemma frame_count_rounding :
  let dur := 0x1.eb851eb851eb8p-6%float in
  let step := 0x1.47ae147ae147bp-7%float in
  Score64.int_div dur step = Ok 3%Z /\
  int_div (float_value dur) (float_value step) = Ok 2%Z /\
  (float_value dur < 3 * float_value step)%Q.
Proof. repeat split; vm_compute; reflexivity. Qed.

(** X2.  Errors and empty results.  Without turns and without a duration
    [turns_to_frames] raises a ValueError (the maximum of no offsets); with
    a step of zero it raises a ZeroDivisionError; with a step above zero and
    a duration of at most [- step] it raises a ValueError (a negative number
    of frames); and with a duration strictly between [- step] and [step] it
    returns no label at all, without an error. *)
Theorem turns_to_frames_edge_cases (turns : list Turn) (dur step : Q)
        (as_string : bool) :
  turns_to_frames [] None step as_string = Raise ValueError /\
  ((step == 0)%Q ->
   turns_to_frames turns (Some dur) step as_string = Raise ZeroDivisionError)
  /\
  ((0 < step)%Q -> (dur <= - step)%Q ->
   turns_to_frames turns (Some dur) step as_string = Raise ValueError) /\
  ((0 < step)%Q -> (- step < dur)%Q -> (dur < step)%Q ->
   turns_to_frames turns (Some dur) step as_string =
   Ok (if as_string then StrLabels [] else IntLabels [])).
Proof.
  split; [reflexivity|]. split; [|split].
  - intros E. apply Qeq_bool_iff in E. unfold turns_to_frames, int_div.
    cbn [resolve_dur bind]. rewrite E. reflexivity.
  - intros Hs Hd. unfold turns_to_frames. cbn [resolve_dur bind].
    rewrite (int_div_value dur step (step_nonzero step Hs)). cbn [bind].
    assert (Hq : (dur / step <= inject_Z (-1))%Q).
    { apply Qle_shift_div_r; [exact Hs|].
      assert (E : (inject_Z (-1) * step == - step)%Q) by ring.
      now rewrite E. }
    destruct (dur / step)%Q as [a b]. unfold Qle in Hq. simpl in Hq.
    simpl Qnum. simpl Qden.
    pose proof (quot_le_minus_one a b ltac:(lia)) as Hneg.
    destruct (Z.ltb_spec (Z.quot a (Zpos b)) 0) as [_|F]; [reflexivity|lia].
  - intros Hs Hlo Hhi. unfold turns_to_frames. cbn [resolve_dur bind].
    rewrite (int_div_value dur step (step_nonzero step Hs)). cbn [bind].
    assert (Hq1 : (inject_Z (-1) < dur / step)%Q).
    { apply Qlt_shift_div_l; [exact Hs|].
      assert (E : (inject_Z (-1) * step == - step)%Q) by ring.
      now rewrite E. }
    assert (Hq2 : (dur / step < inject_Z 1)%Q).
    { apply Qlt_shift_div_r; [exact Hs|].
      assert (E : (inject_Z 1 * step == step)%Q) by ring.
      now rewrite E. }
    destruct (dur / step)%Q as [a b]. unfold Qlt in Hq1, Hq2.
    simpl in Hq1, Hq2. simpl Qnum. simpl Qden.
    rewrite (quot_small_abs a b) by lia.
    change (0 <? 0)%Z with false. cbv iota. rewrite presence_rows.
    destruct as_string; reflexivity.
Qed.

Lemma turns_to_frames_edge_cases_witness :
  turns_to_frames [mkTurn "A" 0%Q 2%Q] (Some 1%Q) 0%Q false =
    Raise ZeroDivisionError /\
  turns_to_frames [mkTurn "A" 0%Q 2%Q] (Some (- (3))%Q) 2%Q false =
    Raise ValueError /\
  turns_to_frames [mkTurn "A" 0%Q 2%Q] (Some (- (1))%Q) 2%Q true =
    Ok (StrLabels []).
Proof.
  split; [|split].
  - apply (proj1 (proj2 (turns_to_frames_edge_cases
                           [mkTurn "A" 0%Q 2%Q] 1%Q 0%Q false))).
    reflexivity.
  - apply (proj1 (proj2 (proj2 (turns_to_frames_edge_cases
                                  [mkTurn "A" 0%Q 2%Q] (- (3))%Q 2%Q false)))).
    + reflexivity.
    + discriminate.
  - apply (proj2 (proj2 (proj2 (turns_to_frames_edge_cases
                                  [mkTurn "A" 0%Q 2%Q] (- (1))%Q 2%Q true)))).
    + reflexivity.
    + reflexivity.
    + reflexivity.
Defined.

Lemma nth_frame_label (turns : list Turn) (dur : option Q) (step : Q)
      (ls : list Z) (i : nat) :
  turns_to_frames turns dur step false = Ok (IntLabels ls) ->
  i < List.length ls ->
  nth i ls 0%Z =
  row_label (Np.pows (List.length (classes_of turns)))
            (frame_row turns (List.length ls) step i).
Proof.
  intros H Hi.
  destruct (turns_to_frames_int turns dur step ls H) as (d & n & _ & _ & L & E).
  rewrite L. rewrite E at 1. rewrite L in Hi.
  exact (@nth_map_seq _
           (fun i => row_label (Np.pows (List.length (classes_of turns)))
                               (frame_row turns n step i))
           n i 0%Z Hi).
Qed.

Lemma covered_at_arange (t : Turn) (step : Q) (n i : nat) :
  i < n -> covered_at (Np.arange_times step n) t i = covered t step i.
Proof.
  intros Hi. unfold covered_at, covered, Np.arange_times.
  now rewrite (@nth_map_seq _ (fun i => (step * inject_Z (Z.of_nat i))%Q)
                 n i 0%Q Hi).
Qed.

(** X3.  The bits of a label.  The speakers are the distinct speaker ids of the
    turns in ascending order.  With at most 62 speakers (so that the powers
    of two of the 63 classes fit into an int64), bit [j] of the integer
    label of frame [i] is set exactly when a turn of the [j]-th speaker
    covers the frame, and the bit after the last speaker, the one of
    non-speech, is set exactly when no turn covers it.  A turn covers frame
    [i] when [onset <= times[i] < offset] for the array
    [times = step * np.arange(n_frames)] that the labeler searches; a turn
    without length or one that lies beyond the duration marks nothing. *)
Theorem frame_label_bits (turns : list Turn) (dur : option Q) (step : Q)
        (ls : list Z) :
  (0 < step)%Q ->
  List.length (speakers turns) <= 62 ->
  turns_to_frames turns dur step false = Ok (IntLabels ls) ->
  let times := Np.arange_times step (List.length ls) in
  StronglySorted string_lt (speakers turns) /\
  (forall s, In s (speakers turns) <->
             exists t, In t turns /\ speaker_id t = s) /\
  forall i, i < List.length ls ->
    (forall j, j < List.length (speakers turns) ->
       Z.testbit (nth i ls 0%Z) (Z.of_nat j) =
       existsb (fun t => String.eqb (speaker_id t)
                                    (nth j (speakers turns) ""%string)
                         && covered_at times t i) turns) /\
    Z.testbit (nth i ls 0%Z) (Z.of_nat (List.length (speakers turns))) =
    negb (existsb (fun t => covered_at times t i) turns).
Proof.
  intros Hs Hk H times. split; [apply speakers_sorted|].
  split; [apply speakers_In|]. intros i Hi.
  assert (Hc : forall t, covered_at times t i = covered t step i)
    by (intros t; now apply covered_at_arange).
  rewrite (nth_frame_label turns dur step ls i H Hi).
  rewrite row_label_exact by (rewrite length_classes_of_speakers; lia).
  pose proof (@length_frame_row turns (List.length ls) step i) as Hw.
  split.
  - intros j Hj. rewrite code_testbit by exact Hw.
    rewrite (frame_row_speaks turns _ step i Hs Hi).
    rewrite app_nth1 by now rewrite length_map.
    rewrite (nth_map_default _ _ (speaks turns step i) (speakers turns) j
               ""%string false Hj).
    unfold speaks. apply existsb_eq. intros t. now rewrite Hc.
  - rewrite code_testbit by exact Hw.
    rewrite (frame_row_speaks turns _ step i Hs Hi).
    rewrite app_nth2 by (rewrite length_map; lia).
    rewrite length_map, Nat.sub_diag. cbn [nth]. f_equal.
    apply existsb_eq. intros t. now rewrite Hc.
Qed.

Lemma frame_label_bits_witness :
  let turns := [mkTurn "B" 1%Q 3%Q; mkTurn "A" 0%Q 2%Q] in
  let ls := [1; 3; 2; 4]%Z in
  let times := Np.arange_times 1%Q (List.length ls) in
  StronglySorted string_lt (speakers turns) /\
  (forall s, In s (speakers turns) <->
             exists t, In t turns /\ speaker_id t = s) /\
  forall i, i < List.length ls ->
    (forall j, j < List.length (speakers turns) ->
       Z.testbit (nth i ls 0%Z) (Z.of_nat j) =
       existsb (fun t => String.eqb (speaker_id t)
                                    (nth j (speakers turns) ""%string)
                         && covered_at times t i) turns) /\
    Z.testbit (nth i ls 0%Z) (Z.of_nat (List.length (speakers turns))) =
    negb (existsb (fun t => covered_at times t i) turns).
Proof.
  apply (frame_label_bits [mkTurn "B" 1%Q 3%Q; mkTurn "A" 0%Q 2%Q]
                          (Some 4%Q) 1%Q [1; 3; 2; 4]%Z).
  - reflexivity.
  - vm_compute. lia.
  - reflexivity.
Defined.









End FrameLabelerBehaviour.

(** ** What the aligner returns *)

Section AlignerResults.

Import Score AlignSpec FrameSpec.

Lemma int_frames_labels (turns : list Turn) (dur step : Q) (l : list Z) :
  int_frames turns dur step = Ok l <->
  turns_to_frames turns (Some dur) step false = Ok (IntLabels l).
Proof.
  unfold int_frames. split.
  - intros H.
    destruct (turns_to_frames turns (Some dur) step false) as [[x|x]|];
      cbn [bind] in H; try discriminate.
    now injection H as ->.
  - intros ->. reflexivity.
Qed.

Lemma int_frames_length (turns : list Turn) (dur step : Q) (l : list Z) :
  int_frames turns dur step = Ok l ->
  int_div dur step = Ok (Z.of_nat (List.length l)).
Proof.
  intros H. apply int_frames_labels in H.
  destruct (turns_to_frames_int _ _ _ _ H) as (d & n & Hd & Hn & L & _).
  cbn [resolve_dur] in Hd. injection Hd as <-. now rewrite L.
Qed.

(** Whatever the number of speakers, the labels are int64 values. *)
Lemma int_frames_int64 (turns : list Turn) (dur step : Q) (l : list Z) :
  int_frames turns dur step = Ok l ->
  Forall (fun x => - 2 ^ 63 <= x < 2 ^ 63)%Z l.
Proof.
  intros H. apply int_frames_labels in H.
  destruct (turns_to_frames_int _ _ _ _ H) as (d & n & _ & _ & _ & ->).
  apply Forall_forall. intros x Hx.
  apply in_map_iff in Hx as (i & <- & _). apply row_label_int64.
Qed.

(** Adding the initial maximum 0 changes nothing. *)
Lemma shift_zero (l : list Z) :
  Forall (fun x => - 2 ^ 63 <= x < 2 ^ 63)%Z l ->
  map (fun x => Np.wrap64 (x + 0)) l = l.
Proof.
  intros H. rewrite <- (map_id l) at 2. apply map_ext_in. intros x Hx.
  rewrite Forall_forall in H. specialize (H x Hx). cbv beta in H.
  rewrite Z.add_0_r. now apply wrap64_small.
Qed.

(** One recording adds one array to each stream; the two arrays have the
    same length, which is not zero. *)
Lemma align_rec_chunks (ref sys : rttm) (step : Q) (st st' : acc)
      (rec_id : string) :
  align_rec ref sys step st rec_id = Ok st' ->
  exists rl sl,
    ref_labels st' = ref_labels st ++ [rl] /\
    sys_labels st' = sys_labels st ++ [sl] /\
    List.length rl = List.length sl /\ rl <> [].
Proof.
  unfold align_rec. intros H.
  destruct (lookup rec_id ref) as [rt|]; cbn [bind] in *; [|discriminate].
  destruct (lookup rec_id sys) as [stn|]; cbn [bind] in *; [|discriminate].
  destruct (max_offset (map offset rt)) as [rd|]; cbn [bind] in *;
    [|discriminate].
  destruct (max_offset (map offset stn)) as [sd|]; cbn [bind] in *;
    [|discriminate].
  destruct (int_frames rt (qmin rd sd) step) as [rl|] eqn:Erl;
    cbn [bind] in *; [|discriminate].
  destruct (Np.amax (map (fun l => Np.wrap64 (l + max_ref_label st)) rl))
    as [mr|] eqn:Emr; cbn [bind] in *; [|discriminate].
  destruct (int_frames stn (qmin rd sd) step) as [sl|] eqn:Esl;
    cbn [bind] in *; [|discriminate].
  destruct (Np.amax (map (fun l => Np.wrap64 (l + max_sys_label st)) sl))
    as [ms|] eqn:Ems; cbn [bind] in *; [|discriminate].
  injection H as <-. cbn [ref_labels sys_labels].
  do 2 eexists. split; [reflexivity|]. split; [reflexivity|]. split.
  - rewrite !length_map. apply int_frames_length in Erl, Esl.
    rewrite Erl in Esl. injection Esl as E. lia.
  - intros F. rewrite F in Emr. discriminate.
Qed.

Lemma align_loop_chunks (ref sys : rttm) (step : Q) (ids : list string) :
  forall st st',
    Forall2 (fun a b : list Z => List.length a = List.length b /\ a <> [])
            (ref_labels st) (sys_labels st) ->
    align_loop ref sys step ids st = Ok st' ->
    Forall2 (fun a b : list Z => List.length a = List.length b /\ a <> [])
            (ref_labels st') (sys_labels st').
Proof.
  induction ids as [|id ids IH]; intros st st' Hinv Hloop; simpl in *.
  - now injection Hloop as <-.
  - destruct (align_rec ref sys step st id) as [st1|] eqn:E;
      cbn [bind] in Hloop; [|discriminate].
    apply (IH st1 st'); [|exact Hloop].
    destruct (align_rec_chunks _ _ _ _ _ _ E) as (rl & sl & -> & -> & L & N).
    apply Forall2_app; [exact Hinv|]. constructor; [tauto|constructor].
Qed.

Lemma concat_paired (rc sc : list (list Z)) :
  Forall2 (fun a b : list Z => List.length a = List.length b /\ a <> [])
          rc sc ->
  List.length (List.concat rc) = List.length (List.concat sc) /\
  (rc <> [] -> List.concat rc <> []).
Proof.
  induction 1 as [|a b rc sc [L N] _ [IH1 IH2]]; simpl.
  - split; [reflexivity|congruence].
  - rewrite !length_app, L, IH1. split; [reflexivity|].
    intros _. destruct a; [congruence|discriminate].
Qed.

Lemma aligned_chunk_pos (chunks : list (list Z)) :
  (forall k, k < List.length chunks ->
     exists l, Forall (fun x => 1 <= x)%Z l /\
               nth k chunks [] = map (fun x => x + running_max chunks k)%Z l) ->
  Forall (fun x => 1 <= x)%Z (List.concat chunks).
Proof.
  intros H. apply Forall_forall. intros x Hx.
  apply in_concat in Hx as (c & Hc & Hxc).
  destruct (In_nth _ _ [] Hc) as (k & Hk & <-).
  destruct (H k Hk) as (l & Pl & El). rewrite El in Hxc.
  apply in_map_iff in Hxc as (y & <- & Hy).
  rewrite Forall_forall in Pl. specialize (Pl y Hy). simpl in Pl.
  pose proof (@running_max_nonneg chunks k). lia.
Qed.

(** X7.  The output of the aligner.  When [rttms_to_frames] returns, the
    reference and the system sequence have the same length, they are not
    empty, and [contingency_matrix] accepts the pair: the length check of the
    sparse-matrix constructor cannot fail on what the aligner returns.  When
    the labels of the common recordings have room in int64 on both sides,
    every label is at least 1. *)
Theorem aligner_output_paired (ref sys : rttm) (step : Q) (r s : list Z) :
  rttms_to_frames ref sys step = Ok (r, s) ->
  List.length r = List.length s /\
  r <> [] /\
  (exists cm,
     Metrics.contingency_matrix r s =
     Ok (cm, Np.unique Z.compare r, Np.unique Z.compare s)) /\
  ((label_room ref (common_rec_ids ref sys) <= 2 ^ 63)%Z ->
   (label_room sys (common_rec_ids ref sys) <= 2 ^ 63)%Z ->
   Forall (fun l => 1 <= l)%Z r /\ Forall (fun l => 1 <= l)%Z s).
Proof.
  unfold rttms_to_frames, rttms_to_chunks. intros H.
  destruct (align_loop ref sys step (common_rec_ids ref sys) acc0)
    as [st|] eqn:E; cbn [bind] in H; [|discriminate].
  pose proof (align_loop_chunks ref sys step _ acc0 st
                (Forall2_nil _) E) as Hp.
  assert (Hpos : (label_room ref (common_rec_ids ref sys) <= 2 ^ 63)%Z ->
                 (label_room sys (common_rec_ids ref sys) <= 2 ^ 63)%Z ->
                 Forall (fun x => 1 <= x)%Z (List.concat (ref_labels st)) /\
                 Forall (fun x => 1 <= x)%Z (List.concat (sys_labels st))).
  { intros Rr Rs.
    pose proof (@align_loop_aligned ref sys step _ [] acc0 st
                  (aligned_init ref sys step) (Z.le_refl 0) (Z.le_refl 0)
                  Rr Rs E) as Hinv.
    simpl in Hinv. destruct Hinv as (Lr & Ls & _ & _ & Hk). split.
    - apply aligned_chunk_pos. intros k Hlt. rewrite Lr in Hlt.
      destruct (nth_error (common_rec_ids ref sys) k) as [id|] eqn:Eid.
      + destruct (Hk k id Eid) as (rl & sl & _ & _ & P & _ & Q & _).
        now exists rl.
      + apply nth_error_None in Eid. lia.
    - apply aligned_chunk_pos. intros k Hlt. rewrite Ls in Hlt.
      destruct (nth_error (common_rec_ids ref sys) k) as [id|] eqn:Eid.
      + destruct (Hk k id Eid) as (rl & sl & _ & _ & _ & P & _ & Q).
        now exists sl.
      + apply nth_error_None in Eid. lia. }
  destruct (concat_paired _ _ Hp) as [Hlen Hne].
  destruct (ref_labels st) as [|r0 rc'] eqn:Er; cbn [concatenate bind] in H;
    [discriminate|].
  destruct (sys_labels st) as [|s0 sc'] eqn:Es; cbn [concatenate bind] in H;
    [discriminate|].
  injection H as <- <-.
  split; [exact Hlen|]. split; [apply Hne; discriminate|].
  split; [|exact Hpos].
  destruct (@contingency_cells (List.concat (r0 :: rc'))
              (List.concat (s0 :: sc')) Hlen) as (cm & Hcm & _).
  now exists cm.
Qed.

Lemma aligner_output_paired_witness :
  let ref := [("a"%string,
               [mkTurn "S1" 0%Q 3%Q; mkTurn "S2" 2%Q 4%Q]);
              ("b"%string, [mkTurn "S1" 0%Q 2%Q])] in
  let sys := [("b"%string, [mkTurn "X" 0%Q 3%Q]);
              ("a"%string, [mkTurn "Y" 0%Q 3%Q; mkTurn "Z" 2%Q 4%Q])] in
  let r := [1; 1; 3; 2; 4; 4]%Z in
  let s := [1; 1; 3; 2; 4; 4]%Z in
  List.length r = List.length s /\
  r <> [] /\
  (exists cm,
     Metrics.contingency_matrix r s =
     Ok (cm, Np.unique Z.compare r, Np.unique Z.compare s)) /\
  ((label_room ref (common_rec_ids ref sys) <= 2 ^ 63)%Z ->
   (label_room sys (common_rec_ids ref sys) <= 2 ^ 63)%Z ->
   Forall (fun l => 1 <= l)%Z r /\ Forall (fun l => 1 <= l)%Z s).
Proof.
  apply (aligner_output_paired
           [("a"%string, [mkTurn "S1" 0%Q 3%Q; mkTurn "S2" 2%Q 4%Q]);
            ("b"%string, [mkTurn "S1" 0%Q 2%Q])]
           [("b"%string, [mkTurn "X" 0%Q 3%Q]);
            ("a"%string, [mkTurn "Y" 0%Q 3%Q; mkTurn "Z" 2%Q 4%Q])]
           1%Q).
  reflexivity.
Defined.

(** *** Recordings of one file only *)

Lemma existsb_eqb_In (k : string) (l : list string) :
  existsb (String.eqb k) l = true <-> In k l.
Proof.
  rewrite existsb_exists. split.
  - intros (x & Hx & E). apply String.eqb_eq in E. now subst.
  - intros H. exists k. split; [exact H|apply String.eqb_refl].
Qed.

Lemma keys_restrict (d : rttm) (ids : list string) :
  keys (restrict d ids) =
  filter (fun k => existsb (String.eqb k) ids) (keys d).
Proof.
  unfold keys, restrict. induction d as [|[k v] d IH]; simpl; [reflexivity|].
  destruct (existsb (String.eqb k) ids); simpl; now rewrite IH.
Qed.

Lemma filter_filter_same (A : Type) (p q : A -> bool) (l : list A) :
  (forall x, In x l -> p x = true -> q x = true) ->
  filter q (filter p l) = filter p l.
Proof.
  induction l as [|a l IH]; intros H; simpl; [reflexivity|].
  destruct (p a) eqn:E; simpl.
  - rewrite (H a (or_introl eq_refl) E). f_equal. apply IH.
    intros x Hx. apply H. now right.
  - apply IH. intros x Hx. apply H. now right.
Qed.

Lemma common_rec_ids_restrict (ref sys : rttm) :
  common_rec_ids (restrict ref (keys sys)) (restrict sys (keys ref)) =
  common_rec_ids ref sys.
Proof.
  unfold common_rec_ids. rewrite !keys_restrict. f_equal.
  apply filter_filter_same. intros k Hk Hp.
  apply existsb_eqb_In, filter_In. split.
  - now apply existsb_eqb_In.
  - now apply existsb_eqb_In.
Qed.

Lemma lookup_restrict (d : rttm) (ids : list string) (id : string) :
  existsb (String.eqb id) ids = true ->
  lookup id (restrict d ids) = lookup id d.
Proof.
  intros H. unfold restrict.
  induction d as [|[k v] d IH]; simpl; [reflexivity|].
  destruct (String.eqb id k) eqn:E.
  - apply String.eqb_eq in E. subst k. rewrite H. simpl.
    now rewrite String.eqb_refl.
  - destruct (existsb (String.eqb k) ids); simpl; [rewrite E|]; exact IH.
Qed.

Lemma common_In (ref sys : rttm) (id : string) :
  In id (common_rec_ids ref sys) <-> In id (keys ref) /\ In id (keys sys).
Proof.
  unfold common_rec_ids.
  rewrite unique_In_string, filter_In, existsb_eqb_In. tauto.
Qed.

Lemma align_loop_restrict (ref sys : rttm) (step : Q) (ids : list string) :
  (forall id, In id ids -> In id (keys ref) /\ In id (keys sys)) ->
  forall st,
    align_loop (restrict ref (keys sys)) (restrict sys (keys ref)) step ids st
    = align_loop ref sys step ids st.
Proof.
  induction ids as [|id ids IH]; intros H st; simpl; [reflexivity|].
  destruct (H id (or_introl eq_refl)) as [Hr Hs].
  assert (E : align_rec (restrict ref (keys sys)) (restrict sys (keys ref))
                        step st id = align_rec ref sys step st id).
  { unfold align_rec.
    rewrite (lookup_restrict ref (keys sys) id)
      by now apply existsb_eqb_In.
    rewrite (lookup_restrict sys (keys ref) id)
      by now apply existsb_eqb_In.
    reflexivity. }
  rewrite E. destruct (align_rec ref sys step st id); cbn [bind];
    [|reflexivity].
  apply IH. intros x Hx. apply H. now right.
Qed.

(** X8.  Recordings of one file only.  The aligner looks at the recordings that
    both files hold and at nothing else: on the two dictionaries with the
    recordings of one file only taken out, it returns what it returns on
    the full ones.  A recording that the system output lacks is left out
    of the score, without an error. *)
Theorem unpaired_recordings_ignored (ref sys : rttm) (step : Q) :
  rttms_to_frames (restrict ref (keys sys)) (restrict sys (keys ref)) step =
  rttms_to_frames ref sys step.
Proof.
  unfold rttms_to_frames, rttms_to_chunks.
  rewrite common_rec_ids_restrict, align_loop_restrict; [reflexivity|].
  intros id. apply common_In.
Qed.

(** *** A recording shorter than a step *)

Lemma lookup_In (d : rttm) (id : string) :
  In id (keys d) -> exists v, lookup id d = Ok v.
Proof.
  unfold keys. induction d as [|[k v] d IH]; simpl; [tauto|].
  intros H. destruct (String.eqb id k) eqn:E; [now exists v|].
  destruct H as [->|H]; [now rewrite String.eqb_refl in E|]. now apply IH.
Qed.

Lemma int_frames_raises (turns : list Turn) (dur step : Q) (e : error) :
  Qeq_bool step 0 = false ->
  int_frames turns dur step = Raise e -> e = ValueError.
Proof.
  intros Hs. unfold int_frames, turns_to_frames. cbn [resolve_dur bind].
  rewrite (int_div_value dur step Hs). cbn [bind].
  destruct (_ <? 0)%Z; cbn [bind]; intros H; [|discriminate].
  now injection H.
Qed.

Lemma amax_raises (l : list Z) (e : error) :
  Np.amax l = Raise e -> e = ValueError.
Proof. destruct l; simpl; intros H; [now injection H|discriminate]. Qed.

Lemma max_offset_raises (l : list Q) (e : error) :
  max_offset l = Raise e -> e = ValueError.
Proof. destruct l; simpl; intros H; [now injection H|discriminate]. Qed.

Lemma align_rec_raises (ref sys : rttm) (step : Q) (st : acc) (id : string)
      (e : error) :
  Qeq_bool step 0 = false ->
  In id (keys ref) -> In id (keys sys) ->
  align_rec ref sys step st id = Raise e -> e = ValueError.
Proof.
  intros Hs Hr Hy. unfold align_rec.
  destruct (lookup_In ref id Hr) as (rt & ->).
  destruct (lookup_In sys id Hy) as (stn & ->). cbn [bind].
  destruct (max_offset (map offset rt)) as [rd|] eqn:E1; cbn [bind];
    [|intros H; injection H as <-; eapply max_offset_raises; eassumption].
  destruct (max_offset (map offset stn)) as [sd|] eqn:E2; cbn [bind];
    [|intros H; injection H as <-; eapply max_offset_raises; eassumption].
  destruct (int_frames rt (qmin rd sd) step) as [rl|] eqn:E3; cbn [bind];
    [|intros H; injection H as <-; eapply int_frames_raises; eassumption].
  destruct (Np.amax (map (fun l => Np.wrap64 (l + max_ref_label st)) rl))
    as [mr|] eqn:E4; cbn [bind];
    [|intros H; injection H as <-; eapply amax_raises; eassumption].
  destruct (int_frames stn (qmin rd sd) step) as [sl|] eqn:E5; cbn [bind];
    [|intros H; injection H as <-; eapply int_frames_raises; eassumption].
  destruct (Np.amax (map (fun l => Np.wrap64 (l + max_sys_label st)) sl))
    as [ms|] eqn:E6; cbn [bind];
    [|intros H; injection H as <-; eapply amax_raises; eassumption].
  discriminate.
Qed.

Lemma int_div_short (dur step : Q) :
  (0 < step)%Q -> (dur < step)%Q ->
  exists n, int_div dur step = Ok n /\ (n <= 0)%Z.
Proof.
  intros Hs Hd. rewrite (int_div_value dur step (step_nonzero step Hs)).
  eexists; split; [reflexivity|].
  assert (Hq : (dur / step < inject_Z 1)%Q).
  { apply Qlt_shift_div_r; [exact Hs|].
    assert (E : (inject_Z 1 * step == step)%Q) by ring.
    now rewrite E. }
  destruct (dur / step)%Q as [a b]. unfold Qlt in Hq. simpl in Hq.
  simpl Qnum. simpl Qden.
  destruct (Z.le_gt_cases 0 a) as [L|L].
  - rewrite Z.quot_small by lia. lia.
  - assert (E : Z.quot a (Zpos b) = (- Z.quot (- a) (Zpos b))%Z).
    { rewrite Z.quot_opp_l by lia. lia. }
    rewrite E. pose proof (Z.quot_pos (- a) (Zpos b) ltac:(lia) ltac:(lia)).
    lia.
Qed.

Lemma align_rec_short (ref sys : rttm) (step : Q) (st : acc) (id : string)
      (d : Q) :
  (0 < step)%Q ->
  rec_dur ref sys id = Ok d -> (d < step)%Q ->
  align_rec ref sys step st id = Raise ValueError.
Proof.
  intros Hs Hd Hlt. unfold rec_dur in Hd. unfold align_rec.
  destruct (lookup id ref) as [rt|]; cbn [bind] in *; [|discriminate].
  destruct (lookup id sys) as [stn|]; cbn [bind] in *; [|discriminate].
  destruct (max_offset (map offset rt)) as [rd|]; cbn [bind] in *;
    [|discriminate].
  destruct (max_offset (map offset stn)) as [sd|]; cbn [bind] in *;
    [|discriminate].
  injection Hd as <-.
  destruct (int_frames rt (qmin rd sd) step) as [rl|e] eqn:E; cbn [bind].
  - apply int_frames_length in E.
    destruct (int_div_short _ _ Hs Hlt) as (n & Hn & Hle).
    rewrite Hn in E. injection E as ->.
    assert (rl = []) as -> by (destruct rl; [reflexivity|simpl in Hle; lia]).
    reflexivity.
  - f_equal. eapply int_frames_raises; [|exact E].
    now apply step_nonzero.
Qed.

Lemma align_loop_short (ref sys : rttm) (step : Q) (ids : list string)
      (bad : string) :
  Qeq_bool step 0 = false ->
  (forall id, In id ids -> In id (keys ref) /\ In id (keys sys)) ->
  In bad ids ->
  (forall st, align_rec ref sys step st bad = Raise ValueError) ->
  forall st, align_loop ref sys step ids st = Raise ValueError.
Proof.
  intros Hs. induction ids as [|id ids IH]; intros Hc Hin Hbad st;
    [contradiction|].
  simpl. destruct (align_rec ref sys step st id) as [st1|e] eqn:E;
    cbn [bind].
  - destruct Hin as [->|Hin]; [rewrite Hbad in E; discriminate|].
    apply IH; [|exact Hin|exact Hbad].
    intros x Hx. apply Hc. now right.
  - f_equal. destruct (Hc id (or_introl eq_refl)) as [Hr Hy].
    exact (align_rec_raises ref sys step st id e Hs Hr Hy E).
Qed.

(** X9.  A recording shorter than a step.  With a step above zero, when for one
    recording that both files hold the window [min(ref_dur, sys_dur)] is
    shorter than one step, [rttms_to_frames] raises a ValueError (the
    maximum of an array without frames), whatever the other recordings
    are: one short recording makes the whole call fail. *)
Theorem short_recording_aborts (ref sys : rttm) (step : Q) (rec_id : string)
        (d : Q) :
  (0 < step)%Q ->
  In rec_id (common_rec_ids ref sys) ->
  rec_dur ref sys rec_id = Ok d ->
  (d < step)%Q ->
  rttms_to_frames ref sys step = Raise ValueError.
Proof.
  intros Hs Hin Hd Hlt. unfold rttms_to_frames, rttms_to_chunks.
  rewrite (align_loop_short ref sys step (common_rec_ids ref sys) rec_id).
  - reflexivity.
  - now apply step_nonzero.
  - intros id. apply common_In.
  - exact Hin.
  - intros st. now apply (align_rec_short ref sys step st rec_id d).
Qed.

Lemma short_recording_aborts_witness :
  rttms_to_frames
    [("a"%string, [mkTurn "S1" 0%Q 3%Q]);
     ("b"%string, [mkTurn "S1" 0%Q (1 # 2)%Q])]
    [("a"%string, [mkTurn "X" 0%Q 3%Q]); ("b"%string, [mkTurn "X" 0%Q 2%Q])]
    1%Q = Raise ValueError.
Proof.
  apply (short_recording_aborts
           [("a"%string, [mkTurn "S1" 0%Q 3%Q]);
            ("b"%string, [mkTurn "S1" 0%Q (1 # 2)%Q])]
           [("a"%string, [mkTurn "X" 0%Q 3%Q]);
            ("b"%string, [mkTurn "X" 0%Q 2%Q])]
           1%Q "b"%string (1 # 2)%Q).
  - reflexivity.
  - right. left. reflexivity.
  - reflexivity.
  - reflexivity.
Defined.

(** *** The two aligners on files of one recording *)

Lemma turns_to_frames_int_str (turns : list Turn) (dur : option Q) (step : Q)
      (l : list Z) :
  turns_to_frames turns dur step false = Ok (IntLabels l) ->
  turns_to_frames turns dur step true =
  Ok (StrLabels (map (class_name turns) l)).
Proof.
  unfold turns_to_frames.
  destruct (resolve_dur turns dur); cbn [bind]; [|discriminate].
  destruct (int_div a step); cbn [bind]; [|discriminate].
  destruct (_ <? 0)%Z; intros H; [discriminate|].
  injection H as <-. reflexivity.
Qed.

Lemma select_none (classes : list string) (mask : list bool) :
  (forall b, In b mask -> b = false) -> select classes mask = [].
Proof.
  revert mask; induction classes as [|c cs IH]; intros [|b bs] H;
    cbn [select]; try reflexivity.
  rewrite (H b (or_introl eq_refl)). apply IH. intros x Hx. apply H.
  now right.
Qed.

(** The entry 0 of [label_classes] is the name of no class at all. *)
Lemma label_classes_zero (classes : list string) :
  getitem (label_classes classes) 0%Z = ""%string.
Proof.
  unfold getitem, label_classes. cbn [Z.ltb Z.compare Z.to_nat].
  assert (Hlt : 0 < 2 ^ List.length classes).
  { apply Nat.neq_0_lt_0. apply Nat.pow_nonzero. discriminate. }
  rewrite (@nth_map_seq _
             (fun n => join (select classes
                                    (to_binary (List.length classes) n)))
             (2 ^ List.length classes) 0 ""%string Hlt).
  rewrite select_none; [reflexivity|].
  intros b Hb. unfold to_binary in Hb.
  apply in_map_iff in Hb as (j & <- & _). apply Z.testbit_0_l.
Qed.

(** The string form beyond the int64 range: a recording that lists 64
    speakers, none of them heard in its single frame.  The label of the
    frame is 0 (the power [2 ** 64] of non-speech in int64), and the string
    form looks up the entry 0 of [label_classes], the empty name, where the
    frame is one of non-speech. *)
Lemma string_label_wraps :
  turns_to_frames (silent_turns 64 0%Q) (Some 1%Q) 1%Q true =
  Ok (StrLabels [""%string]) /\
  label_name (active (silent_turns 64 0%Q) 1%Q 0) = "non-speech"%string.
Proof.
  split; [|vm_compute; reflexivity].
  assert (E : turns_to_frames (silent_turns 64 0%Q) (Some 1%Q) 1%Q false =
              Ok (IntLabels [0%Z])) by (vm_compute; reflexivity).
  rewrite (turns_to_frames_int_str _ _ _ _ E). cbn [map].
  unfold class_name. now rewrite label_classes_zero.
Qed.

Lemma common_single (rec_id : string) (rt st : list Turn) :
  common_rec_ids [(rec_id, rt)] [(rec_id, st)] = [rec_id].
Proof.
  unfold common_rec_ids, keys. simpl.
  rewrite String.eqb_refl. reflexivity.
Qed.

(** X10.  The two aligners on files of one recording.  When each file holds the
    same single recording and the aligner of the scorer returns integer
    labels, the aligner of [confusion_matrix.py] returns the names of these
    labels, frame by frame: both tools label the same frames. *)
Theorem single_recording_tools_agree (rec_id : string)
        (ref_turns sys_turns : list Turn) (step : Q) (r s : list Z) :
  rttms_to_frames [(rec_id, ref_turns)] [(rec_id, sys_turns)] step =
  Ok (r, s) ->
  ConfusionMatrix.rttms_to_frames [(rec_id, ref_turns)]
                                  [(rec_id, sys_turns)] step =
  Ok (map (class_name ref_turns) r, map (class_name sys_turns) s).
Proof.
  unfold rttms_to_frames, rttms_to_chunks, ConfusionMatrix.rttms_to_frames.
  rewrite common_single. cbn [align_loop List.length Nat.eqb negb].
  unfold align_rec, ConfusionMatrix.first_value, ConfusionMatrix.str_frames.
  cbn [lookup]. rewrite String.eqb_refl. cbn [bind].
  destruct (max_offset (map offset ref_turns)) as [rd|]; cbn [bind];
    [|discriminate].
  destruct (max_offset (map offset sys_turns)) as [sd|]; cbn [bind];
    [|discriminate].
  destruct (int_frames ref_turns (qmin rd sd) step) as [rl|] eqn:Erl;
    cbn [bind]; [|discriminate].
  cbn [acc0 max_ref_label max_sys_label].
  rewrite (shift_zero rl (int_frames_int64 _ _ _ _ Erl)).
  destruct (Np.amax rl); cbn [bind]; [|discriminate].
  destruct (int_frames sys_turns (qmin rd sd) step) as [sl|] eqn:Esl;
    cbn [bind]; [|discriminate].
  rewrite (shift_zero sl (int_frames_int64 _ _ _ _ Esl)).
  destruct (Np.amax sl); cbn [bind]; [|discriminate].
  cbn [ref_labels sys_labels acc0 app concatenate bind List.concat
       max_ref_label max_sys_label].
  intros H. injection H as <- <-.
  apply int_frames_labels, turns_to_frames_int_str in Erl.
  apply int_frames_labels, turns_to_frames_int_str in Esl.
  rewrite Erl. cbn [bind]. rewrite Esl. cbn [bind].
  now rewrite !app_nil_r.
Qed.

Lemma single_recording_tools_agree_witness :
  ConfusionMatrix.rttms_to_frames
    [("a"%string, [mkTurn "S1" 0%Q 3%Q; mkTurn "S2" 2%Q 4%Q])]
    [("a"%string, [mkTurn "Y" 0%Q 3%Q])] 1%Q =
  Ok (map (class_name [mkTurn "S1" 0%Q 3%Q; mkTurn "S2" 2%Q 4%Q])
          [1; 1; 3]%Z,
      map (class_name [mkTurn "Y" 0%Q 3%Q]) [1; 1; 1]%Z).
Proof.
  apply (single_recording_tools_agree "a"%string
           [mkTurn "S1" 0%Q 3%Q; mkTurn "S2" 2%Q 4%Q] [mkTurn "Y" 0%Q 3%Q]
           1%Q [1; 1; 3]%Z [1; 1; 1]%Z).
  reflexivity.
Defined.

End AlignerResults.

(** ** Identities between the information-theoretic metrics *)

Section InformationIdentities.

Import Metrics MatrixSpec RealSpec.
Local Open Scope R_scope.

Lemma h_ref_double_sum (c : nat -> nat -> nat) (nr nc : nat) (nats : bool) :
  rsum nr (fun i => rsum nc (fun j =>
    - (prob c nr nc i j * log nats (rowsum c nc i / total c nr nc)))) =
  h_ref_val c nr nc nats.
Proof.
  unfold h_ref_val. rewrite <- rsum_opp. apply rsum_ext. intros i Hi.
  rewrite rsum_opp, rsum_scal_r. fold (rmarg c nr nc i).
  now rewrite rmarg_eq.
Qed.

Lemma ce_mi_term (c : nat -> nat -> nat) (nr nc : nat) (nats : bool)
      (i j : nat) :
  pos_marg c nr nc -> (i < nr)%nat -> (j < nc)%nat ->
  (if c i j =? 0 then 0
   else cnt c i j / total c nr nc
        * (log nats (colsum c nr j) - log nats (cnt c i j)
           + log nats (total c nr nc) - log nats (total c nr nc)))
  + mi_term c nr nc nats i j =
  - (prob c nr nc i j * log nats (rowsum c nc i / total c nr nc)).
Proof.
  intros Hp Hi Hj. unfold mi_term.
  destruct (Nat.eqb_spec (c i j) 0) as [E|E].
  - rewrite (prob_zero c nr nc i j E). lra.
  - pose proof (total_pos c nr nc Hp) as Ht.
    destruct Hp as (_ & Hrow & Hcol).
    pose proof (Hrow i Hi) as HR. pose proof (Hcol j Hj) as HC.
    rewrite log_mult, log_div by assumption. unfold prob, Rdiv. ring.
Qed.

(** The chain rule on the values: H(ref | sys) + I(ref; sys) = H(ref). *)
Lemma chain_rule_val (c : nat -> nat -> nat) (nr nc : nat) (nats : bool) :
  pos_marg c nr nc ->
  ce_val c nr nc nats + mi_val c nr nc nats = h_ref_val c nr nc nats.
Proof.
  intros Hp. rewrite <- h_ref_double_sum. unfold ce_val, mi_val.
  rewrite <- rsum_plus. apply rsum_ext. intros i Hi.
  rewrite <- rsum_plus. apply rsum_ext. intros j Hj.
  now apply ce_mi_term.
Qed.

Lemma ce_bounds (c : nat -> nat -> nat) (nr nc : nat) (nats : bool) :
  pos_marg c nr nc ->
  0 <= ce_val c nr nc nats <= h_ref_val c nr nc nats.
Proof.
  intros Hp. pose proof (chain_rule_val c nr nc nats Hp).
  pose proof (mi_nonneg c nr nc Hp nats).
  pose proof (mi_le_h_ref c nr nc Hp nats). lra.
Qed.

(** The entropies of the marginals, as [mutual_information] computes
    them. *)
Lemma h_ref_table (c : nat -> nat -> nat) (nr nc : nat) (nats : bool) :
  pos_marg c nr nc ->
  h nats (map (fun m => fdiv (fint m) (fint (isum (tabulate nr nc c))))
              (isum_axis1 (tabulate nr nc c))) =
  Fin (h_ref_val c nr nc nats).
Proof.
  intros Hp. pose proof (total_pos c nr nc Hp) as Ht.
  rewrite isum_axis1_tabulate, map_map.
  rewrite (map_ext_in _ (fun i => Fin (rowsum c nc i / total c nr nc))).
  - apply (h_fin nats nr (fun i => rowsum c nc i / total c nr nc)).
    intros i Hi. exact (proj1 (row_ratio c nr nc Hp i Hi)).
  - intros i Hi. unfold fint. rewrite (isum_INR c nr nc), rsum_INR.
    apply fdiv_fin. lra.
Qed.

Lemma h_sys_table (c : nat -> nat -> nat) (nr nc : nat) (nats : bool) :
  pos_marg c nr nc ->
  h nats (map (fun m => fdiv (fint m) (fint (isum (tabulate nr nc c))))
              (isum_axis0 (tabulate nr nc c))) =
  Fin (h_sys_val c nr nc nats).
Proof.
  intros Hp. pose proof (total_pos c nr nc Hp) as Ht.
  rewrite (@isum_axis0_tabulate nr nc c (proj1 Hp)), map_map.
  rewrite (map_ext_in _ (fun j => Fin (colsum c nr j / total c nr nc))).
  - apply (h_fin nats nc (fun j => colsum c nr j / total c nr nc)).
    intros j Hj. exact (proj1 (col_ratio c nr nc Hp j Hj)).
  - intros j Hj. unfold fint. rewrite (isum_INR c nr nc), rsum_INR.
    apply fdiv_fin. lra.
Qed.

(** X11.  The chain rule.  On a contingency matrix with positive row and column
    sums, the conditional entropy that [conditional_entropy] returns is the
    entropy of the reference marginals (the one [mutual_information]
    normalizes by) minus the mutual information; it lies between 0 and that
    entropy. *)
Theorem conditional_entropy_chain_rule (nr nc : nat) (cm : matrix)
        (ref_labels sys_labels : list Z) (nats : bool) :
  positive_marginals nr nc cm ->
  exists ce mi nmi href : R,
    conditional_entropy ref_labels sys_labels (Some cm) nats = Ok (Fin ce) /\
    mutual_information ref_labels sys_labels (Some cm) nats =
      Ok (Fin mi, Fin nmi) /\
    h nats (map (fun m => fdiv (fint m) (fint (isum cm))) (isum_axis1 cm)) =
      Fin href /\
    ce = href - mi /\
    0 <= ce <= href.
Proof.
  intros H. destruct (positive_marginals_table nr nc cm H) as [E Hp].
  exists (ce_val (cell cm) nr nc nats), (mi_val (cell cm) nr nc nats),
    (nmi_val (cell cm) nr nc nats), (h_ref_val (cell cm) nr nc nats).
  split; [now apply conditional_entropy_value|].
  split; [now apply mutual_information_value|].
  pose proof (chain_rule_val _ _ _ nats Hp) as Hc.
  pose proof (ce_bounds _ _ _ nats Hp) as Hb.
  split; [|split; [lra|exact Hb]].
  remember (cell cm) as c eqn:Ec. rewrite E. now apply h_ref_table.
Qed.

Lemma conditional_entropy_chain_rule_witness :
  exists ce mi nmi href : R,
    conditional_entropy [] [] (Some [[2; 0]; [1; 3]]%nat) false =
      Ok (Fin ce) /\
    mutual_information [] [] (Some [[2; 0]; [1; 3]]%nat) false =
      Ok (Fin mi, Fin nmi) /\
    h false (map (fun m => fdiv (fint m) (fint (isum [[2; 0]; [1; 3]]%nat)))
                 (isum_axis1 [[2; 0]; [1; 3]]%nat)) = Fin href /\
    ce = href - mi /\
    0 <= ce <= href.
Proof.
  apply (conditional_entropy_chain_rule 2 2 [[2; 0]; [1; 3]]%nat [] [] false).
  unfold positive_marginals, rect. simpl.
  repeat split; repeat constructor.
Defined.

(** *** The unit of the entropies *)

Lemma ln2_pos : 0 < ln 2.
Proof.
  pose proof (log_k_pos false) as H. unfold log_k in H.
  apply Rinv_0_lt_compat in H. now rewrite Rinv_inv in H.
Qed.

Lemma mi_term_unit (c : nat -> nat -> nat) (nr nc : nat) (i j : nat) :
  mi_term c nr nc true i j = ln 2 * mi_term c nr nc false i j.
Proof.
  unfold mi_term. destruct (c i j =? 0)%nat; [lra|].
  unfold log. pose proof ln2_pos.
  generalize (cnt c i j / total c nr nc). intros u. field. lra.
Qed.

Lemma mi_val_unit (c : nat -> nat -> nat) (nr nc : nat) :
  mi_val c nr nc true = ln 2 * mi_val c nr nc false.
Proof.
  unfold mi_val. rewrite <- rsum_scal. apply rsum_ext. intros i _.
  rewrite <- rsum_scal. apply rsum_ext. intros j _. apply mi_term_unit.
Qed.

Lemma ce_val_unit (c : nat -> nat -> nat) (nr nc : nat) :
  ce_val c nr nc true = ln 2 * ce_val c nr nc false.
Proof.
  unfold ce_val. rewrite <- rsum_scal. apply rsum_ext. intros i _.
  rewrite <- rsum_scal. apply rsum_ext. intros j _.
  destruct (c i j =? 0)%nat; [lra|].
  unfold log. pose proof ln2_pos.
  generalize (cnt c i j / total c nr nc). intros u. field. lra.
Qed.

(** X12.  The unit.  On a contingency matrix with positive row and column sums,
    the conditional entropy and the mutual information in nats
    ([nats=True]) are those in bits ([nats=False]) times [ln 2]. *)
Theorem nats_are_bits_times_ln2 (nr nc : nat) (cm : matrix)
        (ref_labels sys_labels : list Z) :
  positive_marginals nr nc cm ->
  exists ce_nats ce_bits mi_nats mi_bits nmi_nats nmi_bits : R,
    conditional_entropy ref_labels sys_labels (Some cm) true =
      Ok (Fin ce_nats) /\
    conditional_entropy ref_labels sys_labels (Some cm) false =
      Ok (Fin ce_bits) /\
    mutual_information ref_labels sys_labels (Some cm) true =
      Ok (Fin mi_nats, Fin nmi_nats) /\
    mutual_information ref_labels sys_labels (Some cm) false =
      Ok (Fin mi_bits, Fin nmi_bits) /\
    ce_nats = ln 2 * ce_bits /\
    mi_nats = ln 2 * mi_bits.
Proof.
  intros H.
  exists (ce_val (cell cm) nr nc true), (ce_val (cell cm) nr nc false),
    (mi_val (cell cm) nr nc true), (mi_val (cell cm) nr nc false),
    (nmi_val (cell cm) nr nc true), (nmi_val (cell cm) nr nc false).
  split; [now apply conditional_entropy_value|].
  split; [now apply conditional_entropy_value|].
  split; [now apply mutual_information_value|].
  split; [now apply mutual_information_value|].
  split; [apply ce_val_unit|apply mi_val_unit].
Qed.

Lemma nats_are_bits_times_ln2_witness :
  exists ce_nats ce_bits mi_nats mi_bits nmi_nats nmi_bits : R,
    conditional_entropy [] [] (Some [[2; 0]; [1; 3]]%nat) true =
      Ok (Fin ce_nats) /\
    conditional_entropy [] [] (Some [[2; 0]; [1; 3]]%nat) false =
      Ok (Fin ce_bits) /\
    mutual_information [] [] (Some [[2; 0]; [1; 3]]%nat) true =
      Ok (Fin mi_nats, Fin nmi_nats) /\
    mutual_information [] [] (Some [[2; 0]; [1; 3]]%nat) false =
      Ok (Fin mi_bits, Fin nmi_bits) /\
    ce_nats = ln 2 * ce_bits /\
    mi_nats = ln 2 * mi_bits.
Proof.
  apply (nats_are_bits_times_ln2 2 2 [[2; 0]; [1; 3]]%nat [] []).
  unfold positive_marginals, rect. simpl.
  repeat split; repeat constructor.
Defined.

End InformationIdentities.

(** ** Exchanging the reference and the system *)

Section Transposition.

Import Metrics MatrixSpec RealSpec.
Local Open Scope R_scope.

Lemma precision_transpose (c : nat -> nat -> nat) (nr nc : nat) :
  precision_val (transpose c) nc nr = recall_val c nr nc.
Proof.
  unfold precision_val, recall_val. rewrite rsum_exchange.
  apply rsum_ext. intros i _. apply rsum_ext. intros j _.
  rewrite prob_transpose. reflexivity.
Qed.














End Transposition.

(** ** A side with a single class: the entropies *)

Section SingleClassInformation.

Import Metrics MatrixSpec RealSpec.
Local Open Scope R_scope.

Lemma h_sys_single (c : nat -> nat -> nat) (nr : nat) (nats : bool) :
  pos_marg c nr 1 -> h_sys_val c nr 1 nats = 0.
Proof.
  intros Hp. pose proof (total_pos c nr 1 Hp) as Ht.
  unfold h_sys_val. rewrite rsum_1.
  assert (E : colsum c nr 0 = total c nr 1)
    by (rewrite total_cols, rsum_1; reflexivity).
  rewrite E.
  replace (total c nr 1 / total c nr 1) with 1 by (field; lra).
  rewrite log_1. ring.
Qed.

Lemma h_ref_single (c : nat -> nat -> nat) (nc : nat) (nats : bool) :
  pos_marg c 1 nc -> h_ref_val c 1 nc nats = 0.
Proof.
  intros Hp. pose proof (total_pos c 1 nc Hp) as Ht.
  unfold h_ref_val. rewrite rsum_1.
  assert (E : rowsum c nc 0 = total c 1 nc)
    by (unfold total; rewrite rsum_1; reflexivity).
  rewrite E.
  replace (total c 1 nc / total c 1 nc) with 1 by (field; lra).
  rewrite log_1. ring.
Qed.

Lemma mi_zero_single (c : nat -> nat -> nat) (nr nc : nat) (nats : bool) :
  pos_marg c nr nc -> nr = 1%nat \/ nc = 1%nat ->
  mi_val c nr nc nats = 0 /\ nmi_val c nr nc nats = 0.
Proof.
  intros Hp Hone.
  pose proof (mi_nonneg c nr nc Hp nats) as H0.
  pose proof (mi_le_h_ref c nr nc Hp nats) as Hr.
  pose proof (mi_le_h_sys c nr nc Hp nats) as Hs.
  assert (E : mi_val c nr nc nats = 0).
  { destruct Hone as [-> | ->].
    - rewrite (h_ref_single c nc nats Hp) in Hr. lra.
    - rewrite (h_sys_single c nr nats Hp) in Hs. lra. }
  split; [exact E|]. unfold nmi_val. rewrite E. unfold Rdiv. ring.
Qed.

(** X14.  A single class on one side: the entropies.  On a matrix with positive
    row and column sums in which the reference or the system has a single
    class, the mutual information and the normalized mutual information
    are 0; the conditional entropy is 0 when the reference has a single
    class, and the whole entropy of the reference marginals when the system
    has a single class. *)
Theorem single_class_information (nr nc : nat) (cm : matrix)
        (ref_labels sys_labels : list Z) (nats : bool) :
  positive_marginals nr nc cm ->
  nr = 1%nat \/ nc = 1%nat ->
  exists ce : R,
    conditional_entropy ref_labels sys_labels (Some cm) nats = Ok (Fin ce) /\
    mutual_information ref_labels sys_labels (Some cm) nats =
      Ok (Fin 0, Fin 0) /\
    (nr = 1%nat -> ce = 0) /\
    (nc = 1%nat ->
     h nats (map (fun m => fdiv (fint m) (fint (isum cm))) (isum_axis1 cm)) =
     Fin ce).
Proof.
  intros H Hone. destruct (positive_marginals_table nr nc cm H) as [E Hp].
  exists (ce_val (cell cm) nr nc nats).
  destruct (mi_zero_single _ _ _ nats Hp Hone) as [Hmi Hnmi].
  pose proof (chain_rule_val _ _ _ nats Hp) as Hc.
  split; [now apply conditional_entropy_value|].
  split; [rewrite <- Hmi at 1; rewrite <- Hnmi;
          now apply mutual_information_value|].
  split.
  - intros ->. rewrite (h_ref_single _ _ nats Hp) in Hc. lra.
  - intros _. assert (Hce : ce_val (cell cm) nr nc nats =
                            h_ref_val (cell cm) nr nc nats) by lra.
    rewrite Hce. remember (cell cm) as c eqn:Ec. rewrite E.
    now apply h_ref_table.
Qed.

Lemma single_class_information_witness :
  exists ce : R,
    conditional_entropy [] [] (Some [[2]; [1]]%nat) false = Ok (Fin ce) /\
    mutual_information [] [] (Some [[2]; [1]]%nat) false =
      Ok (Fin 0, Fin 0) /\
    (2%nat = 1%nat -> ce = 0) /\
    (1%nat = 1%nat ->
     h false (map (fun m => fdiv (fint m) (fint (isum [[2]; [1]]%nat)))
                  (isum_axis1 [[2]; [1]]%nat)) = Fin ce).
Proof.
  apply (single_class_information 2 1 [[2]; [1]]%nat [] [] false).
  - unfold positive_marginals, rect. simpl.
    repeat split; repeat constructor.
  - right. reflexivity.
Defined.

End SingleClassInformation.

(** ** System classes within reference classes *)

Section PureClasses.

Import Metrics MatrixSpec RealSpec.
Local Open Scope R_scope.

Lemma pure_cell (c : nat -> nat -> nat) (nr nc : nat) :
  (forall i i' j, (i < nr)%nat -> (i' < nr)%nat -> (j < nc)%nat ->
                  c i j <> 0%nat -> c i' j <> 0%nat -> i = i') ->
  forall i j, (i < nr)%nat -> (j < nc)%nat -> c i j <> 0%nat ->
              cnt c i j = colsum c nr j.
Proof.
  intros Hpure i j Hi Hj Hc. unfold colsum. symmetry.
  apply (rsum_single nr (fun i => cnt c i j) i Hi).
  intros k Hk Hne. unfold cnt.
  destruct (Nat.eq_dec (c k j) 0) as [->|N]; [reflexivity|].
  exfalso. apply Hne. exact (Hpure k i j Hk Hi Hj N Hc).
Qed.

Lemma precision_pure (c : nat -> nat -> nat) (nr nc : nat) :
  pos_marg c nr nc ->
  (forall i i' j, (i < nr)%nat -> (i' < nr)%nat -> (j < nc)%nat ->
                  c i j <> 0%nat -> c i' j <> 0%nat -> i = i') ->
  precision_val c nr nc = 1.
Proof.
  intros Hp Hpure. rewrite <- (prob_sum c nr nc Hp). unfold precision_val.
  apply rsum_ext. intros i Hi. apply rsum_ext. intros j Hj.
  destruct (Nat.eq_dec (c i j) 0) as [E|E].
  - rewrite (prob_zero c nr nc i j E). ring.
  - rewrite (pure_cell c nr nc Hpure i j Hi Hj E).
    destruct Hp as (_ & _ & Hcol). pose proof (Hcol j Hj). field. lra.
Qed.

Lemma ce_pure (c : nat -> nat -> nat) (nr nc : nat) (nats : bool) :
  (forall i i' j, (i < nr)%nat -> (i' < nr)%nat -> (j < nc)%nat ->
                  c i j <> 0%nat -> c i' j <> 0%nat -> i = i') ->
  ce_val c nr nc nats = 0.
Proof.
  intros Hpure. unfold ce_val.
  rewrite (rsum_ext nr _ (fun _ => 0)); [apply rsum_const0|].
  intros i Hi.
  rewrite (rsum_ext nc _ (fun _ => 0)); [apply rsum_const0|].
  intros j Hj. destruct (Nat.eqb_spec (c i j) 0) as [E|E]; [reflexivity|].
  rewrite (pure_cell c nr nc Hpure i j Hi Hj E). ring.
Qed.

Lemma tau_sys_ref_pure (c : nat -> nat -> nat) (nr nc : nat) :
  pos_marg c nr nc ->
  (forall i i' j, (i < nr)%nat -> (i' < nr)%nat -> (j < nc)%nat ->
                  c i j <> 0%nat -> c i' j <> 0%nat -> i = i') ->
  tau_sys_ref_val c nr nc = 1.
Proof.
  intros Hp Hpure.
  pose proof (vx_lower c nr nc Hp) as Hvx. pose proof EPS_pos as He.
  assert (Hbar : vx_bar_y c nr nc = 0).
  { unfold vx_bar_y.
    rewrite (rsum_ext nc _ (smarg c nr nc)).
    - rewrite (smarg_sum c nr nc Hp). ring.
    - intros j Hj. pose proof (smarg_pos c nr nc j Hp Hj) as Hs.
      rewrite (rsum_ext nr _ (fun i => prob c nr nc i j * smarg c nr nc j)).
      + rewrite rsum_scal_r. fold (smarg c nr nc j). field. lra.
      + intros i Hi. destruct (Nat.eq_dec (c i j) 0) as [E|E].
        * rewrite (prob_zero c nr nc i j E). ring.
        * rewrite smarg_eq. unfold prob.
          now rewrite (pure_cell c nr nc Hpure i j Hi Hj E). }
  unfold tau_sys_ref_val. rewrite Hbar. field. lra.
Qed.

(** X15.  System classes within reference classes.  On a matrix with positive
    row and column sums in which no column has two cells that are not zero
    (every system class lies within one reference class), in the
    real-number reading of the metrics, the B-cubed precision is 1, the
    conditional entropy of the reference given the system is 0 and, when
    there are at least two reference classes, the tau from the system to
    the reference is 1.  (With a single reference class the numerator and
    the denominator of that tau are of the size of the machine epsilon and
    what the source returns in binary64 is rounding noise; the statement
    leaves that case out.) *)
Theorem pure_system_classes (nr nc : nat) (cm : matrix)
        (ref_labels sys_labels : list Z) (nats : bool) :
  positive_marginals nr nc cm ->
  pure_columns nr nc cm ->
  exists q f t1 t2 : R,
    bcubed ref_labels sys_labels (Some cm) = Ok (Fin 1, Fin q, Fin f) /\
    goodman_kruskal_tau ref_labels sys_labels (Some cm) =
      Ok (Fin t1, Fin t2) /\
    conditional_entropy ref_labels sys_labels (Some cm) nats = Ok (Fin 0) /\
    ((2 <= nr)%nat -> t2 = 1).
Proof.
  intros H Hpure. destruct (positive_marginals_table nr nc cm H) as [_ Hp].
  exists (recall_val (cell cm) nr nc), (f1_val (cell cm) nr nc),
    (tau_ref_sys_val (cell cm) nr nc), (tau_sys_ref_val (cell cm) nr nc).
  split; [|split; [|split]].
  - rewrite <- (precision_pure (cell cm) nr nc Hp Hpure) at 1.
    now apply bcubed_value.
  - now apply tau_value.
  - rewrite <- (ce_pure (cell cm) nr nc nats Hpure).
    now apply conditional_entropy_value.
  - intros _. exact (tau_sys_ref_pure (cell cm) nr nc Hp Hpure).
Qed.

Lemma pure_system_classes_witness :
  exists q f t1 t2 : R,
    bcubed [] [] (Some [[2; 1; 0]; [0; 0; 3]]%nat) =
      Ok (Fin 1, Fin q, Fin f) /\
    goodman_kruskal_tau [] [] (Some [[2; 1; 0]; [0; 0; 3]]%nat) =
      Ok (Fin t1, Fin t2) /\
    conditional_entropy [] [] (Some [[2; 1; 0]; [0; 0; 3]]%nat) false =
      Ok (Fin 0) /\
    ((2 <= 2)%nat -> t2 = 1).
Proof.
  apply (pure_system_classes 2 3 [[2; 1; 0]; [0; 0; 3]]%nat [] [] false).
  - unfold positive_marginals, rect. simpl.
    repeat split; repeat constructor.
  - intros i i' j Hi Hi' Hj A B.
    destruct i as [|[|i]], i' as [|[|i']], j as [|[|[|j]]];
      try lia; try reflexivity; exfalso;
      try (apply A; reflexivity); apply B; reflexivity.
Defined.

(** X16.  Reference classes within system classes.  On a matrix with positive
    row and column sums in which no row has two cells that are not zero
    (every reference class lies within one system class), in the
    real-number reading of the metrics, the B-cubed recall is 1 and, when
    there are at least two system classes, the tau from the reference to
    the system is 1.  (With a single system class that tau is a quotient of
    two numbers of the size of the machine epsilon, and what the source
    returns in binary64 is rounding noise; the statement leaves that case
    out.) *)
Theorem pure_reference_classes (nr nc : nat) (cm : matrix)
        (ref_labels sys_labels : list Z) :
  positive_marginals nr nc cm ->
  pure_rows nr nc cm ->
  exists p f t1 t2 : R,
    bcubed ref_labels sys_labels (Some cm) = Ok (Fin p, Fin 1, Fin f) /\
    goodman_kruskal_tau ref_labels sys_labels (Some cm) =
      Ok (Fin t1, Fin t2) /\
    ((2 <= nc)%nat -> t1 = 1).
Proof.
  intros H Hpure. destruct (positive_marginals_table nr nc cm H) as [_ Hp].
  pose proof (pos_marg_transpose (cell cm) nr nc Hp) as Hp'.
  assert (Hpure' : forall i i' j, (i < nc)%nat -> (i' < nc)%nat ->
            (j < nr)%nat -> transpose (cell cm) i j <> 0%nat ->
            transpose (cell cm) i' j <> 0%nat -> i = i').
  { intros i i' j Hi Hi' Hj A B. exact (Hpure j i i' Hj Hi Hi' A B). }
  exists (precision_val (cell cm) nr nc), (f1_val (cell cm) nr nc),
    (tau_ref_sys_val (cell cm) nr nc), (tau_sys_ref_val (cell cm) nr nc).
  split; [|split].
  - rewrite <- (precision_pure (transpose (cell cm)) nc nr Hp' Hpure').
    rewrite precision_transpose. now apply bcubed_value.
  - now apply tau_value.
  - intros _.
    rewrite <- (tau_sys_ref_pure (transpose (cell cm)) nc nr Hp' Hpure').
    now rewrite tau_transpose'.
Qed.

Lemma pure_reference_classes_witness :
  exists p f t1 t2 : R,
    bcubed [] [] (Some [[2; 0]; [1; 0]; [0; 3]]%nat) =
      Ok (Fin p, Fin 1, Fin f) /\
    goodman_kruskal_tau [] [] (Some [[2; 0]; [1; 0]; [0; 3]]%nat) =
      Ok (Fin t1, Fin t2) /\
    ((2 <= 2)%nat -> t1 = 1).
Proof.
  apply (pure_reference_classes 3 2 [[2; 0]; [1; 0]; [0; 3]]%nat [] []).
  - unfold positive_marginals, rect. simpl.
    repeat split; repeat constructor.
  - intros i j j' Hi Hj Hj' A B.
    destruct i as [|[|[|i]]], j as [|[|j]], j' as [|[|j']];
      try lia; try reflexivity; exfalso;
      try (apply A; reflexivity); apply B; reflexivity.
Defined.

End PureClasses.

(** ** The scorer *)

Section ScoreResults.

Import Score Metrics MatrixSpec RealSpec ScoreLib.
Local Open Scope R_scope.

Lemma aligner_lengths (ref sys : rttm) (step : Q) (r s : list Z) :
  rttms_to_frames ref sys step = Ok (r, s) ->
  List.length r = List.length s /\ r <> [].
Proof.
  unfold rttms_to_frames, rttms_to_chunks. intros H.
  destruct (align_loop ref sys step (common_rec_ids ref sys) acc0)
    as [st|] eqn:E; cbn [bind] in H; [|discriminate].
  pose proof (align_loop_chunks ref sys step _ acc0 st
                (Forall2_nil _) E) as Hp.
  destruct (concat_paired _ _ Hp) as [Hlen Hne].
  destruct (ref_labels st) as [|r0 rc'] eqn:Er; cbn [concatenate bind] in H;
    [discriminate|].
  destruct (sys_labels st) as [|s0 sc'] eqn:Es; cbn [concatenate bind] in H;
    [discriminate|].
  injection H as <- <-. split; [exact Hlen|]. apply Hne. discriminate.
Qed.

(** X17.  The scorer.  When the NIST tool gives a DER and the aligner returns,
    [score] returns: the steps after the aligner cannot raise.  The DER is
    the one of the tool run with the collar 0.25 and with overlaps ignored,
    whatever collar and flag [score] is given, and the eight other scores
    are numbers (no nan).  In the real-number reading of the metrics,
    B-cubed precision, recall and F1 lie above 0 and are at most 1, the
    normalized mutual information lies between 0 and 1, the conditional
    entropy and the mutual information are not negative, and each tau lies
    between 0 and 1 when the side that it is normalised by has at least two
    classes: tau(ref, sys) with two system labels or more, tau(sys, ref)
    with two reference labels or more.  (With a single class on that side
    the tau is a quotient of two numbers of the size of the machine epsilon
    and what the source returns in binary64 is rounding noise; the statement
    leaves that case out.) *)
Theorem score_returns_valid_metrics (md_eval : Q -> bool -> result float)
        (ref sys : rttm) (collar : Q) (ignore_overlaps : bool) (step : Q)
        (nats : bool) (d : float) (r s : list Z) :
  md_eval (1 # 4)%Q true = Ok d ->
  rttms_to_frames ref sys step = Ok (r, s) ->
  exists p q f t1 t2 ce mi nmi : R,
    score md_eval ref sys collar ignore_overlaps step nats =
      Ok (d, Fin p, Fin q, Fin f, Fin t1, Fin t2, Fin ce, Fin mi, Fin nmi) /\
    0 < p <= 1 /\ 0 < q <= 1 /\ 0 < f <= 1 /\
    ((2 <= List.length (Np.unique Z.compare s))%nat -> 0 <= t1 <= 1) /\
    ((2 <= List.length (Np.unique Z.compare r))%nat -> 0 <= t2 <= 1) /\
    0 <= ce /\ 0 <= mi /\ 0 <= nmi <= 1.
Proof.
  intros Hmd Hal. destruct (aligner_lengths ref sys step r s Hal) as [Hlen Hne].
  destruct (@contingency_cells r s Hlen) as (cm & Hcm & _).
  pose proof (@built_positive_marginals r s cm _ _ Hlen Hne Hcm) as Hpm.
  destruct (positive_marginals_table _ _ cm Hpm) as [_ Hp].
  set (nr := List.length (Np.unique Z.compare r)) in *.
  set (nc := List.length (Np.unique Z.compare s)) in *.
  exists (precision_val (cell cm) nr nc), (recall_val (cell cm) nr nc),
    (f1_val (cell cm) nr nc), (tau_ref_sys_val (cell cm) nr nc),
    (tau_sys_ref_val (cell cm) nr nc), (ce_val (cell cm) nr nc nats),
    (mi_val (cell cm) nr nc nats), (nmi_val (cell cm) nr nc nats).
  split.
  - unfold score, der. rewrite Hmd. cbn [bind]. rewrite Hal.
    cbn [bind fst snd]. rewrite Hcm. cbn [bind fst snd].
    rewrite (bcubed_value nr nc cm [] [] Hpm). cbn [bind fst snd].
    rewrite (tau_value nr nc cm [] [] Hpm). cbn [bind fst snd].
    rewrite (conditional_entropy_value nr nc cm [] [] nats Hpm).
    cbn [bind fst snd].
    rewrite (mutual_information_value nr nc cm [] [] nats Hpm).
    reflexivity.
  - pose proof (precision_bounds _ _ _ Hp).
    pose proof (recall_bounds _ _ _ Hp).
    pose proof (f1_bounds _ _ _ Hp).
    pose proof (tau_ref_sys_bounds _ _ _ Hp).
    pose proof (tau_sys_ref_bounds _ _ _ Hp).
    pose proof (nmi_bounds _ _ _ Hp nats).
    pose proof (mi_nonneg _ _ _ Hp nats).
    pose proof (ce_bounds _ _ _ nats Hp).
    repeat split; try (intros _); lra.
Qed.

Lemma score_returns_valid_metrics_witness :
  let r := [1; 1; 3; 2; 4; 4]%Z in
  let s := [1; 1; 3; 2; 4; 4]%Z in
  exists p q f t1 t2 ce mi nmi : R,
    score (fun _ _ => Ok (Fin 0))
          [("a"%string, [mkTurn "S1" 0%Q 3%Q; mkTurn "S2" 2%Q 4%Q]);
           ("b"%string, [mkTurn "S1" 0%Q 2%Q])]
          [("b"%string, [mkTurn "X" 0%Q 3%Q]);
           ("a"%string, [mkTurn "Y" 0%Q 3%Q; mkTurn "Z" 2%Q 4%Q])]
          0%Q false 1%Q false =
      Ok (Fin 0, Fin p, Fin q, Fin f, Fin t1, Fin t2, Fin ce, Fin mi,
          Fin nmi) /\
    0 < p <= 1 /\ 0 < q <= 1 /\ 0 < f <= 1 /\
    ((2 <= List.length (Np.unique Z.compare s))%nat -> 0 <= t1 <= 1) /\
    ((2 <= List.length (Np.unique Z.compare r))%nat -> 0 <= t2 <= 1) /\
    0 <= ce /\ 0 <= mi /\ 0 <= nmi <= 1.
Proof.
  apply (score_returns_valid_metrics
           (fun _ _ => Ok (Fin 0))
           [("a"%string, [mkTurn "S1" 0%Q 3%Q; mkTurn "S2" 2%Q 4%Q]);
            ("b"%string, [mkTurn "S1" 0%Q 2%Q])]
           [("b"%string, [mkTurn "X" 0%Q 3%Q]);
            ("a"%string, [mkTurn "Y" 0%Q 3%Q; mkTurn "Z" 2%Q 4%Q])]
           0%Q false 1%Q false (Fin 0)
           [1; 1; 3; 2; 4; 4]%Z [1; 1; 3; 2; 4; 4]%Z).
  - reflexivity.
  - reflexivity.
Defined.

End ScoreResults.

(** ** Reading an RTTM file *)

Section RttmToTurnsResults.

Import Score ScoreLib RttmSpec.

Variable float_of : string -> result Q.

Lemma keys_append_turn (r : string) (t : Turn) (d : rttm) :
  keys (append_turn r t d) =
  if existsb (String.eqb r) (keys d) then keys d else keys d ++ [r].
Proof.
  unfold keys. induction d as [|[k v] d IH]; simpl; [reflexivity|].
  destruct (String.eqb r k) eqn:E; simpl; [reflexivity|].
  rewrite IH. now destruct (existsb (String.eqb r) (map fst d)).
Qed.

Lemma entry_append_turn (id r : string) (t : Turn) (d : rttm) :
  entry id (append_turn r t d) =
  entry id d ++ (if String.eqb r id then [t] else []).
Proof.
  unfold entry. induction d as [|[k v] d IH]; simpl.
  - rewrite (String.eqb_sym id r). now destruct (String.eqb r id).
  - destruct (String.eqb r k) eqn:E.
    + apply String.eqb_eq in E. subst k. simpl.
      rewrite (String.eqb_sym id r).
      destruct (String.eqb r id); [reflexivity|].
      now rewrite app_nil_r.
    + simpl. destruct (String.eqb id k) eqn:F; [|exact IH].
      apply String.eqb_eq in F. subst k. rewrite E. now rewrite app_nil_r.
Qed.

Lemma NoDup_append_turn (r : string) (t : Turn) (d : rttm) :
  NoDup (keys d) -> NoDup (keys (append_turn r t d)).
Proof.
  intros H. rewrite keys_append_turn.
  destruct (existsb (String.eqb r) (keys d)) eqn:E; [exact H|].
  apply NoDup_app; [exact H|repeat constructor; simpl; tauto|].
  intros x Hx [<-|[]].
  apply existsb_eqb_In in Hx. congruence.
Qed.

Lemma nonempty_append_turn (r : string) (t : Turn) (d : rttm) :
  Forall (fun kv => snd kv <> []) d ->
  Forall (fun kv => snd kv <> []) (append_turn r t d).
Proof.
  induction 1 as [|[k v] d Hk Hd IH]; simpl.
  - constructor; [discriminate|constructor].
  - destruct (String.eqb r k); constructor; auto.
    simpl. intros F. now apply app_eq_nil in F as [_ F].
Qed.

Lemma parse_line_length (fields : list string) (p : string * Turn) :
  parse_line float_of fields = Ok p -> 8 <= List.length fields.
Proof.
  unfold parse_line.
  destruct (field fields 1); cbn [bind]; [|discriminate].
  destruct (field fields 3); cbn [bind]; [|discriminate].
  destruct (float_of a0); cbn [bind]; [|discriminate].
  destruct (field fields 4); cbn [bind]; [|discriminate].
  destruct (float_of a2); cbn [bind]; [|discriminate].
  destruct (field fields 7) eqn:E; cbn [bind]; [|discriminate].
  intros _. unfold field in E.
  destruct (nth_error fields 7) eqn:F; [|discriminate].
  assert (7 < List.length fields) by (apply nth_error_Some; congruence).
  lia.
Qed.

(** What the loop over the lines maintains. *)
Lemma read_lines_spec (lines : list (list string)) :
  forall d0 d,
    read_lines float_of lines d0 = Ok d ->
    (forall id, entry id d = entry id d0 ++ line_turns float_of id lines) /\
    (NoDup (keys d0) -> NoDup (keys d)) /\
    (Forall (fun kv => snd kv <> []) d0 ->
     Forall (fun kv => snd kv <> []) d) /\
    Forall (fun fields => 8 <= List.length fields) lines.
Proof.
  induction lines as [|fields lines IH]; intros d0 d H; simpl in H.
  - injection H as <-. repeat split; auto.
    intros id. simpl. now rewrite app_nil_r.
  - destruct (parse_line float_of fields) as [p|] eqn:E; cbn [bind] in H;
      [|discriminate].
    destruct (IH _ _ H) as (He & Hn & Hv & Hl).
    split; [|split; [|split]].
    + intros id. rewrite He, entry_append_turn, <- app_assoc.
      f_equal. simpl. now rewrite E.
    + intros Hd. apply Hn. now apply NoDup_append_turn.
    + intros Hd. apply Hv. now apply nonempty_append_turn.
    + constructor; [exact (parse_line_length fields p E)|exact Hl].
Qed.

Lemma lookup_member (d : rttm) (id : string) (v : list Turn) :
  lookup id d = Ok v -> In id (keys d) /\ In (id, v) d.
Proof.
  unfold keys. induction d as [|[k w] d IH]; simpl; [discriminate|].
  destruct (String.eqb id k) eqn:E.
  - apply String.eqb_eq in E. subst k. intros H. injection H as ->.
    split; now left.
  - intros H. destruct (IH H). split; now right.
Qed.

(** X18.  Reading a file.  When [rttm_to_turns] returns, the keys of the
    dictionary are distinct, a recording is a key exactly when a line of
    the file names it, the turns of a recording are the turns of its
    lines in the order of the file (each with the offset [onset + dur] of
    its line), and no recording has an empty list of turns: the maximum
    of the offsets, which the aligner takes, exists. *)
Theorem rttm_to_turns_groups_lines (lines : list (list string)) (d : rttm) :
  rttm_to_turns float_of lines = Ok d ->
  NoDup (keys d) /\
  (forall id, In id (keys d) <-> line_turns float_of id lines <> []) /\
  (forall id, In id (keys d) ->
              lookup id d = Ok (line_turns float_of id lines)) /\
  (forall id turns, lookup id d = Ok turns ->
                    exists m, max_offset (map offset turns) = Ok m).
Proof.
  unfold rttm_to_turns. intros H.
  destruct (read_lines_spec lines [] d H) as (He0 & Hn & Hv & _).
  specialize (Hn (NoDup_nil _)). specialize (Hv (Forall_nil _)).
  assert (He : forall id, entry id d = line_turns float_of id lines)
    by (intros id; now rewrite He0).
  assert (Hl : forall id v, lookup id d = Ok v ->
                            v = line_turns float_of id lines /\ v <> []).
  { intros id v Hv'. split.
    - rewrite <- (He id). unfold entry. now rewrite Hv'.
    - destruct (lookup_member d id v Hv') as [_ Hin].
      rewrite Forall_forall in Hv. exact (Hv _ Hin). }
  split; [exact Hn|]. split; [|split].
  - intros id. split.
    + intros Hin. destruct (lookup_In d id Hin) as (v & Hv').
      destruct (Hl id v Hv') as [<- Hne]. exact Hne.
    + intros Hne. rewrite <- (He id) in Hne. unfold entry in Hne.
      destruct (lookup id d) as [v|] eqn:E; [|now elim Hne].
      exact (proj1 (lookup_member d id v E)).
  - intros id Hin. destruct (lookup_In d id Hin) as (v & Hv').
    destruct (Hl id v Hv') as [<- _]. exact Hv'.
  - intros id turns Hv'. destruct (Hl id turns Hv') as [_ Hne].
    destruct turns as [|t ts]; [now elim Hne|]. simpl. eexists. reflexivity.
Qed.

Lemma read_lines_raises (good : list (list string)) (fields : list string)
      (rest : list (list string)) (e : error) :
  Forall (fun l => exists p, parse_line float_of l = Ok p) good ->
  parse_line float_of fields = Raise e ->
  forall d0, read_lines float_of (good ++ fields :: rest) d0 = Raise e.
Proof.
  induction 1 as [|l good (p & Hp) _ IH]; intros Hbad d0; simpl.
  - now rewrite Hbad.
  - rewrite Hp. cbn [bind]. now apply IH.
Qed.

Lemma parse_line_short (fields : list string) :
  List.length fields < 8 ->
  exists e, parse_line float_of fields = Raise e /\
            (List.length fields <= 3 -> e = IndexError).
Proof.
  intros Hlen.
  destruct (parse_line float_of fields) as [p|e] eqn:E.
  { apply parse_line_length in E. lia. }
  exists e. split; [reflexivity|]. intros H3. unfold parse_line in E.
  unfold field in E.
  destruct (nth_error fields 1) eqn:F1; cbn [bind] in E;
    [|now injection E].
  destruct (nth_error fields 3) eqn:F3; cbn [bind] in E;
    [|now injection E].
  assert (3 < List.length fields) by (apply nth_error_Some; congruence).
  lia.
Qed.

(** X19.  A line that is not complete.  When the lines before it are read and a
    line has fewer than 8 fields, [rttm_to_turns] raises and returns no
    recording at all; the exception is an IndexError when the line has at
    most 3 fields, as an empty line has. *)
Theorem incomplete_line_raises (good : list (list string))
        (fields : list string) (rest : list (list string)) :
  Forall (fun l => exists p, parse_line float_of l = Ok p) good ->
  List.length fields < 8 ->
  exists e,
    rttm_to_turns float_of (good ++ fields :: rest) = Raise e /\
    (List.length fields <= 3 -> e = IndexError).
Proof.
  intros Hgood Hlen.
  destruct (parse_line_short fields Hlen) as (e & He & H3).
  exists e. split; [|exact H3].
  unfold rttm_to_turns. now apply read_lines_raises.
Qed.

End RttmToTurnsResults.

Section RttmToTurnsWitnesses.

Import Score ScoreLib RttmSpec.

Lemma rttm_to_turns_groups_lines_witness :
  let float_of := fun s : string =>
    if String.eqb s "0" then Ok 0%Q
    else if String.eqb s "2" then Ok 2%Q else Raise ValueError in
  let lines :=
    [["SPEAKER"; "rec1"; "1"; "0"; "2"; "<NA>"; "<NA>"; "A"; "<NA>"];
     ["SPEAKER"; "rec2"; "1"; "0"; "2"; "<NA>"; "<NA>"; "B"; "<NA>"];
     ["SPEAKER"; "rec1"; "1"; "2"; "2"; "<NA>"; "<NA>"; "B"; "<NA>"]
    ]%string in
  let d := [("rec1"%string,
             [mkTurn "A" 0%Q (0 + 2)%Q; mkTurn "B" 2%Q (2 + 2)%Q]);
            ("rec2"%string, [mkTurn "B" 0%Q (0 + 2)%Q])] in
  NoDup (keys d) /\
  (forall id, In id (keys d) <-> line_turns float_of id lines <> []) /\
  (forall id, In id (keys d) ->
              lookup id d = Ok (line_turns float_of id lines)) /\
  (forall id turns, lookup id d = Ok turns ->
                    exists m, max_offset (map offset turns) = Ok m).
Proof.
  intros float_of lines d.
  apply (rttm_to_turns_groups_lines float_of lines d). reflexivity.
Defined.

Lemma incomplete_line_raises_witness :
  let float_of := fun s : string =>
    if String.eqb s "0" then Ok 0%Q
    else if String.eqb s "2" then Ok 2%Q else Raise ValueError in
  exists e,
    rttm_to_turns float_of
      ([["SPEAKER"; "rec1"; "1"; "0"; "2"; "<NA>"; "<NA>"; "A"; "<NA>"]%string]
         ++ [] :: []) = Raise e /\
    (List.length (@nil string) <= 3 -> e = IndexError).
Proof.
  intros float_of.
  apply (incomplete_line_raises float_of
           [["SPEAKER"; "rec1"; "1"; "0"; "2"; "<NA>"; "<NA>"; "A"; "<NA>"]
           ]%string [] []).
  - constructor; [|constructor]. eexists. reflexivity.
  - simpl. lia.
Defined.

End RttmToTurnsWitnesses.

(** ** The batch scorer: additional columns and the data frame *)

Section ScoreBatchResults.

Import ScoreBatch BatchSpec.

Lemma split_nonempty (sep : ascii) (s : string) : split sep s <> [].
Proof.
  induction s as [|c s IH]; simpl; [discriminate|].
  destruct (Ascii.eqb c sep); [discriminate|].
  destruct (split sep s); [contradiction|discriminate].
Qed.

Lemma concat_cons (sep x : string) (l : list string) :
  l <> [] ->
  String.concat sep (x :: l) = (x ++ sep ++ String.concat sep l)%string.
Proof. destruct l; [contradiction|reflexivity]. Qed.

(** Joining the pieces of [s.split(sep)] by [sep] gives [s] back. *)
Lemma split_join (sep : ascii) (s : string) :
  String.concat (String sep "") (split sep s) = s.
Proof.
  induction s as [|c s IH]; [reflexivity|]. simpl split.
  pose proof (split_nonempty sep s) as Hne.
  destruct (Ascii.eqb c sep) eqn:E.
  - apply Ascii.eqb_eq in E. subst c.
    rewrite concat_cons by exact Hne. simpl. now rewrite IH.
  - destruct (split sep s) as [|p ps]; [contradiction|].
    destruct ps as [|q ps].
    + simpl in *. now rewrite IH.
    + rewrite concat_cons by discriminate.
      rewrite concat_cons in IH by discriminate.
      transitivity
        (String c (p ++ String sep ""
                     ++ String.concat (String sep "") (q :: ps)))%string;
        [reflexivity|now rewrite IH].
Qed.

Lemma length_split (sep : ascii) (s : string) :
  List.length (split sep s) = S (count_char sep s).
Proof.
  induction s as [|c s IH]; [reflexivity|]. simpl.
  destruct (Ascii.eqb c sep); simpl; [now rewrite IH|].
  destruct (split sep s); simpl in *; lia.
Qed.

(** X20.  The specification string and its parse.  [parse_additional_columns]
    loses nothing: joining the parts of every element by ['='] and the
    elements by [';'] gives the specification string back. *)
Theorem additional_columns_round_trip (spec_str : string) :
  String.concat ";" (map (String.concat "=")
                         (parse_additional_columns spec_str)) = spec_str.
Proof.
  unfold parse_additional_columns.
  destruct (String.eqb_spec spec_str "") as [->|_]; [reflexivity|].
  rewrite map_map.
  rewrite (map_ext _ (fun x => x)) by (intros x; apply split_join).
  rewrite map_id. apply (split_join ";"%char).
Qed.

Lemma unpack_all_ok (cols : list (list string)) :
  Forall (fun item => List.length item = 2) cols ->
  exists ps, unpack_all cols = Ok ps /\ List.length ps = List.length cols.
Proof.
  induction 1 as [|item cols Hi _ (ps & E & L)]; simpl.
  - now exists [].
  - destruct item as [|a [|b [|c item]]]; try discriminate.
    simpl. rewrite E. cbn [bind]. eexists. split; [reflexivity|].
    simpl. now rewrite L.
Qed.

Lemma unpack_all_raises (cols : list (list string)) :
  ~ Forall (fun item => List.length item = 2) cols ->
  unpack_all cols = Raise ValueError.
Proof.
  induction cols as [|item cols IH]; intros H.
  - elim H. constructor.
  - simpl. destruct item as [|a [|b [|c item]]]; try reflexivity.
    simpl. rewrite IH; [reflexivity|].
    intros F. apply H. now constructor.
Qed.

Lemma Forall_dec_length (cols : list (list string)) :
  Forall (fun item => List.length item = 2) cols \/
  ~ Forall (fun item => List.length item = 2) cols.
Proof.
  induction cols as [|item cols [IH|IH]].
  - left. constructor.
  - destruct (Nat.eq_dec (List.length item) 2) as [E|E].
    + left. now constructor.
    + right. intros F. inversion F. contradiction.
  - right. intros F. inversion F. contradiction.
Qed.

(** X21.  A specification that is not well formed.  [write_dataframe] on the
    parse of the specification string raises a ValueError exactly when
    the string is not empty and one of its pieces between semicolons does
    not hold exactly one ['='] (a name without a value, a second ['='], or
    the empty piece after a semicolon at the end); otherwise it writes the
    header and one line for every row. *)
Theorem malformed_column_spec_raises (rows : list (list string))
        (spec_str : string) :
  (write_dataframe rows (parse_additional_columns spec_str) =
   Raise ValueError <->
   spec_str <> ""%string /\
   exists piece, In piece (split ";"%char spec_str) /\
                 count_char "="%char piece <> 1) /\
  (forall e, write_dataframe rows (parse_additional_columns spec_str)
             = Raise e -> e = ValueError) /\
  (forall ls, write_dataframe rows (parse_additional_columns spec_str)
              = Ok ls -> List.length ls = S (List.length rows)).
Proof.
  unfold write_dataframe, dataframe_lines.
  set (cols := parse_additional_columns spec_str).
  assert (Hiff : Forall (fun item => List.length item = 2) cols <->
                 ~ (spec_str <> ""%string /\
                    exists piece, In piece (split ";"%char spec_str) /\
                                  count_char "="%char piece <> 1)).
  { unfold cols, parse_additional_columns.
    destruct (String.eqb_spec spec_str "") as [->|Hne].
    - split; [intros _ [F _]; now apply F|constructor].
    - rewrite Forall_forall. split.
      + intros H [_ (piece & Hin & Hc)]. apply Hc.
        specialize (H (split "="%char piece) (in_map _ _ _ Hin)).
        rewrite length_split in H. lia.
      + intros H item Hin. apply in_map_iff in Hin as (piece & <- & Hin).
        rewrite length_split.
        destruct (Nat.eq_dec (count_char "="%char piece) 1) as [E|E];
          [lia|].
        elim H. split; [exact Hne|]. now exists piece. }
  destruct (Forall_dec_length cols) as [F|F].
  - destruct (unpack_all_ok cols F) as (ps & -> & _). cbn [bind].
    split; [|split].
    + split; [discriminate|]. intros H. now apply Hiff in F.
    + discriminate.
    + intros ls H. injection H as <-. cbn [map List.length].
      now rewrite !length_map.
  - rewrite (unpack_all_raises cols F). cbn [bind].
    split; [|split].
    + split; [intros _|reflexivity].
      destruct (String.eqb_spec spec_str "") as [->|Hne].
      * elim F. constructor.
      * split; [exact Hne|].
        assert (Hex : ~ ~ exists piece,
                   In piece (split ";"%char spec_str) /\
                   count_char "="%char piece <> 1).
        { intros N. apply F, Hiff. intros [_ Hx]. now apply N. }
        clear Hiff F. unfold cols in *.
        induction (split ";"%char spec_str) as [|piece l IH].
        -- elim Hex. intros (x & [] & _).
        -- destruct (Nat.eq_dec (count_char "="%char piece) 1) as [E|E].
           ++ destruct IH as (x & Hx & Hc).
              ** intros N. apply Hex. intros (x & [<-|Hx] & Hc);
                   [contradiction|]. apply N. now exists x.
              ** exists x. split; [now right|exact Hc].
           ++ exists piece. split; [now left|exact E].
    + intros e H. now injection H.
    + discriminate.
Qed.

Lemma malformed_column_spec_raises_witness :
  write_dataframe [] (parse_additional_columns "Corpus=AMI;") =
  Raise ValueError.
Proof.
  apply (proj2 (proj1 (malformed_column_spec_raises [] "Corpus=AMI;"))).
  split; [discriminate|]. exists ""%string.
  split; [right; left; reflexivity|discriminate].
Defined.

(** X22.  The header and the rows.  When [write_dataframe] writes, the header
    holds the nine score names followed by the names of the additional
    columns, and the line of every row holds the values of the row
    followed by the values of the additional columns.  A row of
    [_score_recordings] is the file id followed by the nine scores: the
    header has one name fewer than every line has values, it has no name
    for the file id. *)
Theorem dataframe_header_lacks_file_id
        (recs : list (string * (string * string * string * string * string
                                * string * string * string * string)))
        (additional_columns : list (list string))
        (ls : list (list string)) :
  dataframe_lines (map (fun x => row_of (fst x) (snd x)) recs)
                  additional_columns = Ok ls ->
  exists header body names vals,
    ls = header :: body /\
    header = col_names ++ names /\
    List.length names = List.length additional_columns /\
    List.length vals = List.length additional_columns /\
    body = map (fun x => row_of (fst x) (snd x) ++ vals) recs /\
    Forall (fun line => List.length line = S (List.length header)) body.
Proof.
  unfold dataframe_lines. intros H.
  destruct (unpack_all additional_columns) as [ps|] eqn:E; cbn [bind] in H;
    [|discriminate].
  injection H as <-.
  assert (L : List.length ps = List.length additional_columns).
  { destruct (Forall_dec_length additional_columns) as [F|F].
    - destruct (unpack_all_ok _ F) as (ps' & E' & L).
      rewrite E in E'. now injection E' as <-.
    - rewrite (unpack_all_raises _ F) in E. discriminate. }
  exists (col_names ++ map fst ps),
    (map (fun row => row ++ map snd ps)
         (map (fun x => row_of (fst x) (snd x)) recs)),
    (map fst ps), (map snd ps).
  split; [reflexivity|]. split; [reflexivity|].
  split; [now rewrite length_map|]. split; [now rewrite length_map|].
  split; [now rewrite map_map|].
  rewrite map_map. apply Forall_forall. intros line Hin.
  apply in_map_iff in Hin as ([fid sc] & <- & _).
  destruct sc as [[[[[[[[a b] c] d] e] f] g] h] i].
  rewrite !length_app, !length_map. reflexivity.
Qed.

Lemma dataframe_header_lacks_file_id_witness :
  let recs := [("rec1", ("12.5", "0.9", "0.8", "0.85", "0.7", "0.6", "0.3",
                         "1.2", "0.75"))]%string in
  let ls :=
    [["DER"; "B3Precision"; "B3Recall"; "B3F1"; "TauRefSys"; "TauSysRef";
      "CE"; "MI"; "NMI"; "Corpus"];
     ["rec1"; "12.5"; "0.9"; "0.8"; "0.85"; "0.7"; "0.6"; "0.3"; "1.2";
      "0.75"; "AMI"]]%string in
  exists header body names vals,
    ls = header :: body /\
    header = col_names ++ names /\
    List.length names = List.length [["Corpus"; "AMI"]%string] /\
    List.length vals = List.length [["Corpus"; "AMI"]%string] /\
    body = map (fun x => row_of (fst x) (snd x) ++ vals) recs /\
    Forall (fun line => List.length line = S (List.length header)) body.
Proof.
  apply (dataframe_header_lacks_file_id
           [("rec1", ("12.5", "0.9", "0.8", "0.85", "0.7", "0.6", "0.3",
                      "1.2", "0.75"))]%string
           [["Corpus"; "AMI"]%string]).
  reflexivity.
Defined.

End ScoreBatchResults.

(** ** The rows of the batch scorer *)

Section ScoreRecordingsResults.

Import ScoreBatch.

Variable path_exists : string -> bool.
Variable path_join : string -> string -> string.
Variable score :
  string -> string -> Q -> bool -> Q -> bool ->
  result (string * string * string * string * string * string * string
          * string * string).

Lemma length_row_of (fid : string)
      (s : string * string * string * string * string * string * string
           * string * string) :
  List.length (row_of fid s) = 10 /\ hd ""%string (row_of fid s) = fid.
Proof.
  destruct s as [[[[[[[[a b] c] d] e] f] g] h] i]. split; reflexivity.
Qed.

Lemma score_each_rows (fids : list string) (rd sd : string) (collar : Q)
      (io : bool) (step : Q) :
  forall rs,
    score_each path_exists path_join score
      (map (fun fid => (fid, rd, sd, collar, io, step)) fids) = Ok rs ->
    let rows := flat_map (fun row => match row with
                                     | Some (x :: r) => [x :: r]
                                     | _ => []
                                     end) rs in
    map (hd ""%string) rows =
      filter (fun fid => path_exists (path_join rd (fid ++ ".rttm")%string))
             fids /\
    Forall (fun row => List.length row = 10) rows.
Proof.
  induction fids as [|fid fids IH]; intros rs H; simpl in H.
  - injection H as <-. simpl. split; [reflexivity|constructor].
  - destruct (path_exists (path_join rd (fid ++ ".rttm")%string)) eqn:E;
      simpl in H.
    + destruct (score (path_join rd (fid ++ ".rttm")%string)
                      (path_join sd (fid ++ ".rttm")%string)
                      (1 # 4)%Q true (1 # 100)%Q false) as [s|] eqn:Es;
        cbn [bind] in H; [|discriminate].
      destruct (score_each path_exists path_join score
                  (map (fun fid => (fid, rd, sd, collar, io, step)) fids))
        as [rs'|] eqn:Er; cbn [bind] in H; [|discriminate].
      injection H as <-. destruct (IH rs' eq_refl) as [Hh Hl].
      destruct (length_row_of fid s) as [L Hd].
      cbn [flat_map filter]. rewrite E.
      destruct (row_of fid s) as [|x r] eqn:Erow; [discriminate|].
      cbn [app map]. split.
      * f_equal; [exact Hd|exact Hh].
      * constructor; [exact L|exact Hl].
    + destruct (score_each path_exists path_join score
                  (map (fun fid => (fid, rd, sd, collar, io, step)) fids))
        as [rs'|] eqn:Er; cbn [bind] in H; [|discriminate].
      injection H as <-. destruct (IH rs' eq_refl) as [Hh Hl].
      cbn [flat_map filter app]. rewrite E. split; assumption.
Qed.

(** X23.  The rows of a batch.  When [score_recordings] returns, it holds
    one row for every file id whose reference file exists, in the order of
    the ids, and every row is the file id followed by nine scores.  The
    system file is never tested (the reference file is tested twice), and
    [score] is called with the two file names only: the collar, the overlap
    flag and the step given to [score_recordings] have no effect on the
    rows. *)
Theorem score_recordings_rows (fids : list string) (rd sd : string)
        (collar : Q) (io : bool) (step : Q) (rows : list (list string)) :
  score_recordings path_exists path_join score fids rd sd collar io step =
  Ok rows ->
  map (hd ""%string) rows =
    filter (fun fid => path_exists (path_join rd (fid ++ ".rttm")%string))
           fids /\
  Forall (fun row => List.length row = 10) rows /\
  forall collar' io' step',
    score_recordings path_exists path_join score fids rd sd collar' io' step'
    = Ok rows.
Proof.
  unfold score_recordings. intros H.
  destruct (score_each path_exists path_join score
              (map (fun fid => (fid, rd, sd, collar, io, step)) fids))
    as [rs|] eqn:E; cbn [bind] in H; [|discriminate].
  injection H as <-.
  destruct (score_each_rows fids rd sd collar io step rs E) as [Hh Hl].
  split; [exact Hh|]. split; [exact Hl|].
  intros collar' io' step'.
  assert (M : map (fun fid => _score_recordings path_exists path_join score
                                (fid, rd, sd, collar', io', step')) fids =
              map (fun fid => _score_recordings path_exists path_join score
                                (fid, rd, sd, collar, io, step)) fids)
    by reflexivity.
  assert (G : forall l l' : list (string * string * string * Q * bool * Q),
            map (_score_recordings path_exists path_join score) l =
            map (_score_recordings path_exists path_join score) l' ->
            score_each path_exists path_join score l =
            score_each path_exists path_join score l').
  { induction l as [|a l IHl]; intros [|a' l'] Hm; simpl in *;
      try discriminate; [reflexivity|].
    injection Hm as Ha Hm. rewrite Ha, (IHl l' Hm). reflexivity. }
  rewrite (G _ (map (fun fid => (fid, rd, sd, collar, io, step)) fids)).
  - rewrite E. reflexivity.
  - rewrite !map_map. exact M.
Qed.

End ScoreRecordingsResults.

Section ScoreRecordingsWitness.

Import ScoreBatch.

Lemma score_recordings_rows_witness :
  let path_exists := fun fn : string => String.eqb fn "ref/a.rttm" in
  let path_join := fun d f : string => (d ++ "/" ++ f)%string in
  let score :=
    fun (_ _ : string) (_ : Q) (_ : bool) (_ : Q) (_ : bool) =>
      Ok ("12.5", "0.9", "0.8", "0.85", "0.7", "0.6", "0.3", "1.2",
          "0.75")%string in
  let rows := [["a"; "12.5"; "0.9"; "0.8"; "0.85"; "0.7"; "0.6"; "0.3";
                "1.2"; "0.75"]%string] in
  map (hd ""%string) rows =
    filter (fun fid => path_exists (path_join "ref" (fid ++ ".rttm"))%string)
           ["a"; "b"]%string /\
  Forall (fun row => List.length row = 10) rows /\
  forall collar' io' step',
    score_recordings path_exists path_join score ["a"; "b"]%string
                     "ref" "sys" collar' io' step' = Ok rows.
Proof.
  intros path_exists path_join score rows.
  apply (score_recordings_rows path_exists path_join score
           ["a"; "b"]%string "ref"%string "sys"%string 0%Q false 1%Q rows).
  reflexivity.
Defined.

End ScoreRecordingsWitness.

(** ** The order of the turns and of the recordings *)

Section OrderIndependence.

Import Score FrameSpec AlignSpec.

(** Two ascending lists with the same members are the same list. *)
Lemma sorted_members_eq (l1 : list string) :
  forall l2,
    StronglySorted string_lt l1 -> StronglySorted string_lt l2 ->
    (forall x, In x l1 <-> In x l2) -> l1 = l2.
Proof.
  induction l1 as [|a l1 IH]; intros l2 H1 H2 Hm.
  - destruct l2 as [|b l2]; [reflexivity|].
    exfalso. apply (proj2 (Hm b)). now left.
  - destruct l2 as [|b l2].
    { exfalso. apply (proj1 (Hm a)). now left. }
    inversion H1 as [|? ? S1 F1]; subst. inversion H2 as [|? ? S2 F2]; subst.
    rewrite Forall_forall in F1, F2.
    assert (a = b) as <-.
    { destruct (proj1 (Hm a) (or_introl eq_refl)) as [E|Ha]; [auto|].
      destruct (proj2 (Hm b) (or_introl eq_refl)) as [E|Hb]; [auto|].
      exfalso. apply (string_lt_irrefl a).
      exact (string_lt_trans _ _ _ (F1 b Hb) (F2 a Ha)). }
    f_equal. apply IH; [exact S1|exact S2|].
    intros x. split; intros Hx.
    + destruct (proj1 (Hm x) (or_intror Hx)) as [E|Hx2]; [|exact Hx2].
      subst x. exfalso. exact (string_lt_irrefl a (F1 a Hx)).
    + destruct (proj2 (Hm x) (or_intror Hx)) as [E|Hx1]; [|exact Hx1].
      subst x. exfalso. exact (string_lt_irrefl a (F2 a Hx)).
Qed.

Lemma unique_same_members (l l' : list string) :
  (forall x, In x l <-> In x l') ->
  Np.unique String.compare l = Np.unique String.compare l'.
Proof.
  intros H. apply sorted_members_eq; try apply unique_sorted_string.
  intros x. rewrite !unique_In_string. apply H.
Qed.

Lemma Permutation_In_iff (A : Type) (l l' : list A) :
  Permutation l l' -> forall x, In x l <-> In x l'.
Proof.
  intros H x. split; apply Permutation_in; [exact H|].
  now apply Permutation_sym.
Qed.

Lemma existsb_perm (A : Type) (p : A -> bool) (l l' : list A) :
  Permutation l l' -> existsb p l = existsb p l'.
Proof.
  intros H. apply eq_true_iff_eq. rewrite !existsb_exists.
  split; intros (x & Hx & Hp); exists x; split; try exact Hp;
    now apply (Permutation_In_iff _ _ _ H).
Qed.

Lemma speakers_perm (turns turns' : list Turn) :
  Permutation turns turns' -> speakers turns' = speakers turns.
Proof.
  intros H. unfold speakers. apply unique_same_members.
  apply Permutation_In_iff, Permutation_map. now apply Permutation_sym.
Qed.

Lemma frame_row_perm (turns turns' : list Turn) (n : nat) (step : Q)
      (i : nat) :
  Permutation turns turns' -> (0 < step)%Q -> i < n ->
  frame_row turns' n step i = frame_row turns n step i.
Proof.
  intros H Hs Hi. rewrite !frame_row_speaks by assumption.
  rewrite (speakers_perm _ _ H).
  rewrite (existsb_perm _ (fun t => covered t step i) _ _ H).
  f_equal. apply map_ext. intros s. unfold speaks.
  symmetry. now apply existsb_perm.
Qed.

(** X24.  The order of the turns.  With a step above zero, the labelling
    that [turns_to_frames] returns for a given duration does not depend on
    the order of the turns: the order of the lines of a recording in the
    RTTM file is of no account. *)
Theorem turn_order_irrelevant (turns turns' : list Turn) (dur step : Q)
        (as_string : bool) :
  Permutation turns turns' ->
  (0 < step)%Q ->
  turns_to_frames turns' (Some dur) step as_string =
  turns_to_frames turns (Some dur) step as_string.
Proof.
  intros H Hs. unfold turns_to_frames. cbn [resolve_dur bind].
  destruct (int_div dur step) as [n|]; cbn [bind]; [|reflexivity].
  destruct (n <? 0)%Z; [reflexivity|].
  assert (Ec : classes_of turns' = classes_of turns).
  { unfold classes_of. fold (speakers turns') (speakers turns).
    now rewrite (speakers_perm _ _ H). }
  assert (El : map (row_label (Np.pows (List.length (classes_of turns'))))
                   (presence turns' (Z.to_nat n) step) =
               map (row_label (Np.pows (List.length (classes_of turns))))
                   (presence turns (Z.to_nat n) step)).
  { rewrite Ec, !presence_rows, !map_map. apply map_ext_in.
    intros i Hi. apply in_seq in Hi.
    rewrite (frame_row_perm turns turns' _ step i H Hs) by lia.
    reflexivity. }
  rewrite El, Ec. reflexivity.
Qed.

Lemma turn_order_irrelevant_witness :
  turns_to_frames [mkTurn "B" 1%Q 3%Q; mkTurn "A" 0%Q 2%Q] (Some 4%Q) 1%Q
                  true =
  turns_to_frames [mkTurn "A" 0%Q 2%Q; mkTurn "B" 1%Q 3%Q] (Some 4%Q) 1%Q
                  true.
Proof.
  apply (turn_order_irrelevant
           [mkTurn "A" 0%Q 2%Q; mkTurn "B" 1%Q 3%Q]
           [mkTurn "B" 1%Q 3%Q; mkTurn "A" 0%Q 2%Q] 4%Q 1%Q true).
  - apply perm_swap.
  - reflexivity.
Defined.

Lemma lookup_In_pair (d : rttm) (id : string) (v : list Turn) :
  NoDup (keys d) -> In (id, v) d -> lookup id d = Ok v.
Proof.
  unfold keys. induction d as [|[k w] d IH]; simpl; [tauto|].
  intros Hn Hin. inversion Hn as [|? ? Hk Hd]; subst.
  destruct (String.eqb id k) eqn:E.
  - apply String.eqb_eq in E. subst k.
    destruct Hin as [Hin|Hin]; [now injection Hin as ->|].
    exfalso. apply Hk. apply in_map_iff. now exists (id, v).
  - destruct Hin as [Hin|Hin]; [|now apply IH].
    injection Hin as -> ->. now rewrite String.eqb_refl in E.
Qed.

Lemma lookup_raise (d : rttm) (id : string) (e : error) :
  lookup id d = Raise e -> e = KeyError /\ ~ In id (keys d).
Proof.
  unfold keys. induction d as [|[k w] d IH]; simpl.
  - intros H. injection H as <-. tauto.
  - destruct (String.eqb id k) eqn:E; [discriminate|].
    intros H. destruct (IH H) as [-> Hn]. split; [reflexivity|].
    intros [->|Hin]; [now rewrite String.eqb_refl in E|contradiction].
Qed.

Lemma lookup_not_In (d : rttm) (id : string) :
  ~ In id (keys d) -> lookup id d = Raise KeyError.
Proof.
  intros H. destruct (lookup id d) as [v|e] eqn:E.
  - now destruct (lookup_member d id v E).
  - now destruct (lookup_raise d id e E) as [-> _].
Qed.

Lemma lookup_perm (d d' : rttm) (id : string) :
  NoDup (keys d) -> Permutation d d' -> lookup id d' = lookup id d.
Proof.
  intros Hn Hp.
  assert (Hk : Permutation (keys d) (keys d'))
    by now apply Permutation_map.
  destruct (lookup id d) as [v|e] eqn:E.
  - destruct (lookup_member d id v E) as [_ Hin].
    apply lookup_In_pair.
    + exact (Permutation_NoDup Hk Hn).
    + exact (Permutation_in _ Hp Hin).
  - destruct (lookup_raise d id e E) as [-> Hnot].
    apply lookup_not_In. intros Hin. apply Hnot.
    exact (Permutation_in _ (Permutation_sym Hk) Hin).
Qed.

Lemma common_rec_ids_perm (ref ref' sys sys' : rttm) :
  Permutation ref ref' -> Permutation sys sys' ->
  common_rec_ids ref' sys' = common_rec_ids ref sys.
Proof.
  intros Hr Hs. unfold common_rec_ids. apply unique_same_members.
  intros x. rewrite !filter_In, !existsb_eqb_In.
  pose proof (Permutation_In_iff _ _ _ (Permutation_map fst Hr) x) as A.
  pose proof (Permutation_In_iff _ _ _ (Permutation_map fst Hs) x) as B.
  unfold keys. tauto.
Qed.

Lemma align_loop_ext (ref ref' sys sys' : rttm) (step : Q)
      (ids : list string) :
  (forall id, lookup id ref' = lookup id ref) ->
  (forall id, lookup id sys' = lookup id sys) ->
  forall st,
    align_loop ref' sys' step ids st = align_loop ref sys step ids st.
Proof.
  intros Hr Hs. induction ids as [|id ids IH]; intros st; simpl;
    [reflexivity|].
  assert (E : align_rec ref' sys' step st id = align_rec ref sys step st id)
    by (unfold align_rec; now rewrite Hr, Hs).
  rewrite E. destruct (align_rec ref sys step st id); cbn [bind];
    [apply IH|reflexivity].
Qed.

(** X25.  The order of the recordings.  For dictionaries with distinct
    keys, what [rttms_to_frames] returns does not depend on the order in
    which the recordings stand in the two dictionaries: the recordings are
    visited in the ascending order of their ids. *)
Theorem recording_order_irrelevant (ref ref' sys sys' : rttm) (step : Q) :
  Permutation ref ref' -> Permutation sys sys' ->
  NoDup (keys ref) -> NoDup (keys sys) ->
  rttms_to_frames ref' sys' step = rttms_to_frames ref sys step.
Proof.
  intros Hr Hs Nr Ns. unfold rttms_to_frames, rttms_to_chunks.
  rewrite (common_rec_ids_perm _ _ _ _ Hr Hs).
  rewrite (align_loop_ext ref ref' sys sys' step); [reflexivity| |].
  - intros id. now apply lookup_perm.
  - intros id. now apply lookup_perm.
Qed.

Lemma recording_order_irrelevant_witness :
  rttms_to_frames
    [("b"%string, [mkTurn "S1" 0%Q 2%Q]);
     ("a"%string, [mkTurn "S1" 0%Q 3%Q; mkTurn "S2" 2%Q 4%Q])]
    [("b"%string, [mkTurn "X" 0%Q 3%Q]);
     ("a"%string, [mkTurn "Y" 0%Q 3%Q; mkTurn "Z" 2%Q 4%Q])] 1%Q =
  rttms_to_frames
    [("a"%string, [mkTurn "S1" 0%Q 3%Q; mkTurn "S2" 2%Q 4%Q]);
     ("b"%string, [mkTurn "S1" 0%Q 2%Q])]
    [("b"%string, [mkTurn "X" 0%Q 3%Q]);
     ("a"%string, [mkTurn "Y" 0%Q 3%Q; mkTurn "Z" 2%Q 4%Q])] 1%Q.
Proof.
  apply (recording_order_irrelevant
           [("a"%string, [mkTurn "S1" 0%Q 3%Q; mkTurn "S2" 2%Q 4%Q]);
            ("b"%string, [mkTurn "S1" 0%Q 2%Q])]
           [("b"%string, [mkTurn "S1" 0%Q 2%Q]);
            ("a"%string, [mkTurn "S1" 0%Q 3%Q; mkTurn "S2" 2%Q 4%Q])]
           [("b"%string, [mkTurn "X" 0%Q 3%Q]);
            ("a"%string, [mkTurn "Y" 0%Q 3%Q; mkTurn "Z" 2%Q 4%Q])]
           [("b"%string, [mkTurn "X" 0%Q 3%Q]);
            ("a"%string, [mkTurn "Y" 0%Q 3%Q; mkTurn "Z" 2%Q 4%Q])]
           1%Q).
  - apply perm_swap.
  - apply Permutation_refl.
  - repeat constructor; simpl; intuition discriminate.
  - repeat constructor; simpl; intuition discriminate.
Defined.

End OrderIndependence.
